(** * Search-tree nodes of the MCTS core (sound_law/rl)

    A shallow embedding of the node routines of the C++ sources
    ([BaseNode], [TreeNode]: scoring, virtual loss, backup, pruning,
    edges, priors, transposition lookup) and of the array marshalling and
    wrapper checks of the Cython driver, together with the properties the
    specification states about them. *)

From Stdlib Require Import ZArith Lia Bool.
From Stdlib Require Import Floats.SpecFloat.
From stdpp Require Import base option list gmap strings pretty.

(** ** Machine integers *)

Module MachInt.
Local Open Scope Z_scope.

(** Two's-complement wrap-around of a signed integer of [w] bits. *)
Definition wrap_signed (w z : Z) : Z :=
  (z + 2 ^ (w - 1)) mod 2 ^ w - 2 ^ (w - 1).

Definition in_signed (w z : Z) : Prop :=
  - 2 ^ (w - 1) <= z < 2 ^ (w - 1).

(** [int] and Cython's [long] on the LP64 targets the code is built for. *)
Definition int_bits : Z := 32.
Definition long_bits : Z := 64.
Definition wrap_int : Z -> Z := wrap_signed int_bits.
Definition INT_MAX : Z := 2 ^ 31 - 1.

End MachInt.

(** ** IEEE-754 arithmetic for [float] and [double]

  C++ [float] is binary32 and [double] is binary64; both are taken from
  the standard library's executable specification of IEEE-754
  (round to nearest, ties to even). *)

Module Fp.
Local Open Scope Z_scope.

Abbreviation float := spec_float.
Abbreviation double := spec_float.

Definition prec32 : Z := 24.
Definition emax32 : Z := 128.
Definition prec64 : Z := 53.
Definition emax64 : Z := 1024.

Definition fadd : float -> float -> float := SFadd prec32 emax32.
Definition fsub : float -> float -> float := SFsub prec32 emax32.
Definition fmul : float -> float -> float := SFmul prec32 emax32.
Definition fdiv : float -> float -> float := SFdiv prec32 emax32.
Definition fsqrt : float -> float := SFsqrt prec32 emax32.
(** [flt x y] is the C++ comparison [x < y]; false when either is NaN. *)
Definition flt : float -> float -> bool := SFltb.

Definition dadd : double -> double -> double := SFadd prec64 emax64.
Definition dsub : double -> double -> double := SFsub prec64 emax64.
Definition dmul : double -> double -> double := SFmul prec64 emax64.
Definition ddiv : double -> double -> double := SFdiv prec64 emax64.

(** Conversions of an integer value ([int], [visit_t], [size_t]). *)
Definition float_of_int (z : Z) : float := binary_normalize prec32 emax32 z 0 false.
Definition double_of_int (z : Z) : double := binary_normalize prec64 emax64 z 0 false.

(** Re-rounding a value to another format. *)
Definition convert (prec emax : Z) (x : spec_float) : spec_float :=
  match x with
  | S754_finite s m e => binary_normalize prec emax (cond_Zopp s (Zpos m)) e s
  | _ => x
  end.
Definition double_of_float : float -> double := convert prec64 emax64.
Definition float_of_double : double -> float := convert prec32 emax32.

Definition is_nan (x : spec_float) : bool :=
  match x with S754_nan => true | _ => false end.
Definition is_zero (x : spec_float) : bool :=
  match x with S754_zero _ => true | _ => false end.

(** Literals of the source.  A decimal literal is a [double]: the
    correctly rounded quotient of two exactly representable integers. *)
Definition fzero : float := S754_zero false.
Definition lit_1e_8 : double :=
  Eval vm_compute in ddiv (double_of_int 1) (double_of_int 100000000).
Definition lit_neg_9999_9 : double :=
  Eval vm_compute in SFopp (ddiv (double_of_int 99999) (double_of_int 10)).
Definition lit_1_0 : double := Eval vm_compute in double_of_int 1.
Definition f_1e_8 : float := Eval vm_compute in float_of_double lit_1e_8.
Definition f_neg_9999_9 : float := Eval vm_compute in float_of_double lit_neg_9999_9.

(** Two floats denote the same number: identical, or zeros of either sign. *)
Definition same_value (x y : spec_float) : Prop :=
  x = y \/ (is_zero x = true /\ is_zero y = true).

(** A strictly positive value of the format: a positive finite number
    whose exponent is not below the smallest one, or plus infinity. *)
Definition positive_in (prec emax : Z) (x : spec_float) : Prop :=
  match x with
  | S754_finite false _ e => emin prec emax <= e
  | S754_infinity false => True
  | _ => False
  end.

(** A well-formed [float] that is not below zero: a zero of either sign,
    a positive number, plus infinity or NaN. *)
Definition not_negative (x : float) : Prop :=
  valid_binary prec32 emax32 x = true /\ flt x fzero = false.

(** A running sum that cannot be zero: NaN or strictly positive. *)
Definition sum_ok (s : float) : Prop := s = S754_nan \/ positive_in prec32 emax32 s.
End Fp.

(** ** Nodes *)

Import MachInt Fp.

(** Modelled from the spec: [abc_t] is declared in [common.hpp], which is
    not among the sources; a symbol is "a non-negative integer id drawn
    from a fixed alphabet". *)
Definition abc_t : Type := nat.

(** Addresses of heap-allocated nodes; [None] is [nullptr]. *)
Definition addr : Type := nat.
Definition ptr : Type := option addr.

Inductive ActionPhase : Type :=
  BEFORE | AFTER | PRE | D_PRE | POST | SPECIAL_TYPE.

(** The dynamic type of a node, which decides the virtual methods. *)
Inductive NodeKind : Type :=
  | KTree
  | KMini (ap : ActionPhase)
  | KTransition.

Definition Affected : Type := list (Z * nat).
Definition ChosenChar : Type := (Z * abc_t)%type.

Record BaseNode : Type := mkBaseNode {
  kind : NodeKind;
  stopped : bool;
  persistent : bool;
  parents : list addr;
  parent_indices : list nat;
  permissible_chars : list abc_t;
  affected : list Affected;
  children : list ptr;
  priors : list float;
  pruned : list bool;
  action_counts : list Z;
  total_values : list float;
  max_values : list float;
  visit_count : Z;
  max_index : Z;
  max_value : float;
  num_unpruned_actions : Z
}.

Definition is_transitional (n : BaseNode) : bool :=
  match kind n with KTransition => true | _ => false end.
Definition is_tree_node (n : BaseNode) : bool :=
  match kind n with KTree => true | _ => false end.

Definition set_parents (v : list addr) (n : BaseNode) : BaseNode :=
  mkBaseNode (kind n) (stopped n) (persistent n) v (parent_indices n)
    (permissible_chars n) (affected n) (children n) (priors n) (pruned n)
    (action_counts n) (total_values n) (max_values n) (visit_count n)
    (max_index n) (max_value n) (num_unpruned_actions n).
Definition set_parent_indices (v : list nat) (n : BaseNode) : BaseNode :=
  mkBaseNode (kind n) (stopped n) (persistent n) (parents n) v
    (permissible_chars n) (affected n) (children n) (priors n) (pruned n)
    (action_counts n) (total_values n) (max_values n) (visit_count n)
    (max_index n) (max_value n) (num_unpruned_actions n).
Definition set_permissible_chars (v : list abc_t) (n : BaseNode) : BaseNode :=
  mkBaseNode (kind n) (stopped n) (persistent n) (parents n) (parent_indices n)
    v (affected n) (children n) (priors n) (pruned n)
    (action_counts n) (total_values n) (max_values n) (visit_count n)
    (max_index n) (max_value n) (num_unpruned_actions n).
Definition set_affected (v : list Affected) (n : BaseNode) : BaseNode :=
  mkBaseNode (kind n) (stopped n) (persistent n) (parents n) (parent_indices n)
    (permissible_chars n) v (children n) (priors n) (pruned n)
    (action_counts n) (total_values n) (max_values n) (visit_count n)
    (max_index n) (max_value n) (num_unpruned_actions n).
Definition set_children (v : list ptr) (n : BaseNode) : BaseNode :=
  mkBaseNode (kind n) (stopped n) (persistent n) (parents n) (parent_indices n)
    (permissible_chars n) (affected n) v (priors n) (pruned n)
    (action_counts n) (total_values n) (max_values n) (visit_count n)
    (max_index n) (max_value n) (num_unpruned_actions n).
Definition set_priors (v : list float) (n : BaseNode) : BaseNode :=
  mkBaseNode (kind n) (stopped n) (persistent n) (parents n) (parent_indices n)
    (permissible_chars n) (affected n) (children n) v (pruned n)
    (action_counts n) (total_values n) (max_values n) (visit_count n)
    (max_index n) (max_value n) (num_unpruned_actions n).
Definition set_pruned (v : list bool) (n : BaseNode) : BaseNode :=
  mkBaseNode (kind n) (stopped n) (persistent n) (parents n) (parent_indices n)
    (permissible_chars n) (affected n) (children n) (priors n) v
    (action_counts n) (total_values n) (max_values n) (visit_count n)
    (max_index n) (max_value n) (num_unpruned_actions n).
Definition set_action_counts (v : list Z) (n : BaseNode) : BaseNode :=
  mkBaseNode (kind n) (stopped n) (persistent n) (parents n) (parent_indices n)
    (permissible_chars n) (affected n) (children n) (priors n) (pruned n)
    v (total_values n) (max_values n) (visit_count n)
    (max_index n) (max_value n) (num_unpruned_actions n).
Definition set_total_values (v : list float) (n : BaseNode) : BaseNode :=
  mkBaseNode (kind n) (stopped n) (persistent n) (parents n) (parent_indices n)
    (permissible_chars n) (affected n) (children n) (priors n) (pruned n)
    (action_counts n) v (max_values n) (visit_count n)
    (max_index n) (max_value n) (num_unpruned_actions n).
Definition set_max_values (v : list float) (n : BaseNode) : BaseNode :=
  mkBaseNode (kind n) (stopped n) (persistent n) (parents n) (parent_indices n)
    (permissible_chars n) (affected n) (children n) (priors n) (pruned n)
    (action_counts n) (total_values n) v (visit_count n)
    (max_index n) (max_value n) (num_unpruned_actions n).
Definition set_visit_count (v : Z) (n : BaseNode) : BaseNode :=
  mkBaseNode (kind n) (stopped n) (persistent n) (parents n) (parent_indices n)
    (permissible_chars n) (affected n) (children n) (priors n) (pruned n)
    (action_counts n) (total_values n) (max_values n) v
    (max_index n) (max_value n) (num_unpruned_actions n).
Definition set_max_index (v : Z) (n : BaseNode) : BaseNode :=
  mkBaseNode (kind n) (stopped n) (persistent n) (parents n) (parent_indices n)
    (permissible_chars n) (affected n) (children n) (priors n) (pruned n)
    (action_counts n) (total_values n) (max_values n) (visit_count n)
    v (max_value n) (num_unpruned_actions n).
Definition set_max_value (v : float) (n : BaseNode) : BaseNode :=
  mkBaseNode (kind n) (stopped n) (persistent n) (parents n) (parent_indices n)
    (permissible_chars n) (affected n) (children n) (priors n) (pruned n)
    (action_counts n) (total_values n) (max_values n) (visit_count n)
    (max_index n) v (num_unpruned_actions n).
Definition set_num_unpruned_actions (v : Z) (n : BaseNode) : BaseNode :=
  mkBaseNode (kind n) (stopped n) (persistent n) (parents n) (parent_indices n)
    (permissible_chars n) (affected n) (children n) (priors n) (pruned n)
    (action_counts n) (total_values n) (max_values n) (visit_count n)
    (max_index n) (max_value n) v.

(** [BaseNode::BaseNode(stopped, persistent)]: empty vectors and the
    default member initialisers of the class. *)
Definition new_node (k : NodeKind) (stopped persistent : bool) : BaseNode :=
  mkBaseNode k stopped persistent [] [] [] [] [] [] [] [] [] []
    0%Z (-1)%Z f_neg_9999_9 (-1)%Z.

Definition is_expanded (n : BaseNode) : bool :=
  bool_decide (0 < length (permissible_chars n)).
Definition is_evaluated (n : BaseNode) : bool :=
  bool_decide (0 < length (priors n)).
Definition get_num_actions (n : BaseNode) : nat := length (permissible_chars n).

Definition add_action (action : abc_t) (aff : Affected) (n : BaseNode) : BaseNode :=
  set_affected (affected n ++ [aff])
    (set_permissible_chars (permissible_chars n ++ [action]) n).

Definition init_edges (n : BaseNode) : BaseNode :=
  set_children (replicate (length (permissible_chars n)) None) n.

Definition init_stats (n : BaseNode) : BaseNode :=
  let k := length (permissible_chars n) in
  set_max_values (replicate k f_neg_9999_9)
    (set_max_value f_neg_9999_9
      (set_max_index (-1)%Z
        (set_visit_count 0%Z
          (set_total_values (replicate k fzero)
            (set_action_counts (replicate k 0%Z) n))))).

Definition init_pruned (n : BaseNode) : BaseNode :=
  let k := length (permissible_chars n) in
  set_pruned (replicate k false)
    (set_num_unpruned_actions (Z.of_nat k) n).

Definition clear_priors (n : BaseNode) : BaseNode := set_priors [] n.
Definition dummy_evaluate (n : BaseNode) : BaseNode :=
  set_priors (replicate (length (permissible_chars n)) fzero) n.

(** ** Virtual loss and backup

    A routine returns [None] when the C++ code leaves defined behaviour
    (a vector read or written out of range, a null dereference) or stops
    at a failed [assert]. *)

Section Stats.
Local Open Scope Z_scope.

(** Modelled from the spec: [visit_t] is declared in [common.hpp], which
    is not among the sources; it is taken as a signed integer type of
    [visit_bits] bits, the width being a parameter. *)
Variable visit_bits : Z.

Definition wrap_visit : Z -> Z := wrap_signed visit_bits.

Definition virtual_select (index : nat) (game_count : Z) (virtual_loss : float)
    (n : BaseNode) : option BaseNode :=
  ac ← action_counts n !! index;
  let n := set_action_counts (<[index := wrap_visit (ac + game_count)]> (action_counts n)) n in
  tv ← total_values n !! index;
  let n := set_total_values
             (<[index := fsub tv (fmul (float_of_int game_count) virtual_loss)]> (total_values n)) n in
  Some (set_visit_count (wrap_visit (visit_count n + game_count)) n).

Definition update_stats (index : nat) (new_value : float) (game_count : Z)
    (virtual_loss : float) (n : BaseNode) : option BaseNode :=
  ac ← action_counts n !! index;
  let ac' := wrap_visit (ac - wrap_int (game_count - 1)) in
  let n := set_action_counts (<[index := ac']> (action_counts n)) n in
  if ac' <? 1 then None
  else
    let n := if flt (max_value n) new_value
             then set_max_index (wrap_int (Z.of_nat index)) (set_max_value new_value n)
             else n in
    mv ← max_values n !! index;
    let n := if flt mv new_value
             then set_max_values (<[index := new_value]> (max_values n)) n
             else n in
    tv ← total_values n !! index;
    let n := set_total_values
               (<[index := fadd tv (fadd (fmul (float_of_int game_count) virtual_loss) new_value)]>
                  (total_values n)) n in
    Some (set_visit_count (wrap_visit (visit_count n - wrap_int (game_count - 1))) n).

End Stats.

(** A matched pair: the selection step on the way down and the backup
    step on the way up, at the same child index. *)
Definition select_then_backup (visit_bits : Z) (index : nat) (game_count : Z)
    (virtual_loss new_value : float) (n : BaseNode) : option BaseNode :=
  n1 ← virtual_select visit_bits index game_count virtual_loss n;
  update_stats visit_bits index new_value game_count virtual_loss n1.

(** The value slot after a matched pair, as the code computes it:
    [(w - g*vl) + (g*vl + V)] in [float] arithmetic. *)
Definition pair_total (tv : float) (game_count : Z) (virtual_loss new_value : float) : float :=
  fadd (fsub tv (fmul (float_of_int game_count) virtual_loss))
       (fadd (fmul (float_of_int game_count) virtual_loss) new_value).

(** A freshly expanded node with exactly one action, its edges, statistics
    and pruning flags initialised. *)
Definition fresh_one_action (k : NodeKind) (st pe : bool) (c : abc_t) (aff : Affected) : BaseNode :=
  init_pruned (init_stats (init_edges (add_action c aff (new_node k st pe)))).

(** The values 0.5, 1.0, 2.0, 3.5, 2^-100 and 0.01 as [float]s. *)
Definition f_0_5 : float :=
  Eval vm_compute in float_of_double (ddiv (double_of_int 1) (double_of_int 2)).
Definition f_1_0 : float := Eval vm_compute in float_of_int 1.
Definition f_2_0 : float := Eval vm_compute in float_of_int 2.
Definition f_3_5 : float :=
  Eval vm_compute in float_of_double (ddiv (double_of_int 7) (double_of_int 2)).
Definition f_2_pow_neg_100 : float := S754_finite false 8388608 (-123).
Definition f_0_01 : float :=
  Eval vm_compute in float_of_double (ddiv (double_of_int 1) (double_of_int 100)).

(** ** Scoring *)

Section Scores.
Local Open Scope Z_scope.

(** [rand()] of the C library: [rand k] is the value of the [k]-th draw
    made while one score vector is computed, [RAND_MAX] its bound. *)
Variable RAND_MAX : Z.
Variable rand : nat -> Z.

Definition randf (high : float) (r : Z) : float :=
  fdiv (fmul high (float_of_int r)) (float_of_int RAND_MAX).

(** The three terms of a score.  [q] is computed in [double], because the
    literal [1e-8] is one, and rounded to [float] on assignment. *)
Definition q_divisor (ac : Z) : double :=
  dadd (double_of_float (float_of_int ac)) lit_1e_8.
Definition q_term (tv : float) (ac : Z) : float :=
  float_of_double (ddiv (double_of_float tv) (q_divisor ac)).
Definition u_term (puct_c p : float) (vc ac : Z) : float :=
  fdiv (fmul (fmul puct_c p) (fsqrt (float_of_int vc)))
       (fadd (float_of_int 1) (float_of_int ac)).
Definition h_term (heur_c : float) (a : nat) (ac : Z) : float :=
  fdiv (fmul heur_c (fsqrt (float_of_int (Z.of_nat a))))
       (fadd (float_of_int 1) (float_of_int ac)).

(** One iteration of the loop of [get_scores]: the value stored in
    [scores[i]]. *)
Definition score_at (puct_c heur_c : float) (add_noise : bool) (n : BaseNode)
    (i : nat) : option float :=
  ac ← action_counts n !! i;
  tv ← total_values n !! i;
  let q := q_term tv ac in
  mv ← max_values n !! i;
  p ← priors n !! i;
  let u := u_term puct_c p (visit_count n) ac in
  aff ← affected n !! i;
  let h := h_term heur_c (length aff) ac in
  let noise := if add_noise then randf f_1e_8 (rand i) else fzero in
  pr ← pruned n !! i;
  Some (if pr : bool then f_neg_9999_9 else fadd (fadd (fadd q u) h) noise).

Fixpoint get_scores_loop (puct_c heur_c : float) (add_noise : bool) (n : BaseNode)
    (k i : nat) (scores : list float) : option (list float) :=
  match k with
  | O => Some scores
  | S k' =>
      s ← score_at puct_c heur_c add_noise n i;
      get_scores_loop puct_c heur_c add_noise n k' (S i) (<[i := s]> scores)
  end.

Definition get_scores (puct_c heur_c : float) (add_noise : bool) (n : BaseNode)
    : option (list float) :=
  if stopped n && is_tree_node n then None
  else
    let scores := replicate (length (priors n)) fzero in
    if bool_decide (length (priors n) = length (pruned n))
    then get_scores_loop puct_c heur_c add_noise n (length (priors n)) 0 scores
    else None.

(** [std::max_element]: one scan with [<] that keeps the position of the
    largest element seen so far and moves on a strictly larger one only. *)
Fixpoint max_element_from (largest : nat) (lv : float) (i : nat) (rest : list float) : nat :=
  match rest with
  | [] => largest
  | x :: rest' =>
      if flt lv x then max_element_from i x (S i) rest'
      else max_element_from largest lv (S i) rest'
  end.

Definition max_element (l : list float) : nat :=
  match l with
  | [] => O
  | x :: rest => max_element_from 0 x 1 rest
  end.

Definition get_best_action (puct_c heur_c : float) (add_noise : bool) (n : BaseNode)
    : option ChosenChar :=
  if is_expanded n && is_evaluated n then
    scores ← get_scores puct_c heur_c add_noise n;
    let index := wrap_int (Z.of_nat (max_element scores)) in
    if index <? 0 then None
    else
      c ← permissible_chars n !! Z.to_nat index;
      Some (index, c)
  else None.

End Scores.

(** The score of child [i] in the words of the specification, with
    [add_noise = false].  The formulas are written out on their own, not
    through the terms the loop of [get_scores] calls:

      q = w / (n + 1e-8)
      u = puct_c * p * sqrt(visit_count) / (1 + n)
      h = heur_c * sqrt(a) / (1 + n)
      score = pruned ? -9999.9 : q + u + h

    with [w] the total value, [n] the action count, [p] the prior and [a]
    the number of affected positions.  The operations are those of IEEE
    binary32, the type of a score; the sum [n + 1e-8] and the quotient by
    it are formed in binary64, the type of the literal, and the quotient
    is rounded to binary32. *)
Definition spec_q (w : float) (n : Z) : float :=
  float_of_double
    (ddiv (double_of_float w) (dadd (double_of_float (float_of_int n)) lit_1e_8)).
Definition spec_u (puct_c p : float) (visit_count n : Z) : float :=
  fdiv (fmul (fmul puct_c p) (fsqrt (float_of_int visit_count)))
       (fadd (float_of_int 1) (float_of_int n)).
Definition spec_h (heur_c : float) (a : nat) (n : Z) : float :=
  fdiv (fmul heur_c (fsqrt (float_of_int (Z.of_nat a))))
       (fadd (float_of_int 1) (float_of_int n)).
Definition spec_score (puct_c heur_c : float) (vc : Z) (pr : bool) (tv : float)
    (ac : Z) (p : float) (a : nat) : float :=
  if pr then f_neg_9999_9
  else fadd (fadd (spec_q tv ac) (spec_u puct_c p vc ac)) (spec_h heur_c a ac).

(** [fle x y] is the C++ comparison [x <= y]; false when either is NaN. *)
Definition fle : float -> float -> bool := SFleb.

(** [idx] holds the maximum: no score is above the one at [idx]. *)
Definition holds_maximum (scores : list float) (idx : nat) : Prop :=
  exists y, scores !! idx = Some y /\
    forall j x, scores !! j = Some x -> fle x y = true.

Definition no_nan (l : list float) : Prop := Forall (fun x => is_nan x = false) l.

(** [idx] is the first position holding the largest score. *)
Definition is_first_max (scores : list float) (idx : nat) : Prop :=
  exists y, scores !! idx = Some y /\
    (forall j x, scores !! j = Some x -> flt y x = false) /\
    (forall j x, (j < idx)%nat -> scores !! j = Some x -> flt x y = true).

(** The per-child vectors of a node agree in length. *)
Definition arrays_agree (n : BaseNode) : Prop :=
  length (affected n) = length (permissible_chars n) /\
  length (priors n) = length (permissible_chars n) /\
  length (pruned n) = length (permissible_chars n) /\
  length (action_counts n) = length (permissible_chars n) /\
  length (total_values n) = length (permissible_chars n) /\
  length (max_values n) = length (permissible_chars n).

(** ** The order of non-NaN floats, as a lexicographic key *)

Section FloatOrder.
Local Open Scope Z_scope.

Definition order_key (x : spec_float) : Z * Z * Z :=
  match x with
  | S754_infinity true => (-2, 0, 0)
  | S754_finite true m e => (-1, - e, Zneg m)
  | S754_zero _ => (0, 0, 0)
  | S754_nan => (0, 0, 0)
  | S754_finite false m e => (1, e, Zpos m)
  | S754_infinity false => (2, 0, 0)
  end.

Definition key_lt (k1 k2 : Z * Z * Z) : Prop :=
  let '(a1, b1, c1) := k1 in
  let '(a2, b2, c2) := k2 in
  a1 < a2 \/ (a1 = a2 /\ (b1 < b2 \/ (b1 = b2 /\ c1 < c2))).

End FloatOrder.

(** The score the loop stores for child [i] when [add_noise = false]:
    the sum of the terms plus a noise of [0.0]. *)
Definition code_score (puct_c heur_c : float) (vc : Z) (pr : bool) (tv : float)
    (ac : Z) (p : float) (a : nat) : float :=
  if pr then f_neg_9999_9
  else fadd (fadd (fadd (q_term tv ac) (u_term puct_c p vc ac)) (h_term heur_c a ac)) fzero.

(** Scenario S2: two actions with priors 0.5 each, nothing visited. *)
Definition two_action_node : BaseNode :=
  set_priors [f_0_5; f_0_5]
    (init_pruned (init_stats (init_edges
      (add_action 5%nat [] (add_action 4%nat [] (new_node (KMini AFTER) false false)))))).

(** ** Edges and pruning on the node graph

    The nodes live in a heap indexed by address; a node refers to its
    parents and children by address, so a node reached twice is one
    object. *)

Definition connect (this : addr) (index : nat) (child : ptr)
    (h : gmap addr BaseNode) : option (gmap addr BaseNode) :=
  n ← h !! this;
  c ← children n !! index;
  match c with
  | Some _ => Some h
  | None =>
      let h1 := <[this := set_children (<[index := child]> (children n)) n]> h in
      ca ← child;
      cn ← h1 !! ca;
      let h2 := <[ca := set_parents (parents cn ++ [this]) cn]> h1 in
      cn2 ← h2 !! ca;
      Some (<[ca := set_parent_indices (parent_indices cn2 ++ [index]) cn2]> h2)
  end.

Definition is_pruned (n : BaseNode) : bool := (num_unpruned_actions n =? 0)%Z.

(** The two updates of a node made by [prune(size_t)] and [prune()]. *)
Definition mark_pruned (index : nat) (n : BaseNode) : BaseNode :=
  set_num_unpruned_actions (wrap_int (num_unpruned_actions n - 1))
    (set_pruned (<[index := true]> (pruned n)) n).
Definition mark_all_pruned (n : BaseNode) : BaseNode :=
  set_pruned (replicate (length (pruned n)) true) (set_num_unpruned_actions 0 n).

(** [prune(size_t)], [prune()] and the loop of [prune()] over the parents.
    The recursion climbs the parent links, so it is bounded by [fuel];
    [None] also stands for fuel that ran out. *)
Fixpoint prune_at (fuel : nat) (this : addr) (index : nat)
    (h : gmap addr BaseNode) {struct fuel} : option (gmap addr BaseNode) :=
  match fuel with
  | O => None
  | S fuel' =>
      n ← h !! this;
      b ← pruned n !! index;
      let h1 :=
        if b : bool then h
        else <[this := mark_pruned index n]> h in
      n1 ← h1 !! this;
      if is_pruned n1 then prune fuel' this h1 else Some h1
  end
with prune (fuel : nat) (this : addr)
    (h : gmap addr BaseNode) {struct fuel} : option (gmap addr BaseNode) :=
  match fuel with
  | O => None
  | S fuel' =>
      n ← h !! this;
      let h1 := <[this := mark_all_pruned n]> h in
      prune_parents fuel' this 0 h1
  end
with prune_parents (fuel : nat) (this : addr) (i : nat)
    (h : gmap addr BaseNode) {struct fuel} : option (gmap addr BaseNode) :=
  match fuel with
  | O => None
  | S fuel' =>
      n ← h !! this;
      if decide (i < length (parents n)) then
        p ← parents n !! i;
        pi ← parent_indices n !! i;
        h' ← prune_at fuel' p pi h;
        prune_parents fuel' this (S i) h'
      else Some h
  end.

(** *** Invariants of pruning *)

Fixpoint count_unpruned (l : list bool) : nat :=
  match l with
  | [] => 0
  | b :: l' => (if b then 0 else 1) + count_unpruned l'
  end.

(** [num_unpruned_actions == count(!pruned[i])]. *)
Definition count_inv (n : BaseNode) : Prop :=
  num_unpruned_actions n = Z.of_nat (count_unpruned (pruned n)) /\
  (num_unpruned_actions n <= INT_MAX)%Z.

Definition count_inv_all (h : gmap addr BaseNode) : Prop :=
  forall a n, h !! a = Some n -> count_inv n.

(** Fully pruned: no unpruned action is counted and every flag is set. *)
Definition fully_pruned (n : BaseNode) : Prop :=
  is_pruned n = true /\ forall j b, pruned n !! j = Some b -> b = true.

(** Every fully pruned node has [pruned[parent_index]] set in each of its
    parents, except along the parent edges [(a, k)] singled out by
    [E] (the edges a running [prune()] has still to visit). *)
Definition propagated_except (E : addr -> nat -> Prop) (h : gmap addr BaseNode) : Prop :=
  forall a n k p pi,
    h !! a = Some n -> fully_pruned n ->
    parents n !! k = Some p -> parent_indices n !! k = Some pi ->
    ~ E a k ->
    exists pn, h !! p = Some pn /\ pruned pn !! pi = Some true.

Definition propagated (h : gmap addr BaseNode) : Prop :=
  propagated_except (fun _ _ => False) h.

(** Parent links are well formed: [parents] and [parent_indices] are
    equally long, every parent is allocated and every parent index is a
    child slot of that parent; and the links are acyclic, every parent
    having a smaller [rank] than its child. *)
Definition links_closed (h : gmap addr BaseNode) : Prop :=
  forall a n, h !! a = Some n ->
    length (parents n) = length (parent_indices n) /\
    forall k p pi, parents n !! k = Some p -> parent_indices n !! k = Some pi ->
      exists pn, h !! p = Some pn /\ pi < length (pruned pn).

Definition ranked (rank : addr -> nat) (h : gmap addr BaseNode) : Prop :=
  forall a n k p, h !! a = Some n -> parents n !! k = Some p -> rank p < rank a.

Definition wf_links (rank : addr -> nat) (h : gmap addr BaseNode) : Prop :=
  links_closed h /\ ranked rank h.

(** What pruning may change in a node, and in a heap. *)
Definition node_step (n n' : BaseNode) : Prop :=
  parents n' = parents n /\
  parent_indices n' = parent_indices n /\
  length (pruned n') = length (pruned n) /\
  (forall j, pruned n !! j = Some true -> pruned n' !! j = Some true) /\
  (fully_pruned n -> fully_pruned n').

Definition heap_step (h h' : gmap addr BaseNode) : Prop :=
  forall a,
    match h !! a with
    | Some n => exists n', h' !! a = Some n' /\ node_step n n'
    | None => h' !! a = None
    end.

(** Slot [pi] of the node at [p] is pruned. *)
Definition flagged (h : gmap addr BaseNode) (p : addr) (pi : nat) : Prop :=
  exists pn, h !! p = Some pn /\ pruned pn !! pi = Some true.

(** A settled node: either its counter is not zero, or it is fully
    pruned and each of its parent edges outside [E] leads to a set flag
    of a parent that is settled in turn. *)
Inductive settled (E : addr -> nat -> Prop) (h : gmap addr BaseNode) : addr -> Prop :=
  | settled_open a n :
      h !! a = Some n -> is_pruned n = false -> settled E h a
  | settled_closed a n :
      h !! a = Some n -> fully_pruned n ->
      (forall k p pi,
         parents n !! k = Some p -> parent_indices n !! k = Some pi -> ~ E a k ->
         flagged h p pi) ->
      (forall k p pi,
         parents n !! k = Some p -> parent_indices n !! k = Some pi -> ~ E a k ->
         settled E h p) ->
      settled E h a.

(** A call of either overload of [prune], and a sequence of calls. *)
Inductive prune_call : Type :=
  | PruneAt (a : addr) (index : nat)
  | PruneAll (a : addr).

Definition run_call (fuel : nat) (c : prune_call) (h : gmap addr BaseNode)
    : option (gmap addr BaseNode) :=
  match c with
  | PruneAt a index => prune_at fuel a index h
  | PruneAll a => prune fuel a h
  end.

Fixpoint run_calls (fuel : nat) (cs : list prune_call) (h : gmap addr BaseNode)
    : option (gmap addr BaseNode) :=
  match cs with
  | [] => Some h
  | c :: cs' => h1 ← run_call fuel c h; run_calls fuel cs' h1
  end.

Definition valid_call (h : gmap addr BaseNode) (c : prune_call) : Prop :=
  match c with
  | PruneAt a index => exists n, h !! a = Some n /\ index < length (pruned n)
  | PruneAll a => is_Some (h !! a)
  end.

(** What a call leaves behind: the node it was made on is settled, with
    the slot pruned or the whole node fully pruned. *)
Definition call_done (c : prune_call) (h : gmap addr BaseNode) : Prop :=
  match c with
  | PruneAt a index =>
      settled (fun _ _ => False) h a /\
      exists n, h !! a = Some n /\ pruned n !! index = Some true
  | PruneAll a =>
      settled (fun _ _ => False) h a /\
      exists n, h !! a = Some n /\ fully_pruned n
  end.

(** The edges exempted while [prune()] of [this] has visited its first
    [i] parents. *)
Definition pending (E : addr -> nat -> Prop) (this : addr) (i : nat) : addr -> nat -> Prop :=
  fun a k => E a k \/ (a = this /\ i <= k).

(** Scenario S4: a chain A -> B -> C of one-action nodes at the
    addresses 0, 1 and 2, each the only child of its parent. *)
Definition chain_node (ps : list addr) (pis : list nat) (cs : list ptr) : BaseNode :=
  set_children cs
    (set_parent_indices pis
      (set_parents ps (fresh_one_action (KMini AFTER) false false 3%nat []))).

Definition chain_heap : gmap addr BaseNode :=
  <[2 := chain_node [1] [0] [None]]>
    (<[1 := chain_node [0] [0] [Some 2]]>
      (<[0 := chain_node [] [] [Some 1]]> ∅)).

(** ** Priors *)

(** A counting loop [for (i = i0; i < i0 + k; ++i) body], threading the
    state and stopping at the first failure. *)
Fixpoint for_loop {St : Type} (k i : nat) (body : nat -> St -> option St) (s : St)
    : option St :=
  match k with
  | O => Some s
  | S k' => s' ← body i s; for_loop k' (S i) body s'
  end.

(** The divisor of [normalize]: [1e-8] plus the priors, added in order. *)
Definition normalize_sum (priors : list float) : float :=
  fold_left fadd priors f_1e_8.

Definition normalize (priors : list float) : list float :=
  let sum := normalize_sum priors in
  map (fun prior => fdiv prior sum) priors.

Definition gather_priors (values : list float) (indices : list abc_t) : option (list float) :=
  ret ← mapM (fun index => values !! index) indices;
  Some (normalize ret).

(** A node of three actions, edges, statistics and pruning flags
    initialised, with the priors [pr] attached. *)
Definition three_action_node (pr : list float) : BaseNode :=
  set_priors pr
    (init_pruned (init_stats (init_edges
      (add_action 2%nat [] (add_action 1%nat [] (add_action 0%nat []
         (new_node (KMini AFTER) false false))))))).

(** The node above with the priors gathered from the values
    [0.0, 1.0, -1.0], after one selection of its last action. *)
Definition nan_prior_node : option BaseNode :=
  pr ← gather_priors [fzero; f_1_0; SFopp f_1_0] [0%nat; 1%nat; 2%nat];
  virtual_select 32 2 1 f_1_0 (three_action_node pr).

(** Modelled from the spec: the class [Word] is declared in [word.hpp],
    which is not among the sources; a word is referred to by its
    identity, and [get_edit_dist_at] is "an opaque function over a
    state". *)
Definition Word_ptr : Type := nat.

Record TreeNode : Type := mkTreeNode {
  base : BaseNode;
  words : list Word_ptr;
  dist : float;
  done : bool;
  meta_priors : list (list float);
  special_priors : list float
}.

Definition with_base (b : BaseNode) (t : TreeNode) : TreeNode :=
  mkTreeNode b (words t) (dist t) (done t) (meta_priors t) (special_priors t).

Definition evaluate (new_meta_priors : list (list float)) (new_special_priors : list float)
    (t : TreeNode) : option TreeNode :=
  if is_expanded (base t) then
    if is_evaluated (base t) then Some t
    else
      row ← new_meta_priors !! 0;
      pr ← gather_priors row (permissible_chars (base t));
      Some (mkTreeNode (set_priors pr (base t)) (words t) (dist t) (done t)
              new_meta_priors new_special_priors)
  else None.

(** [old * (1.0 - noise_ratio) + noise * noise_ratio]: the literal [1.0]
    makes the first product and the sum [double]; the second product is a
    [float] product; the result is rounded to [float] when stored. *)
Definition mix (old noise noise_ratio : float) : float :=
  float_of_double
    (dadd (dmul (double_of_float old) (dsub lit_1_0 (double_of_float noise_ratio)))
          (double_of_float (fmul noise noise_ratio))).

Definition mix_meta (meta_noise : list (list float)) (noise_ratio : float)
    (m : list (list float)) : option (list (list float)) :=
  for_loop (length meta_noise) 0
    (fun i m =>
       noise_row ← meta_noise !! i;
       for_loop (length noise_row) 0
         (fun j m =>
            row ← m !! i;
            old ← row !! j;
            x ← noise_row !! j;
            Some (<[i := <[j := mix old x noise_ratio]> row]> m))
         m)
    m.

Definition mix_special (special_noise : list float) (noise_ratio : float)
    (s : list float) : option (list float) :=
  for_loop (length special_noise) 0
    (fun i s =>
       old ← s !! i;
       x ← special_noise !! i;
       Some (<[i := mix old x noise_ratio]> s))
    s.

Definition add_noise (meta_noise : list (list float)) (special_noise : list float)
    (noise_ratio : float) (t : TreeNode) : option TreeNode :=
  new_meta_priors ← mix_meta meta_noise noise_ratio (meta_priors t);
  new_special_priors ← mix_special special_noise noise_ratio (special_priors t);
  evaluate new_meta_priors new_special_priors t.

Definition tree_clear_priors (t : TreeNode) : TreeNode :=
  with_base (clear_priors (base t)) t.

(** The noise arrays fit inside the stored priors. *)
Definition noise_fits (meta_noise m : list (list float)) : Prop :=
  forall i noise_row, meta_noise !! i = Some noise_row ->
    exists row, m !! i = Some row /\ length noise_row <= length row.

(** Entry [(i, j)] of [m'] is the mix of the entries of [m] and of
    [meta_noise] where the noise has an entry, and the entry of [m]
    elsewhere. *)
Definition mixed_meta (meta_noise : list (list float)) (noise_ratio : float)
    (m m' : list (list float)) : Prop :=
  length m' = length m /\
  forall i row, m !! i = Some row ->
    exists row', m' !! i = Some row' /\ length row' = length row /\
      forall j old, row !! j = Some old ->
        row' !! j = Some (match meta_noise !! i ≫= (fun r => r !! j) with
                          | Some x => mix old x noise_ratio
                          | None => old
                          end).

Definition mixed_special (special_noise : list float) (noise_ratio : float)
    (s s' : list float) : Prop :=
  length s' = length s /\
  forall i old, s !! i = Some old ->
    s' !! i = Some (match special_noise !! i with
                    | Some x => mix old x noise_ratio
                    | None => old
                    end).

(** A tree node with the symbols 0 and 1 as its actions, before and
    after its evaluation with the priors 1.0 and 1.0. *)
Definition unevaluated_tree : TreeNode :=
  mkTreeNode
    (init_pruned (init_stats (init_edges
       (add_action 1%nat [] (add_action 0%nat [] (new_node KTree false true))))))
    [] fzero true [] [].

Definition evaluated_tree : option TreeNode :=
  evaluate [[f_1_0; f_1_0]] [] unevaluated_tree.

Definition evaluated_tree_node : TreeNode :=
  match evaluated_tree with
  | Some t => t
  | None => unevaluated_tree
  end.

(** ** The transposition table *)

Section TTable.

(** Modelled from the spec: [Word::get_edit_dist_at] belongs to
    [word.hpp], which is not among the sources; the edit distance of a
    word at an order is "an opaque function over a state". *)
Variable get_edit_dist_at : Word_ptr -> nat -> float.

Definition common_init (ws : list Word_ptr) (t : TreeNode) : TreeNode :=
  let d := foldl (fun acc ow => fadd acc (get_edit_dist_at (snd ow) (fst ow)))
                 (dist t) (imap (fun order w => (order, w)) ws) in
  mkTreeNode (base t) (words t) d
    (if SFeqb (double_of_float d) (S754_zero false) then true else done t)
    (meta_priors t) (special_priors t).

(** The two constructors: [TreeNode(words)] for persistent nodes and
    [TreeNode(words, stopped)] for the others. *)
Definition TreeNode_new (ws : list Word_ptr) : TreeNode :=
  common_init ws (mkTreeNode (new_node KTree false true) ws fzero false [] []).
Definition TreeNode_new_stopped (ws : list Word_ptr) (stopped : bool) : TreeNode :=
  common_init ws (mkTreeNode (new_node KTree stopped false) ws fzero false [] []).

(** The allocated tree nodes and the static [t_table]. *)
Record Store : Type := mkStore {
  nodes : gmap addr TreeNode;
  t_table : gmap (list Word_ptr) addr
}.

(** Modelled from the spec: the class [Trie] is not among the sources.
    [Trie::get(key, value)] is the table's get-or-insert: it "returns
    existing canonical node; the candidate passed in is discarded if a
    collision occurs".  It answers whether the key was present, together
    with the canonical value and the table, which gains the candidate
    when the key was absent. *)
Definition Trie_get (key : list Word_ptr) (candidate : addr)
    (tbl : gmap (list Word_ptr) addr) : bool * addr * gmap (list Word_ptr) addr :=
  match tbl !! key with
  | Some existing => (true, existing, tbl)
  | None => (false, candidate, <[key := candidate]> tbl)
  end.

(** Modelled from the spec: [Trie::size] is the "total canonical node
    count". *)
Definition get_num_nodes (st : Store) : nat := size (t_table st).

(** [new] yields an address that is not allocated; [delete] of the
    candidate, which has no parents and no children, frees it. *)
Definition get_tree_node_from (new_node : TreeNode) (ws : list Word_ptr) (st : Store)
    : addr * Store :=
  let a := fresh (dom (nodes st)) in
  let heap1 := <[a := new_node]> (nodes st) in
  let '(found, ret, tbl) := Trie_get ws a (t_table st) in
  if found : bool then (ret, mkStore (delete a heap1) tbl)
  else (ret, mkStore heap1 tbl).

Definition get_tree_node (ws : list Word_ptr) (st : Store) : addr * Store :=
  get_tree_node_from (TreeNode_new ws) ws st.

Definition get_tree_node_stopped (ws : list Word_ptr) (stopped : bool) (st : Store)
    : addr * Store :=
  get_tree_node_from (TreeNode_new_stopped ws stopped) ws st.

(** A call of either overload, and a sequence of calls. *)
Inductive overload : Type :=
  | Plain
  | WithStopped (stopped : bool).

Definition lookup_call (o : overload) (ws : list Word_ptr) (st : Store) : addr * Store :=
  match o with
  | Plain => get_tree_node ws st
  | WithStopped stopped => get_tree_node_stopped ws stopped st
  end.

Fixpoint lookup_calls (cs : list (overload * list Word_ptr)) (st : Store) : Store :=
  match cs with
  | [] => st
  | (o, ws) :: cs' => lookup_calls cs' (snd (lookup_call o ws st))
  end.

End TTable.

(** ** Arrays in and out (the Cython driver)

    A C-contiguous two-dimensional [long] array is its shape and its
    rows.  Indexing a memoryview is bounds-checked; [None] stands for
    the Python exception raised by an index out of range or by a
    negative size. *)

Record ndarray : Type := mkArr {
  shape0 : nat;
  shape1 : nat;
  cells : list (list Z)
}.

Definition wf_array (a : ndarray) : Prop :=
  length (cells a) = shape0 a /\ Forall (fun r => length r = shape1 a) (cells a).

Definition get2 (a : ndarray) (i j : nat) : option Z :=
  row ← cells a !! i; row !! j.

Definition set2 (a : ndarray) (i j : nat) (v : Z) : option ndarray :=
  row ← cells a !! i;
  _ ← row !! j;
  Some (mkArr (shape0 a) (shape1 a) (<[i := <[j := v]> row]> (cells a))).

(** [np.full([n, m], v)]. *)
Definition np_full (n m : nat) (v : Z) : ndarray :=
  mkArr n m (replicate n (replicate m v)).

Abbreviation IdSeq := (list Z).
Abbreviation VocabIdSeq := (list (list Z)).

Section Marshal.
Local Open Scope Z_scope.

(** Modelled from the spec: [PAD_ID] comes from [sound_law.data.alphabet],
    which is not among the sources; it is the "reserved [PAD] id" used
    "for padding only". *)
Variable PAD_ID : Z.

Definition np2vocab (arr : ndarray) (lengths : list Z) (n : nat) : option VocabIdSeq :=
  for_loop n 0
    (fun i (vocab_i : VocabIdSeq) =>
       m ← lengths !! i;
       if m <? 0 then None
       else
         id_seq ← for_loop (Z.to_nat m) 0
                    (fun j (id_seq : IdSeq) =>
                       x ← get2 arr i j;
                       Some (<[j := x]> id_seq))
                    (replicate (Z.to_nat m) 0);
         Some (<[i := id_seq]> vocab_i))
    (replicate n []).

Definition vocab2np (vocab_i : VocabIdSeq) : option ndarray :=
  let n := length vocab_i in
  m ← for_loop n 0
        (fun i (m : nat) => id_seq ← vocab_i !! i; Some (Nat.max m (length id_seq)))
        0%nat;
  for_loop n 0
    (fun i (arr : ndarray) =>
       id_seq ← vocab_i !! i;
       for_loop (length id_seq) 0
         (fun j (arr : ndarray) =>
            x ← id_seq !! j;
            set2 arr i j x)
         arr)
    (np_full n m PAD_ID).

End Marshal.

(** What the claim says of the array read back: row [i] starts with the
    first [lengths[i]] cells of the original row and continues with
    [PAD] up to the common width. *)
Definition padded_copy (PAD_ID : Z) (arr : ndarray) (lengths : list Z) (out : ndarray) : Prop :=
  wf_array out /\
  shape0 out = shape0 arr /\
  (forall i len, lengths !! i = Some len -> (len <= Z.of_nat (shape1 out))%Z) /\
  forall i row len, cells arr !! i = Some row -> lengths !! i = Some len ->
    exists row', cells out !! i = Some row' /\
      forall j, j < shape1 out ->
        row' !! j = if decide (Z.of_nat j < len)%Z then row !! j else Some PAD_ID.

(** ** The Python wrappers of the driver

    The wrapper classes hold a pointer to a C++ object.  The C++ classes
    they wrap are the ones of [TreeNode.h] and [TreeNode.cpp], with the
    members the Cython declarations give them. *)

Module Driver.

Inductive py_exn : Type :=
  | ValueError (msg : string)
  | OverflowError.

(** How a call ends: with a value, with a Python exception handed to the
    caller, or outside defined behaviour. *)
Inductive outcome (A : Type) : Type :=
  | Returned (a : A)
  | Raised (e : py_exn)
  | Undefined.
Arguments Returned {A} a.
Arguments Raised {A} e.
Arguments Undefined {A}.

Definition Edge : Type := (addr * float)%type.

Record TreeNode : Type := mkTreeNode {
  vocab_i : list (list Z);
  end_node : ptr;
  dist_to_end : Z;
  done : bool;
  edges : gmap Z Edge
}.

Record Action : Type := mkAction {
  action_id : Z;
  before_id : Z;
  after_id : Z
}.

(** Modelled from the spec: the class [ActionSpace] of [Action.cpp] is
    not among the sources; its actions are registered one after the
    other, and an action id lies in "[0, action_space.size())". *)
Record ActionSpace : Type := mkActionSpace {
  actions : list Action
}.

(** The C++ objects the wrappers point to. *)
Record World : Type := mkWorld {
  spaces : gmap addr ActionSpace;
  tnodes : gmap addr TreeNode
}.

Record PyActionSpace : Type := mkPyActionSpace { as_ptr : addr }.
Record PyTreeNode : Type := mkPyTreeNode { tn_ptr : addr }.
Record PyAction : Type := mkPyAction { a_ptr : addr * nat }.

Definition has_acted (t : TreeNode) (action_id : Z) : bool :=
  bool_decide (is_Some (edges t !! action_id)).

(** Whether a Python integer converts to a C [long] argument. *)
Definition fits_long (z : Z) : bool :=
  bool_decide (- 2 ^ 63 <= z < 2 ^ 63)%Z.

(** [PyActionSpace.__len__]. *)
Definition py_len (s : ActionSpace) : Z := Z.of_nat (length (actions s)).

(** [PyActionSpace.get_action(action_id)]: the action wrapped is referred
    to by its space and its position. *)
Definition get_action (self : PyActionSpace) (id : Z) (w : World)
    : outcome PyAction * World :=
  if fits_long id then
    match spaces w !! as_ptr self with
    | None => (Undefined, w)
    | Some s =>
        if (py_len s <=? id)%Z || (id <? 0)%Z
        then (Raised (ValueError "Action id out of bound."), w)
        else
          match actions s !! Z.to_nat id with
          | Some _ => (Returned (mkPyAction (as_ptr self, Z.to_nat id)), w)
          | None => (Undefined, w)
          end
    end
  else (Raised OverflowError, w).

(** [get_py_edge]: the wrapped next node, [node.done] and the reward. *)
Definition get_py_edge (t : TreeNode) (edge : Edge) : PyTreeNode * bool * float :=
  (mkPyTreeNode (fst edge), done t, snd edge).

(** [PyTreeNode.get_edge(action_id)]. *)
Definition get_edge (self : PyTreeNode) (id : Z) (w : World)
    : outcome (PyTreeNode * bool * float) * World :=
  if fits_long id then
    match tnodes w !! tn_ptr self with
    | None => (Undefined, w)
    | Some t =>
        if has_acted t id then
          match edges t !! id with
          | Some edge => (Returned (get_py_edge t edge), w)
          | None => (Undefined, w)
          end
        else
          (Raised (ValueError ("Action " +:+ pretty id +:+ " has not been explored.")), w)
    end
  else (Raised OverflowError, w).

(** A world with one action space of two actions and one tree node that
    has acted with action 0 only. *)
Definition sample_world : World :=
  mkWorld
    {[ 0 := mkActionSpace [mkAction 0 3 4; mkAction 1 4 5] ]}
    {[ 0 := mkTreeNode [[3; 4]%Z] None 1 false {[ 0%Z := (1, fzero) ]};
       1 := mkTreeNode [[4; 4]%Z] None 0 true ∅ ]}.

End Driver.

(** * The rest of the node routines

    The routines of the sources that the node statistics, the node graph,
    the priors and the driver are completed with: playing, the accessors,
    disconnecting, the action table of a node, the evaluation of mini
    nodes, the older tree node and the remaining marshalling code. *)

(** ** Playing and the recorded maximum *)

(** [BaseNode::play_mini]: the child at [max_index] and the pair chosen.
    [max_index] is an [int] and is converted to a [size_t] index, so a
    negative value indexes beyond every vector. *)
Definition play_mini (n : BaseNode) : option (ptr * ChosenChar) :=
  if (max_index n =? -1)%Z then None
  else if (max_index n <? 0)%Z then None
  else
    let index := Z.to_nat (max_index n) in
    child ← children n !! index;
    c ← permissible_chars n !! index;
    Some (child, (max_index n, c)).

(** A call of [virtual_select] or of [update_stats] on one node, and a
    sequence of such calls. *)
Inductive stat_call : Type :=
  | Select (index : nat) (game_count : Z) (virtual_loss : float)
  | Backup (index : nat) (new_value : float) (game_count : Z) (virtual_loss : float).

Definition run_stat (visit_bits : Z) (c : stat_call) (n : BaseNode) : option BaseNode :=
  match c with
  | Select index game_count virtual_loss =>
      virtual_select visit_bits index game_count virtual_loss n
  | Backup index new_value game_count virtual_loss =>
      update_stats visit_bits index new_value game_count virtual_loss n
  end.

Fixpoint run_stats (visit_bits : Z) (cs : list stat_call) (n : BaseNode) : option BaseNode :=
  match cs with
  | [] => Some n
  | c :: cs' => n1 ← run_stat visit_bits c n; run_stats visit_bits cs' n1
  end.

(** The values handed to the backups of a sequence, in order. *)
Definition backed_value (c : stat_call) : option float :=
  match c with
  | Select _ _ _ => None
  | Backup _ new_value _ _ => Some new_value
  end.
Definition backed_up (cs : list stat_call) : list float := omap backed_value cs.

(** [max_value] is no NaN and is below no entry of [max_values]; and
    either nothing has been recorded ([max_index == -1], [max_value] at
    its initial [-9999.9]) or [max_index] is the slot that holds
    [max_value], which is above [-9999.9]. *)
Definition max_tracked (n : BaseNode) : Prop :=
  is_nan (max_value n) = false /\
  (forall j x, max_values n !! j = Some x ->
     is_nan x = false /\ flt (max_value n) x = false) /\
  ((max_index n = (-1)%Z /\ max_value n = f_neg_9999_9) \/
   ((0 <= max_index n)%Z /\
    max_values n !! Z.to_nat (max_index n) = Some (max_value n) /\
    flt f_neg_9999_9 (max_value n) = true)).

(** The sum of the per-action visit counts. *)
Definition count_sum (l : list Z) : Z := foldr Z.add 0%Z l.

(** ** Children, and undoing edges *)

Definition has_child (index : nat) (n : BaseNode) : option bool :=
  if decide (index < length (children n)) then
    child ← children n !! index;
    Some (bool_decide (child <> None))
  else None.

(** The child at the index, [nullptr] included. *)
Definition get_child (index : nat) (n : BaseNode) : option ptr :=
  if decide (index < length (children n)) then children n !! index else None.

(** [std::find] on a vector: the first position holding [x], [None] for
    the end iterator. *)
Fixpoint std_find {A : Type} `{EqDecision A} (x : A) (l : list A) : option nat :=
  match l with
  | [] => None
  | y :: l' => if decide (y = x) then Some 0 else S <$> std_find x l'
  end.

(** One pass of the loop of [disconnect_from_parents]: the child slot
    of the [i]-th parent entry is nulled. *)
Definition disconnect_parent (this : addr) (i : nat) (h : gmap addr BaseNode)
    : option (gmap addr BaseNode) :=
  n ← h !! this;
  parent ← parents n !! i;
  index ← parent_indices n !! i;
  pn ← h !! parent;
  if decide (index < length (children pn)) then
    Some (<[parent := set_children (<[index := None]> (children pn)) pn]> h)
  else None.

(** [disconnect_from_parents]: the loop leaves [parents] alone, so its
    bound is the length on entry; the two vectors are cleared afterwards. *)
Definition disconnect_from_parents (this : addr) (h : gmap addr BaseNode)
    : option (gmap addr BaseNode) :=
  n0 ← h !! this;
  h1 ← for_loop (length (parents n0)) 0 (disconnect_parent this) h;
  n1 ← h1 !! this;
  let h2 := <[this := set_parents [] n1]> h1 in
  n2 ← h2 !! this;
  Some (<[this := set_parent_indices [] n2]> h2).

(** One pass of the loop of [disconnect_from_children]: when the [i]-th
    child is set, the first entry of its [parents] that is this node is
    erased, with the entry of [parent_indices] at the same position, and
    the slot is nulled. *)
Definition disconnect_child (this : addr) (i : nat) (h : gmap addr BaseNode)
    : option (gmap addr BaseNode) :=
  n ← h !! this;
  child ← children n !! i;
  match child with
  | None => Some h
  | Some ca =>
      cn ← h !! ca;
      index ← std_find this (parents cn);
      let h1 := <[ca := set_parents (delete index (parents cn)) cn]> h in
      cn1 ← h1 !! ca;
      if decide (index < length (parent_indices cn1)) then
        let h2 := <[ca := set_parent_indices (delete index (parent_indices cn1)) cn1]> h1 in
        n2 ← h2 !! this;
        Some (<[this := set_children (<[i := None]> (children n2)) n2]> h2)
      else None
  end.

(** [disconnect_from_children]: the loop keeps the length of [children],
    so its bound is the length on entry. *)
Definition disconnect_from_children (this : addr) (h : gmap addr BaseNode)
    : option (gmap addr BaseNode) :=
  n0 ← h !! this;
  for_loop (length (children n0)) 0 (disconnect_child this) h.

(** The body of [BaseNode::~BaseNode]. *)
Definition BaseNode_destroy (this : addr) (h : gmap addr BaseNode)
    : option (gmap addr BaseNode) :=
  h1 ← disconnect_from_parents this h;
  disconnect_from_children this h1.

(** The parent entries of a node: the pairs of [parents] and
    [parent_indices] at equal positions. *)
Definition parent_entries (n : BaseNode) : list (addr * nat) :=
  zip (parents n) (parent_indices n).

(** The two directions of the edges agree: [parents] and
    [parent_indices] are equally long; every parent entry [(p, pi)] of a
    node [a] is mirrored by slot [pi] of [p] holding [a]; every child slot
    that is set is mirrored by a parent entry of the child; and no parent
    entry occurs twice. *)
Definition links_consistent (h : gmap addr BaseNode) : Prop :=
  (forall a n, h !! a = Some n -> length (parents n) = length (parent_indices n)) /\
  (forall a n p pi, h !! a = Some n -> (p, pi) ∈ parent_entries n ->
     exists pn, h !! p = Some pn /\ children pn !! pi = Some (Some a)) /\
  (forall p pn pi a, h !! p = Some pn -> children pn !! pi = Some (Some a) ->
     exists n, h !! a = Some n /\ (p, pi) ∈ parent_entries n) /\
  (forall a n, h !! a = Some n -> NoDup (parent_entries n)).

(** No node of the heap refers to [this], and [this] refers to none. *)
Definition isolated (this : addr) (h : gmap addr BaseNode) : Prop :=
  (exists n, h !! this = Some n /\ parents n = [] /\ parent_indices n = [] /\
     forall j c, children n !! j = Some c -> c = None) /\
  (forall a n, h !! a = Some n ->
     (this ∉ parents n) /\ (Some this ∉ children n)).

(** [n'] differs from [n] in its links at most. *)
Definition same_but_links (n n' : BaseNode) : Prop :=
  n' = set_children (children n')
         (set_parent_indices (parent_indices n') (set_parents (parents n') n)).

(** A node once the references to [this] are taken out of it: out of
    its child slots, or out of its parent entries. *)
Definition clear_child (this : addr) (c : ptr) : ptr :=
  if decide (c = Some this) then None else c.
Definition without_child (this : addr) (n : BaseNode) : BaseNode :=
  set_children (clear_child this <$> children n) n.
Definition without_parent (this : addr) (n : BaseNode) : BaseNode :=
  let es := filter (fun e => fst e <> this) (parent_entries n) in
  set_parent_indices (es.*2) (set_parents (es.*1) n).

(** A node with no parents and with every child slot null. *)
Definition unlinked (n : BaseNode) : BaseNode :=
  set_children (replicate (length (children n)) None)
    (set_parent_indices [] (set_parents [] n)).

(** The node at [a] once [this] has been destroyed. *)
Definition after_destroy (this a : addr) (n : BaseNode) : BaseNode :=
  if decide (a = this) then unlinked n
  else without_parent this (without_child this n).

(** ** The action table of a node *)

(** How a C++ call with a [throw] ends: with a value, or with the
    exception and its message. *)
Inductive cpp_result (A : Type) : Type :=
  | Ret (a : A)
  | Throw (what : string).
Arguments Ret {A} a.
Arguments Throw {A} what.

Definition get_action_index (action : abc_t) (n : BaseNode) : cpp_result nat :=
  match std_find action (permissible_chars n) with
  | Some i => Ret i
  | None => Throw "Target not found."
  end.

Definition get_action_at (index : nat) (n : BaseNode) : option abc_t :=
  permissible_chars n !! index.
Definition get_affected_at (index : nat) (n : BaseNode) : option Affected :=
  affected n !! index.
Definition get_num_affected_at (index : nat) (n : BaseNode) : option nat :=
  aff ← affected n !! index; Some (length aff).

Definition update_affected_at (index : nat) (order : Z) (pos : nat) (n : BaseNode)
    : option BaseNode :=
  aff ← affected n !! index;
  Some (set_affected (<[index := aff ++ [(order, pos)]]> (affected n)) n).

(** ** Evaluating mini nodes *)

(** [static_cast<int>(ap)]. *)
Definition phase_index (ap : ActionPhase) : nat :=
  match ap with
  | BEFORE => 0 | AFTER => 1 | PRE => 2 | D_PRE => 3 | POST => 4 | SPECIAL_TYPE => 5
  end.

Definition evaluate_actions (actions : list abc_t) (ap : ActionPhase) (t : TreeNode)
    : option (list float) :=
  full_priors ← meta_priors t !! (phase_index ap + 1);
  gather_priors full_priors actions.

Definition evaluate_special_actions (actions : list abc_t) (t : TreeNode)
    : option (list float) :=
  gather_priors (special_priors t) actions.

(** The phase of a mini node; a transition node is built with [POST]. *)
Definition node_phase (n : BaseNode) : option ActionPhase :=
  match kind n with
  | KMini ap => Some ap
  | KTransition => Some POST
  | KTree => None
  end.

(** [MiniNode::evaluate], [base] being the tree node the mini node
    points to. *)
Definition MiniNode_evaluate (base : TreeNode) (n : BaseNode) : option BaseNode :=
  ap ← node_phase n;
  if is_expanded n then
    if is_evaluated n then Some n
    else
      pr ← match ap with
           | SPECIAL_TYPE => evaluate_special_actions (permissible_chars n) base
           | _ => evaluate_actions (permissible_chars n) ap base
           end;
      Some (set_priors pr n)
  else None.

(** ** More marshalling (the Cython driver) *)

(** [np2vector(arr, n)]: a vector of [n] value-initialised entries,
    filled from the first [n] entries of the memoryview; [zero] is the
    value-initialised entry of the fused type ([0.0], [false]). *)
Definition np2vector {A : Type} (zero : A) (arr : list A) (n : Z) : option (list A) :=
  if (n <? 0)%Z then None
  else
    for_loop (Z.to_nat n) 0
      (fun i (vec : list A) => x ← arr !! i; Some (<[i := x]> vec))
      (replicate (Z.to_nat n) zero).

(** The arguments [PyTreeNode.expand] hands to the C++ [expand]: both
    vectors are read with the length of [prior]. *)
Definition expand_args (prior : list float) (action_mask : list bool)
    : option (list float * list bool) :=
  let n := Z.of_nat (length prior) in
  prior_vec ← np2vector fzero prior n;
  action_mask_vec ← np2vector false action_mask n;
  Some (prior_vec, action_mask_vec).

(** ** The older tree node ([TreeNode.h], [TreeNode.cpp]) and its wrapper *)

Module OldTree.

Record TreeNode : Type := mkTreeNode {
  vocab_i : VocabIdSeq;
  end_node : ptr;
  dist_to_end : Z;
  edges : gmap Z ptr
}.

(** [TreeNode(VocabIdSeq)]. *)
Definition TreeNode_new (vocab_i : VocabIdSeq) : TreeNode :=
  mkTreeNode vocab_i None 0 ∅.

Definition add_edge (action_id : Z) (child : ptr) (t : TreeNode) : TreeNode :=
  mkTreeNode (vocab_i t) (end_node t) (dist_to_end t) (<[action_id := child]> (edges t)).

Definition has_acted (action_id : Z) (t : TreeNode) : bool :=
  bool_decide (is_Some (edges t !! action_id)).

Definition TreeNode_size (t : TreeNode) : Z := Z.of_nat (length (vocab_i t)).

Definition is_leaf (t : TreeNode) : bool := bool_decide (size (edges t) = 0).

(** How a call of the wrapper ends: with a value, with a failed [assert]
    and its message, or with another Python exception. *)
Inductive py_outcome (A : Type) : Type :=
  | PyReturn (a : A)
  | PyAssertionError (msg : string)
  | PyRaise.
Arguments PyReturn {A} a.
Arguments PyAssertionError {A} msg.
Arguments PyRaise {A}.

(** [PyTreeNode.__cinit__] without an end node: the pointer the wrapper
    holds afterwards, [None] when it is left to [from_ptr]. *)
Definition PyTreeNode_cinit (arr : option ndarray) (lengths : option (list Z))
    (from_ptr : bool) : py_outcome (option TreeNode) :=
  match arr, lengths with
  | Some arr, Some lengths =>
      let n := shape0 arr in
      if bool_decide (n = length lengths) then
        match np2vocab arr lengths n with
        | Some vocab_i => PyReturn (Some (TreeNode_new vocab_i))
        | None => PyRaise
        end
      else PyAssertionError "`arr` and `lengths` must have the same length."
  | _, _ =>
      if from_ptr then PyReturn None
      else PyAssertionError
             "You must either construct using `from_ptr` or provide `arr` and `lengths` here."
  end.

(** [PyTreeNode.__len__] and [PyTreeNode.__eq__]. *)
Definition PyTreeNode_len (self : TreeNode) : Z := TreeNode_size self.
Definition PyTreeNode_eq (self other : TreeNode) : bool :=
  bool_decide (vocab_i self = vocab_i other).

End OldTree.

(** ** The wrappers of actions, continued *)

Module DriverIter.
Import Driver.

(** [PyActionSpace.__iter__]: the values the generator yields, one call
    of [get_action] for every [i] of [range(len(self))]. *)
Definition iter_actions (self : PyActionSpace) (w : World) : option (list (outcome PyAction)) :=
  s ← spaces w !! as_ptr self;
  Some (map (fun i => fst (get_action self (Z.of_nat i) w)) (seq 0 (length (actions s)))).

End DriverIter.

(** ** The graph helpers of [node.hpp] *)

Module Hpp.

(** A node as [node.hpp] declares it: the members modelled in [BaseNode]
    above, with [in_degree] (a [size_t]), [visited] and [played]. *)
Record Node : Type := mkNode {
  core : BaseNode;
  in_degree : Z;
  visited : bool;
  played : bool
}.

Definition with_core (c : BaseNode) (n : Node) : Node :=
  mkNode c (in_degree n) (visited n) (played n).
Definition set_visited (v : bool) (n : Node) : Node :=
  mkNode (core n) (in_degree n) v (played n).

(** [EdgeBuilder::connect]: the slot is asserted to be free. *)
Definition EdgeBuilder_connect (parent : addr) (index : nat) (child : ptr)
    (h : gmap addr Node) : option (gmap addr Node) :=
  pn ← h !! parent;
  c ← children (core pn) !! index;
  match c with
  | Some _ => None
  | None =>
      let h1 := <[parent := with_core (set_children (<[index := child]> (children (core pn)))
                                         (core pn)) pn]> h in
      ca ← child;
      cn ← h1 !! ca;
      let h2 := <[ca := with_core (set_parents (parents (core cn) ++ [parent]) (core cn)) cn]> h1 in
      cn2 ← h2 !! ca;
      let h3 := <[ca := with_core (set_parent_indices (parent_indices (core cn2) ++ [index])
                                     (core cn2)) cn2]> h2 in
      cn3 ← h3 !! ca;
      Some (<[ca := mkNode (core cn3) ((in_degree cn3 + 1) mod 2 ^ 64)
                      (visited cn3) (played cn3)]> h3)
  end.

(** [Traverser::visit]: the state is the heap and the queue. *)
Definition visit (node : addr) (s : gmap addr Node * list addr)
    : option (gmap addr Node * list addr) :=
  n ← fst s !! node;
  if visited n then Some s
  else Some (<[node := set_visited true n]> (fst s), snd s ++ [node]).

(** The range-for of [bfs] over the children of the selected node. *)
Fixpoint visit_children (cs : list ptr) (s : gmap addr Node * list addr)
    : option (gmap addr Node * list addr) :=
  match cs with
  | [] => Some s
  | c :: cs' =>
      s1 ← match c with
           | Some ca => visit ca s
           | None => Some s
           end;
      visit_children cs' s1
  end.

(** The [while (i < queue.size())] loop of [bfs]; the queue grows while
    it is walked, so the loop is bounded by [fuel]. *)
Fixpoint bfs_loop (fuel i : nat) (s : gmap addr Node * list addr)
    : option (gmap addr Node * list addr) :=
  match fuel with
  | O => None
  | S fuel' =>
      if decide (i < length (snd s)) then
        selected ← snd s !! i;
        n ← fst s !! selected;
        s1 ← visit_children (children (core n)) s;
        bfs_loop fuel' (S i) s1
      else Some s
  end.

(** The closing loop of [bfs]: the flags of the queued nodes are reset. *)
Fixpoint reset_visited (queue : list addr) (h : gmap addr Node) : option (gmap addr Node) :=
  match queue with
  | [] => Some h
  | a :: queue' =>
      n ← h !! a;
      reset_visited queue' (<[a := set_visited false n]> h)
  end.

(** [Traverser::bfs]: the queue returned and the heap left behind. *)
Definition bfs (fuel : nat) (start : addr) (h : gmap addr Node)
    : option (list addr * gmap addr Node) :=
  s0 ← visit start (h, []);
  s1 ← bfs_loop fuel 0 s0;
  h2 ← reset_visited (snd s1) (fst s1);
  Some (snd s1, h2).

(** [c] is a child of [a]. *)
Definition child_of (h : gmap addr Node) (a c : addr) : Prop :=
  exists n, h !! a = Some n /\ Some c ∈ children (core n).

(** Every child pointer leads to an allocated node, and no node is
    flagged as visited. *)
Definition children_closed (h : gmap addr Node) : Prop :=
  forall a c, child_of h a c -> is_Some (h !! c).
Definition unvisited (h : gmap addr Node) : Prop :=
  forall a n, h !! a = Some n -> visited n = false.

(** The heap in which exactly the nodes of [q] are flagged. *)
Definition flagged_in (q : list addr) (h hc : gmap addr Node) : Prop :=
  forall a, hc !! a = (fun n => if decide (a ∈ q) then set_visited true n else n) <$> h !! a.

(** What the loop of [bfs] keeps, with the first [i] queue entries
    expanded. *)
Definition bfs_inv (h : gmap addr Node) (start : addr) (i : nat)
    (s : gmap addr Node * list addr) : Prop :=
  flagged_in (snd s) h (fst s)
  /\ NoDup (snd s)
  /\ snd s !! 0%nat = Some start
  /\ (forall x, x ∈ snd s -> rtc (child_of h) start x)
  /\ (forall j x c, j < i -> snd s !! j = Some x -> child_of h x c -> c ∈ snd s)
  /\ i <= length (snd s).

(** A node of the old layout with the new members at their defaults. *)
Definition fresh_members (c : BaseNode) : Node := mkNode c 0 false false.

End Hpp.

(** * Properties *)

(** ** Machine integers *)

Section MachIntFacts.
Local Open Scope Z_scope.

Lemma wrap_signed_id w z : 0 < w -> in_signed w z -> wrap_signed w z = z.
Proof.
  unfold wrap_signed, in_signed. intros Hw Hz.
  assert (Hp : 2 ^ w = 2 * 2 ^ (w - 1)).
  { replace w with (Z.succ (w - 1)) at 1 by lia. apply Z.pow_succ_r. lia. }
  rewrite Z.mod_small; lia.
Qed.

Lemma wrap_signed_mod w z : 0 < w -> (wrap_signed w z) mod 2 ^ w = z mod 2 ^ w.
Proof.
  intros Hw. unfold wrap_signed.
  assert (H2 : 0 < 2 ^ w) by (apply Z.pow_pos_nonneg; lia).
  assert (Hp : 2 ^ w = 2 * 2 ^ (w - 1)).
  { replace w with (Z.succ (w - 1)) at 1 by lia. apply Z.pow_succ_r. lia. }
  rewrite Zminus_mod, Z.mod_mod by lia.
  rewrite <- Zminus_mod. f_equal. lia.
Qed.

(** Wrapping an intermediate result does not change a wrapped sum. *)
Lemma wrap_signed_sub_l w a b :
  0 < w -> wrap_signed w (wrap_signed w a - b) = wrap_signed w (a - b).
Proof.
  intros Hw. unfold wrap_signed at 1 3.
  f_equal. rewrite <- !Z.add_sub_swap.
  rewrite Zminus_mod, Zplus_mod, (wrap_signed_mod w a Hw).
  rewrite <- Zplus_mod, <- Zminus_mod. reflexivity.
Qed.
End MachIntFacts.

(** ** Floating point *)

Lemma fadd_zero_r x : same_value (fadd x fzero) x.
Proof.
  destruct x as [[|]| | |]; unfold same_value; simpl; auto.
Qed.

(** ** Virtual loss and backup *)

Section StatsFacts.
Local Open Scope Z_scope.

Lemma wrap_int_pred game_count :
  1 <= game_count <= INT_MAX -> wrap_int (game_count - 1) = game_count - 1.
Proof.
  intros H. apply wrap_signed_id; [reflexivity|].
  unfold in_signed, int_bits, INT_MAX in *. lia.
Qed.

(** The counter of a matched select/backup pair: the inflation by
    [game_count] and the deflation by [game_count - 1] leave one visit,
    whatever the intermediate wrap-around. *)
Lemma wrap_visit_pair w c game_count :
  0 < w -> 1 <= game_count <= INT_MAX -> in_signed w (c + 1) ->
  wrap_visit w (wrap_visit w (c + game_count) - wrap_int (game_count - 1)) = c + 1.
Proof.
  intros Hw Hg Hc. rewrite wrap_int_pred by assumption.
  unfold wrap_visit. rewrite wrap_signed_sub_l by assumption.
  replace (c + game_count - (game_count - 1)) with (c + 1) by lia.
  apply wrap_signed_id; assumption.
Qed.

Lemma virtual_select_update_stats w n index game_count virtual_loss new_value ac tv mv :
  0 < w ->
  action_counts n !! index = Some ac ->
  total_values n !! index = Some tv ->
  max_values n !! index = Some mv ->
  1 <= game_count <= INT_MAX ->
  0 <= ac -> in_signed w (ac + 1) -> in_signed w (visit_count n + 1) ->
  exists n1,
    virtual_select w index game_count virtual_loss n = Some n1 /\
  exists n2,
    update_stats w index new_value game_count virtual_loss n1 = Some n2 /\
    action_counts n2 = <[index := ac + 1]> (action_counts n) /\
    visit_count n2 = visit_count n + 1 /\
    total_values n2 =
      <[index := pair_total tv game_count virtual_loss new_value]> (total_values n).
Proof.
  intros Hw Hac Htv Hmv Hg Hac0 Hac1 Hvc.
  pose proof (lookup_lt_Some _ _ _ Hac) as Lac.
  pose proof (lookup_lt_Some _ _ _ Htv) as Ltv.
  pose proof (lookup_lt_Some _ _ _ Hmv) as Lmv.
  unfold virtual_select. rewrite Hac. simpl. rewrite Htv. simpl.
  eexists. split; [reflexivity|].
  unfold update_stats. simpl.
  rewrite list_lookup_insert_eq by assumption. simpl.
  rewrite wrap_visit_pair by assumption.
  destruct (Z.ltb_spec (ac + 1) 1) as [Hlt|_]; [lia|].
  rewrite list_insert_insert_eq.
  destruct (flt (max_value n) new_value); simpl; rewrite Hmv; simpl;
    destruct (flt mv new_value); simpl;
    rewrite list_lookup_insert_eq by assumption; simpl;
    rewrite list_insert_insert_eq, wrap_visit_pair by assumption;
    (eexists; split; [reflexivity|]); simpl; auto.
Qed.

End StatsFacts.

Section RoundTrip.
Local Open Scope Z_scope.

(** C1 (as the code has it).  A matched [virtual_select] / [update_stats]
    pair at a valid child index, with [game_count >= 1] and a
    non-negative counter whose successor is representable, succeeds and
    leaves [action_counts[index]] and [visit_count] increased by exactly
    one; [total_values[index]] becomes [(w - g*vl) + (g*vl + V)] computed
    in [float] arithmetic, which is [w + V] up to rounding. *)
Theorem matched_select_backup w n index game_count virtual_loss new_value ac tv mv :
  0 < w ->
  action_counts n !! index = Some ac ->
  total_values n !! index = Some tv ->
  max_values n !! index = Some mv ->
  1 <= game_count <= INT_MAX ->
  0 <= ac -> in_signed w (ac + 1) -> in_signed w (visit_count n + 1) ->
  exists n2,
    select_then_backup w index game_count virtual_loss new_value n = Some n2 /\
    action_counts n2 !! index = Some (ac + 1) /\
    visit_count n2 = visit_count n + 1 /\
    total_values n2 !! index = Some (pair_total tv game_count virtual_loss new_value).
Proof.
  intros Hw Hac Htv Hmv Hg Hac0 Hac1 Hvc.
  destruct (virtual_select_update_stats w n index game_count virtual_loss new_value
              ac tv mv Hw Hac Htv Hmv Hg Hac0 Hac1 Hvc)
    as (n1 & Hsel & n2 & Hupd & Hc & Hv & Ht).
  exists n2. unfold select_then_backup. rewrite Hsel. simpl.
  repeat split; [exact Hupd| |exact Hv|].
  - rewrite Hc. apply list_lookup_insert_eq. eapply lookup_lt_Some; eassumption.
  - rewrite Ht. apply list_lookup_insert_eq. eapply lookup_lt_Some; eassumption.
Qed.

Lemma matched_select_backup_witness :
  exists n2,
    select_then_backup 32 0 3 f_0_5 f_2_0 (fresh_one_action KTree false true 7%nat []) = Some n2 /\
    action_counts n2 !! 0%nat = Some (0 + 1) /\
    visit_count n2 = 0 + 1 /\
    total_values n2 !! 0%nat = Some (pair_total fzero 3 f_0_5 f_2_0).
Proof.
  apply (matched_select_backup 32 (fresh_one_action KTree false true 7%nat []) 0
           3 f_0_5 f_2_0 0 fzero f_neg_9999_9);
    try reflexivity; unfold in_signed, INT_MAX; simpl; lia.
Defined.

(** C1 (as stated) fails on the value slot: with [game_count = 1],
    [virtual_loss = 1.0] and [V = 2^-100], the sum [1.0 + V] rounds to
    [1.0], so the slot is back at [0.0] although [V] is not zero. *)
Lemma matched_select_backup_not_exact :
  exists n2,
    select_then_backup 32 0 1 f_1_0 f_2_pow_neg_100
      (fresh_one_action KTree false true 7%nat []) = Some n2 /\
    total_values (fresh_one_action KTree false true 7%nat []) !! 0%nat = Some fzero /\
    total_values n2 !! 0%nat = Some fzero /\
    fadd fzero f_2_pow_neg_100 = f_2_pow_neg_100 /\
    Some fzero <> Some (fadd fzero f_2_pow_neg_100) /\
    flt fzero f_2_pow_neg_100 = true.
Proof.
  eexists. vm_compute. repeat split; try reflexivity. discriminate.
Qed.

(** The same at everyday magnitudes, in binary32 arithmetic: with
    [game_count = 4], [virtual_loss = 0.5] and [V = 0.01] the slot ends
    ten units in the last place below [V]. *)
Example matched_select_backup_rounds :
  pair_total fzero 4 f_0_5 f_0_01 = S754_finite false 10737408 (-30) /\
  fadd fzero f_0_01 = S754_finite false 10737418 (-30).
Proof. split; vm_compute; reflexivity. Qed.

(** C2 (as the code has it).  Scenario S3: from a fresh one-action node,
    [virtual_select(0, 3, 0.5)] then [update_stats(0, 2.0, 3, 0.5)] gives
    [action_counts[0] = 1], [visit_count = 1], [max_value = 2.0],
    [max_index = 0], and [total_values[0] = 2.0]: the virtual loss is
    taken back, not kept. *)
Theorem scenario_round_trip w k st pe c aff :
  1 < w ->
  exists n2,
    select_then_backup w 0 3 f_0_5 f_2_0 (fresh_one_action k st pe c aff) = Some n2 /\
    action_counts n2 = [1] /\
    visit_count n2 = 1 /\
    total_values n2 = [f_2_0] /\
    max_value n2 = f_2_0 /\
    max_index n2 = 0.
Proof.
  intros Hw.
  assert (Hr : in_signed w 1).
  { unfold in_signed. assert (2 ^ 1 <= 2 ^ (w - 1)) by (apply Z.pow_le_mono_r; lia).
    change (2 ^ 1) with 2 in H. lia. }
  assert (Hp : wrap_visit w (wrap_visit w (0 + 3) - wrap_int (3 - 1)) = 1).
  { apply (wrap_visit_pair w 0 3); unfold INT_MAX; simpl; try lia. exact Hr. }
  unfold select_then_backup, virtual_select, fresh_one_action. simpl.
  unfold update_stats. simpl. simpl in Hp. rewrite Hp. simpl.
  eexists. split; [reflexivity|]. simpl. repeat split; vm_compute; reflexivity.
Qed.

Lemma scenario_round_trip_witness :
  exists n2,
    select_then_backup 32 0 3 f_0_5 f_2_0 (fresh_one_action KTree false true 7%nat []) = Some n2 /\
    action_counts n2 = [1] /\
    visit_count n2 = 1 /\
    total_values n2 = [f_2_0] /\
    max_value n2 = f_2_0 /\
    max_index n2 = 0.
Proof.
  apply (scenario_round_trip 32 KTree false true 7%nat []). lia.
Defined.

(** C2 (as stated) fails: the scenario does not end with
    [total_values[0] = 3.5]. *)
Lemma scenario_total_is_not_3_5 :
  exists n2,
    select_then_backup 32 0 3 f_0_5 f_2_0 (fresh_one_action KTree false true 7%nat []) = Some n2 /\
    total_values n2 !! 0%nat = Some f_2_0 /\
    total_values n2 !! 0%nat <> Some f_3_5.
Proof.
  eexists. vm_compute. repeat split; try reflexivity. discriminate.
Qed.

End RoundTrip.

(** ** The order of floats *)

Section FloatOrderFacts.
Local Open Scope Z_scope.

Lemma pos_compare_cont_Eq m1 m2 : Pos.compare_cont Eq m1 m2 = (Zpos m1 ?= Zpos m2).
Proof. reflexivity. Qed.

Lemma flt_key_lt x y :
  is_nan x = false -> is_nan y = false ->
  (flt x y = true <-> key_lt (order_key x) (order_key y)).
Proof.
  intros Hx Hy. unfold flt, SFltb.
  destruct x as [sx|sx| |sx mx ex], y as [sy|sy| |sy my ey];
    try discriminate; try destruct sx; try destruct sy;
    simpl; try (split; [discriminate|lia]); try (split; [lia|reflexivity]).
  - (* both negative *)
    rewrite pos_compare_cont_Eq.
    destruct (Z.compare_spec ex ey) as [He|He|He];
      [destruct (Z.compare_spec (Zpos mx) (Zpos my)) as [Hm|Hm|Hm]| |];
      simpl; split; try discriminate; try reflexivity; lia.
  - (* both positive *)
    rewrite pos_compare_cont_Eq.
    destruct (Z.compare_spec ex ey) as [He|He|He];
      [destruct (Z.compare_spec (Zpos mx) (Zpos my)) as [Hm|Hm|Hm]| |];
      simpl; split; try discriminate; try reflexivity; lia.
Qed.

Lemma key_lt_total_trans k1 k2 k3 :
  ~ key_lt k2 k1 -> key_lt k2 k3 -> key_lt k1 k3.
Proof.
  destruct k1 as [[a1 b1] c1], k2 as [[a2 b2] c2], k3 as [[a3 b3] c3].
  unfold key_lt. lia.
Qed.

Lemma key_lt_asym k1 k2 : key_lt k1 k2 -> ~ key_lt k2 k1.
Proof.
  destruct k1 as [[a1 b1] c1], k2 as [[a2 b2] c2]. unfold key_lt. lia.
Qed.

(** [a <= b < c] gives [a < c]. *)
Lemma flt_le_lt_trans a b c :
  is_nan a = false -> is_nan b = false -> is_nan c = false ->
  flt b a = false -> flt b c = true -> flt a c = true.
Proof.
  intros Ha Hb Hc Hba Hbc.
  apply flt_key_lt; try assumption.
  apply key_lt_total_trans with (order_key b).
  - intros Hk. apply flt_key_lt in Hk; try assumption. congruence.
  - apply flt_key_lt; assumption.
Qed.

Lemma flt_asym a c :
  is_nan a = false -> is_nan c = false -> flt a c = true -> flt c a = false.
Proof.
  intros Ha Hc Hac. destruct (flt c a) eqn:E; [|reflexivity].
  apply flt_key_lt in E; try assumption.
  apply flt_key_lt in Hac; try assumption.
  exfalso. eapply key_lt_asym; eassumption.
Qed.

Lemma flt_irrefl a : flt a a = false.
Proof.
  destruct (is_nan a) eqn:Ha.
  - destruct a; try discriminate. reflexivity.
  - destruct (flt a a) eqn:E; [|reflexivity].
    exfalso. apply (key_lt_asym (order_key a) (order_key a)); apply flt_key_lt; assumption.
Qed.

End FloatOrderFacts.

(** ** Scoring *)

Section ScoreFacts.
Variable RAND_MAX : Z.
Variable rand : nat -> Z.

Lemma no_nan_lookup l j x : no_nan l -> l !! j = Some x -> is_nan x = false.
Proof.
  intros H Hj. unfold no_nan in H. rewrite Forall_forall in H.
  apply H. eapply list_elem_of_lookup_2. eassumption.
Qed.

Lemma max_element_from_first_max rest : forall pre largest lv,
  no_nan (pre ++ rest) ->
  pre !! largest = Some lv ->
  (forall j x, pre !! j = Some x -> flt lv x = false) ->
  (forall j x, j < largest -> pre !! j = Some x -> flt x lv = true) ->
  is_first_max (pre ++ rest) (max_element_from largest lv (length pre) rest).
Proof.
  induction rest as [|x rest IH]; intros pre largest lv Hnn Hl Hmax Hfirst.
  - simpl. rewrite app_nil_r. exists lv. auto.
  - assert (Hx : is_nan x = false).
    { eapply no_nan_lookup; [exact Hnn|]. apply list_lookup_middle. reflexivity. }
    assert (Hlv : is_nan lv = false).
    { eapply no_nan_lookup; [exact Hnn|]. apply lookup_app_l_Some. exact Hl. }
    assert (Hpre : forall j y, pre !! j = Some y -> is_nan y = false).
    { intros j y Hj. eapply no_nan_lookup; [exact Hnn|]. apply lookup_app_l_Some. exact Hj. }
    assert (Hll : largest < length pre) by (eapply lookup_lt_Some; eassumption).
    simpl. replace (pre ++ x :: rest) with ((pre ++ [x]) ++ rest) in *
      by (rewrite <- app_assoc; reflexivity).
    replace (S (length pre)) with (length (pre ++ [x]))
      by (rewrite length_app; simpl; lia).
    destruct (flt lv x) eqn:E.
    + assert (Hlt : forall j y, pre !! j = Some y -> flt y x = true).
      { intros j y Hj. apply flt_le_lt_trans with lv; eauto. }
      replace (length pre) with (length pre + 0) at 1 by lia.
      apply IH; try assumption.
      * rewrite lookup_app_r by lia.
        replace (length pre + 0 - length pre) with 0 by lia. reflexivity.
      * intros j y Hj. apply lookup_app_Some in Hj as [Hj|[Hge Hj]].
        -- apply flt_asym; eauto.
        -- destruct (j - length pre) as [|d] eqn:Ed; simpl in Hj; [|discriminate].
           injection Hj as <-. apply flt_irrefl.
      * intros j y Hj Hy. apply lookup_app_Some in Hy as [Hy|[Hge Hy]]; [eauto|lia].
    + apply IH; try assumption.
      * apply lookup_app_l_Some. exact Hl.
      * intros j y Hj. apply lookup_app_Some in Hj as [Hj|[Hge Hj]]; [eauto|].
        destruct (j - length pre) as [|d] eqn:Ed; simpl in Hj; [|discriminate].
        injection Hj as <-. exact E.
      * intros j y Hj Hy. apply lookup_app_Some in Hy as [Hy|[Hge Hy]]; [eauto|lia].
Qed.

Lemma max_element_first_max l :
  l <> [] -> no_nan l -> is_first_max l (max_element l).
Proof.
  destruct l as [|x rest]; [congruence|]. intros _ Hnn. simpl.
  apply (max_element_from_first_max rest [x] 0 x); try assumption.
  - reflexivity.
  - intros [|j] y Hj; simpl in Hj; [|discriminate]. injection Hj as <-. apply flt_irrefl.
  - intros j y Hj. lia.
Qed.

Lemma max_element_from_lt rest : forall largest lv i,
  largest < i -> max_element_from largest lv i rest < i + length rest.
Proof.
  induction rest as [|x rest IH]; intros largest lv i Hl; simpl; [lia|].
  destruct (flt lv x).
  - specialize (IH i x (S i)). lia.
  - specialize (IH largest lv (S i)). lia.
Qed.

Lemma max_element_lt l : l <> [] -> max_element l < length l.
Proof.
  destruct l as [|x rest]; [congruence|]. intros _. simpl.
  pose proof (max_element_from_lt rest 0 x 1). lia.
Qed.

Lemma get_scores_loop_spec puct_c heur_c add_noise n k : forall i scores,
  (forall j, i <= j < i + k -> is_Some (score_at RAND_MAX rand puct_c heur_c add_noise n j)) ->
  i + k <= length scores ->
  exists out,
    get_scores_loop RAND_MAX rand puct_c heur_c add_noise n k i scores = Some out /\
    length out = length scores /\
    (forall j, i <= j < i + k ->
       out !! j = score_at RAND_MAX rand puct_c heur_c add_noise n j) /\
    (forall j, j < i -> out !! j = scores !! j).
Proof.
  induction k as [|k IH]; intros i scores Hs Hlen; simpl.
  - exists scores. repeat split; auto. intros j Hj. lia.
  - destruct (Hs i ltac:(lia)) as [s Hsi]. rewrite Hsi. simpl.
    destruct (IH (S i) (<[i := s]> scores)) as (out & Hout & Hl & Hin & Hbelow).
    + intros j Hj. apply Hs. lia.
    + rewrite length_insert. lia.
    + exists out. rewrite length_insert in Hl. repeat split; auto.
      * intros j Hj. destruct (decide (j = i)) as [->|Hne].
        -- rewrite Hbelow by lia. rewrite Hsi. apply list_lookup_insert_eq. lia.
        -- apply Hin. lia.
      * intros j Hj. rewrite Hbelow by lia. apply list_lookup_insert_ne. lia.
Qed.

End ScoreFacts.

Section BestAction.
Variable RAND_MAX : Z.
Variable rand : nat -> Z.

Lemma score_at_no_noise puct_c heur_c n i pr tv ac p aff mv :
  pruned n !! i = Some pr -> total_values n !! i = Some tv ->
  action_counts n !! i = Some ac -> priors n !! i = Some p ->
  affected n !! i = Some aff -> max_values n !! i = Some mv ->
  score_at RAND_MAX rand puct_c heur_c false n i =
    Some (code_score puct_c heur_c (visit_count n) pr tv ac p (length aff)).
Proof.
  intros Hpr Htv Hac Hp Haff Hmv. unfold score_at, code_score.
  rewrite Hac, Htv, Hmv, Hp, Haff, Hpr. simpl. destruct pr; reflexivity.
Qed.

Lemma code_score_same_value puct_c heur_c vc pr tv ac p a :
  same_value (code_score puct_c heur_c vc pr tv ac p a)
             (spec_score puct_c heur_c vc pr tv ac p a).
Proof.
  unfold code_score, spec_score, spec_q, spec_u, spec_h, q_term, u_term, h_term, q_divisor.
  destruct pr; [left; reflexivity|apply fadd_zero_r].
Qed.

(** For numbers, [y < x] being false means [x <= y]. *)
Lemma fle_of_not_flt x y :
  is_nan x = false -> is_nan y = false -> flt y x = false -> fle x y = true.
Proof.
  intros Hx Hy. unfold flt, fle, SFltb, SFleb.
  destruct x as [sx|sx| |sx mx ex], y as [sy|sy| |sy my ey];
    try discriminate; try destruct sx; try destruct sy;
    simpl; intros H; try reflexivity; try discriminate H.
  all: rewrite ?pos_compare_cont_Eq in *.
  all: rewrite (Z.compare_antisym ey ex), (Z.compare_antisym (Zpos my) (Zpos mx)).
  all: destruct (ey ?= ex)%Z; simpl in *; try reflexivity; try discriminate H.
  all: destruct (my ?= mx)%positive; simpl in *; try reflexivity; try discriminate H.
Qed.

Lemma first_max_holds_maximum scores idx :
  no_nan scores -> is_first_max scores idx -> holds_maximum scores idx.
Proof.
  intros Hnn (y & Hy & Hmax & _). exists y. split; [exact Hy|].
  intros j x Hx. apply fle_of_not_flt.
  - eapply no_nan_lookup; eassumption.
  - eapply no_nan_lookup; eassumption.
  - eapply Hmax. exact Hx.
Qed.

Lemma get_scores_no_noise puct_c heur_c n :
  stopped n && is_tree_node n = false ->
  arrays_agree n ->
  exists scores,
    get_scores RAND_MAX rand puct_c heur_c false n = Some scores /\
    length scores = length (priors n) /\
    forall i pr tv ac p aff,
      pruned n !! i = Some pr -> total_values n !! i = Some tv ->
      action_counts n !! i = Some ac -> priors n !! i = Some p ->
      affected n !! i = Some aff ->
      scores !! i = Some (code_score puct_c heur_c (visit_count n) pr tv ac p (length aff)).
Proof.
  intros Hst (Haf & Hpri & Hpru & Hac & Htv & Hmv).
  unfold get_scores. rewrite Hst.
  rewrite bool_decide_eq_true_2 by congruence.
  destruct (get_scores_loop_spec RAND_MAX rand puct_c heur_c false n
              (length (priors n)) 0 (replicate (length (priors n)) fzero))
    as (out & Hout & Hlen & Hin & _).
  - intros j Hj.
    destruct (lookup_lt_is_Some_2 (pruned n) j ltac:(lia)) as [pr Hpr'].
    destruct (lookup_lt_is_Some_2 (total_values n) j ltac:(lia)) as [tv Htv'].
    destruct (lookup_lt_is_Some_2 (action_counts n) j ltac:(lia)) as [ac Hac'].
    destruct (lookup_lt_is_Some_2 (priors n) j ltac:(lia)) as [p Hp'].
    destruct (lookup_lt_is_Some_2 (affected n) j ltac:(lia)) as [aff Haff'].
    destruct (lookup_lt_is_Some_2 (max_values n) j ltac:(lia)) as [mv Hmv'].
    erewrite score_at_no_noise by eassumption. eauto.
  - rewrite length_replicate. lia.
  - exists out. rewrite length_replicate in Hlen. repeat split; auto.
    intros i pr tv ac p aff Hpr' Htv' Hac' Hp' Haff'.
    pose proof (lookup_lt_Some _ _ _ Hp') as Hi.
    destruct (lookup_lt_is_Some_2 (max_values n) i ltac:(lia)) as [mv Hmv'].
    rewrite Hin by lia. eapply score_at_no_noise; eassumption.
Qed.

(** C3.  On an expanded and evaluated node whose per-child vectors agree
    in length, [get_scores] without noise stores for every child [i]
    the value [-9999.9] when [pruned[i]] and otherwise the value of the
    specification's [q + u + h] (the code adds a noise of zero to it);
    [get_best_action] returns an index of the node together with
    [permissible_chars] at that index, and when no score is NaN this is
    the first index holding the largest score: no score is above the one
    it holds, and every score before it is below. *)
Theorem get_scores_get_best_action puct_c heur_c n :
  is_expanded n = true -> is_evaluated n = true ->
  stopped n && is_tree_node n = false ->
  arrays_agree n ->
  (Z.of_nat (length (priors n)) <= INT_MAX)%Z ->
  exists scores,
    get_scores RAND_MAX rand puct_c heur_c false n = Some scores /\
    length scores = length (priors n) /\
    (forall i pr tv ac p aff,
       pruned n !! i = Some pr -> total_values n !! i = Some tv ->
       action_counts n !! i = Some ac -> priors n !! i = Some p ->
       affected n !! i = Some aff ->
       exists s, scores !! i = Some s /\
         s = code_score puct_c heur_c (visit_count n) pr tv ac p (length aff) /\
         same_value s (spec_score puct_c heur_c (visit_count n) pr tv ac p (length aff))) /\
    exists idx c,
      get_best_action RAND_MAX rand puct_c heur_c false n = Some (Z.of_nat idx, c) /\
      permissible_chars n !! idx = Some c /\
      (no_nan scores -> is_first_max scores idx /\ holds_maximum scores idx).
Proof.
  intros Hex Hev Hst Hag Hmax.
  destruct (get_scores_no_noise puct_c heur_c n Hst Hag) as (scores & Hs & Hlen & Hval).
  exists scores. split; [exact Hs|]. split; [exact Hlen|]. split.
  - intros i pr tv ac p aff Hpr Htv Hac Hp Haff.
    eexists. split; [eapply Hval; eassumption|]. split; [reflexivity|].
    apply code_score_same_value.
  - assert (Hne : scores <> []).
    { unfold is_evaluated in Hev. apply bool_decide_eq_true_1 in Hev.
      intros ->. simpl in Hlen. lia. }
    pose proof (max_element_lt scores Hne) as Hlt.
    destruct Hag as (_ & Hpri & _).
    destruct (lookup_lt_is_Some_2 (permissible_chars n) (max_element scores) ltac:(lia))
      as [c Hc].
    exists (max_element scores), c. split; [|split; [exact Hc|]].
    + unfold get_best_action. rewrite Hex, Hev, Hs. simpl.
      assert (Hw : wrap_int (Z.of_nat (max_element scores)) = Z.of_nat (max_element scores)).
      { apply wrap_signed_id; [reflexivity|].
        unfold in_signed, int_bits, INT_MAX in *. lia. }
      rewrite Hw. destruct (Z.ltb_spec (Z.of_nat (max_element scores)) 0) as [Hneg|_]; [lia|].
      rewrite Nat2Z.id, Hc. reflexivity.
    + intros Hnn.
      pose proof (max_element_first_max scores Hne Hnn) as Hfm.
      split; [exact Hfm|]. apply first_max_holds_maximum; assumption.
Qed.

End BestAction.

Lemma get_scores_get_best_action_witness :
  exists scores idx c,
    get_scores 2147483647 (fun _ => 0%Z) f_1_0 fzero false two_action_node = Some scores /\
    get_best_action 2147483647 (fun _ => 0%Z) f_1_0 fzero false two_action_node
      = Some (Z.of_nat idx, c) /\
    is_first_max scores idx /\ holds_maximum scores idx.
Proof.
  destruct (get_scores_get_best_action 2147483647 (fun _ => 0%Z) f_1_0 fzero two_action_node)
    as (scores & Hs & _ & _ & idx & c & Hb & _ & Hfm).
  - reflexivity.
  - reflexivity.
  - reflexivity.
  - repeat split; reflexivity.
  - unfold INT_MAX. simpl. lia.
  - exists scores, idx, c. split; [exact Hs|]. split; [exact Hb|].
    apply Hfm. vm_compute in Hs. injection Hs as <-. repeat constructor.
Defined.

(** C3 (as stated) fails when a score is NaN.  The priors gathered from
    the values [0.0, 1.0, -1.0] are [NaN, +inf, -inf], the divisor of
    [normalize] being zero; after one selection the scores are
    [NaN, +inf, -inf], and because no comparison with NaN holds,
    [std::max_element] stays on index 0: [get_best_action] returns the
    index of the NaN, which does not hold the maximum, and not index 1,
    whose score no number among the scores exceeds. *)
Lemma get_best_action_returns_nan_index :
  exists n,
    nan_prior_node = Some n /\
    is_expanded n = true /\ is_evaluated n = true /\
    stopped n && is_tree_node n = false /\
    arrays_agree n /\
    priors n = [S754_nan; S754_infinity false; S754_infinity true] /\
    get_scores 2147483647 (fun _ => 0%Z) f_1_0 fzero false n
      = Some [S754_nan; S754_infinity false; S754_infinity true] /\
    get_best_action 2147483647 (fun _ => 0%Z) f_1_0 fzero false n = Some (0%Z, 0%nat) /\
    ~ holds_maximum [S754_nan; S754_infinity false; S754_infinity true] 0 /\
    (forall j x, [S754_nan; S754_infinity false; S754_infinity true] !! j = Some x ->
       is_nan x = false -> fle x (S754_infinity false) = true).
Proof.
  destruct nan_prior_node as [n|] eqn:Hn; [|vm_compute in Hn; discriminate Hn].
  exists n. split; [reflexivity|].
  vm_compute in Hn. injection Hn as <-.
  split; [reflexivity|]. split; [reflexivity|]. split; [reflexivity|].
  split; [repeat split; reflexivity|]. split; [reflexivity|].
  split; [vm_compute; reflexivity|]. split; [vm_compute; reflexivity|]. split.
  - intros (y & Hy & Hall). injection Hy as <-.
    specialize (Hall 1%nat (S754_infinity false) eq_refl). discriminate Hall.
  - intros [|[|[|j]]] x Hx Hnan; simpl in Hx; try discriminate Hx;
      injection Hx as <-; [discriminate Hnan|reflexivity|reflexivity].
Qed.

(** The formula at work: with [w = 1], [n = 1], [p = 0.5],
    [visit_count = 4], [a = 4] and both coefficients [1], the terms are
    [1], [0.5] and [1], and the score is [2.5]; the loop of [get_scores]
    stores the same value. *)
Example spec_score_sample :
  spec_score f_1_0 f_1_0 4 false f_1_0 1 f_0_5 4
    = float_of_double (ddiv (double_of_int 5) (double_of_int 2)) /\
  code_score f_1_0 f_1_0 4 false f_1_0 1 f_0_5 4
    = float_of_double (ddiv (double_of_int 5) (double_of_int 2)).
Proof. split; vm_compute; reflexivity. Qed.

(** Scenario S2: with equal priors and nothing visited the first index
    wins the tie; after one virtual selection of index 0 the second index
    is chosen. *)
Example tie_break_first :
  get_best_action 2147483647 (fun _ => 0%Z) f_1_0 fzero false two_action_node
    = Some (0%Z, 4%nat).
Proof. vm_compute. reflexivity. Qed.

Example tie_break_after_virtual_select :
  (n1 ← virtual_select 32 0 1 f_1_0 two_action_node;
   get_best_action 2147483647 (fun _ => 0%Z) f_1_0 fzero false n1)
    = Some (1%Z, 5%nat).
Proof. vm_compute. reflexivity. Qed.

(** ** Edges *)

Section ConnectFacts.

Local Ltac connect_side :=
  simpl;
  first [ reflexivity | congruence | apply last_snoc
        | rewrite length_app; simpl; lia
        | intros; rewrite !length_app; simpl; lia
        | idtac ].

(** C9.  [connect(index, child)] changes nothing when [children[index]]
    is already set; when it is null, it stores [child] there and appends
    exactly one entry to the child's [parents] and one to its
    [parent_indices], so that the two stay equally long, and it leaves
    every other node alone. *)
Theorem connect_effect (h : gmap addr BaseNode) this index n :
  h !! this = Some n ->
  (forall c0 child, children n !! index = Some (Some c0) ->
     connect this index child h = Some h) /\
  (forall ca cn, children n !! index = Some None -> h !! ca = Some cn ->
     exists h' n' cn',
       connect this index (Some ca) h = Some h' /\
       h' !! this = Some n' /\
       children n' = <[index := Some ca]> (children n) /\
       h' !! ca = Some cn' /\
       length (parents cn') = S (length (parents cn)) /\
       length (parent_indices cn') = S (length (parent_indices cn)) /\
       last (parents cn') = Some this /\
       last (parent_indices cn') = Some index /\
       (ca <> this -> parents cn' = parents cn ++ [this] /\
                      parent_indices cn' = parent_indices cn ++ [index] /\
                      children cn' = children cn) /\
       (ca = this -> parents cn' = parents n ++ [this] /\
                     parent_indices cn' = parent_indices n ++ [index]) /\
       (length (parents cn) = length (parent_indices cn) ->
        length (parents cn') = length (parent_indices cn')) /\
       (forall a, a <> this -> a <> ca -> h' !! a = h !! a)).
Proof.
  intros Hn. split.
  - intros c0 child Hc. unfold connect. rewrite Hn. simpl. rewrite Hc. reflexivity.
  - intros ca cn Hc Hca. unfold connect. rewrite Hn. simpl. rewrite Hc. simpl.
    destruct (decide (ca = this)) as [->|Hne].
    + assert (cn = n) as -> by congruence.
      rewrite lookup_insert_eq. simpl. rewrite lookup_insert_eq. simpl.
      eexists _, _, _. split; [reflexivity|].
      rewrite !lookup_insert_eq. simpl.
      repeat split; connect_side.
      intros a Ha _. rewrite !lookup_insert_ne by congruence. reflexivity.
    + rewrite lookup_insert_ne by congruence. rewrite Hca. simpl.
      rewrite lookup_insert_eq. simpl.
      eexists _, _, _. split; [reflexivity|].
      rewrite lookup_insert_eq.
      rewrite !(lookup_insert_ne _ ca this) by congruence.
      rewrite lookup_insert_eq. simpl.
      repeat split; connect_side.
      intros a Ha Ha'. rewrite !lookup_insert_ne by congruence. reflexivity.
Qed.

Lemma connect_effect_witness :
  connect 0 0 (Some 2) chain_heap = Some chain_heap /\
  exists h' cn',
    connect 2 0 (Some 0) chain_heap = Some h' /\
    h' !! 0 = Some cn' /\
    parents cn' = [2] /\ parent_indices cn' = [0].
Proof.
  split.
  - destruct (connect_effect chain_heap 0 0 (chain_node [] [] [Some 1]) eq_refl) as [Ha _].
    apply (Ha 1). reflexivity.
  - destruct (connect_effect chain_heap 2 0 (chain_node [1] [0] [None]) eq_refl) as [_ Hb].
    destruct (Hb 0 (chain_node [] [] [Some 1]) eq_refl eq_refl)
      as (h' & n' & cn' & Hrun & _ & _ & Hcn & _ & _ & _ & _ & Hne & _).
    destruct (Hne ltac:(lia)) as (Hp & Hi & _).
    exists h', cn'. split; [exact Hrun|]. split; [exact Hcn|]. split; assumption.
Defined.

End ConnectFacts.

(** ** Pruning *)

Section PruneFacts.

Lemma node_step_refl n : node_step n n.
Proof. unfold node_step. refine (conj _ (conj _ (conj _ (conj _ _)))); auto. Qed.

Lemma node_step_trans n1 n2 n3 : node_step n1 n2 -> node_step n2 n3 -> node_step n1 n3.
Proof.
  intros (Hp & Hi & Hl & Hf & Hfp) (Hp' & Hi' & Hl' & Hf' & Hfp').
  unfold node_step.
  refine (conj _ (conj _ (conj _ (conj _ _)))); try congruence; auto.
Qed.

Lemma heap_step_refl (h : gmap addr BaseNode) : heap_step h h.
Proof.
  intros a. destruct (h !! a) as [n|] eqn:E; [|reflexivity].
  exists n. split; [reflexivity|apply node_step_refl].
Qed.

Lemma heap_step_trans (h1 h2 h3 : gmap addr BaseNode) :
  heap_step h1 h2 -> heap_step h2 h3 -> heap_step h1 h3.
Proof.
  intros H12 H23 a. specialize (H12 a). specialize (H23 a).
  destruct (h1 !! a) as [n1|].
  - destruct H12 as (n2 & E2 & S12). rewrite E2 in H23.
    destruct H23 as (n3 & E3 & S23). exists n3. split; [exact E3|].
    eapply node_step_trans; eassumption.
  - rewrite H12 in H23. exact H23.
Qed.

Lemma heap_step_lookup (h h' : gmap addr BaseNode) a n :
  heap_step h h' -> h !! a = Some n -> exists n', h' !! a = Some n' /\ node_step n n'.
Proof. intros H E. specialize (H a). rewrite E in H. exact H. Qed.

Lemma heap_step_lookup_inv (h h' : gmap addr BaseNode) a n' :
  heap_step h h' -> h' !! a = Some n' -> exists n, h !! a = Some n /\ node_step n n'.
Proof.
  intros H E. specialize (H a). destruct (h !! a) as [n|].
  - destruct H as (n2 & E2 & S). exists n. split; [reflexivity|]. congruence.
  - congruence.
Qed.

Lemma heap_step_insert (h : gmap addr BaseNode) this n n' :
  h !! this = Some n -> node_step n n' -> heap_step h (<[this := n']> h).
Proof.
  intros E S a. destruct (decide (a = this)) as [->|Hne].
  - rewrite E, lookup_insert_eq. eauto.
  - rewrite lookup_insert_ne by congruence.
    destruct (h !! a) as [m|]; [|reflexivity]. exists m. split; [reflexivity|apply node_step_refl].
Qed.

Lemma count_unpruned_replicate_true k : count_unpruned (replicate k true) = 0.
Proof. induction k as [|k IH]; simpl; auto. Qed.

Lemma count_unpruned_insert_true l : forall i,
  l !! i = Some false -> count_unpruned l = S (count_unpruned (<[i := true]> l)).
Proof.
  induction l as [|b l IH]; intros i Hi; [discriminate|].
  destruct i as [|i]; simpl in *.
  - injection Hi as ->. reflexivity.
  - rewrite (IH i Hi). destruct b; simpl; lia.
Qed.

Lemma count_unpruned_zero l :
  count_unpruned l = 0 -> forall j b, l !! j = Some b -> b = true.
Proof.
  induction l as [|b0 l IH]; intros Hc j b Hj; [discriminate|].
  simpl in Hc. destruct b0; [|simpl in Hc; lia].
  destruct j as [|j]; simpl in Hj; [congruence|]. eapply IH; [simpl in Hc; lia|eassumption].
Qed.

Lemma all_true_replicate (l : list bool) :
  (forall j b, l !! j = Some b -> b = true) -> replicate (length l) true = l.
Proof.
  induction l as [|b l IH]; intros H; simpl; [reflexivity|].
  rewrite (H 0 b eq_refl). f_equal. apply IH. intros j b' Hj. apply (H (S j) b' Hj).
Qed.

Lemma node_step_mark_pruned index n :
  pruned n !! index = Some false -> node_step n (mark_pruned index n).
Proof.
  intros Hf. unfold node_step, mark_pruned. simpl.
  refine (conj eq_refl (conj eq_refl (conj _ (conj _ _)))).
  - apply length_insert.
  - intros j Hj. destruct (decide (j = index)) as [->|Hne]; [congruence|].
    rewrite list_lookup_insert_ne by congruence. exact Hj.
  - intros [_ Hall]. specialize (Hall _ _ Hf). discriminate.
Qed.

Lemma fully_pruned_mark_all n : fully_pruned (mark_all_pruned n).
Proof.
  split; [reflexivity|]. simpl. intros j b Hj.
  apply lookup_replicate in Hj as [-> _]. reflexivity.
Qed.

Lemma node_step_mark_all n : node_step n (mark_all_pruned n).
Proof.
  unfold node_step. simpl.
  refine (conj eq_refl (conj eq_refl (conj _ (conj _ _)))).
  - apply length_replicate.
  - intros j Hj. apply lookup_replicate_2. eapply lookup_lt_Some. eassumption.
  - intros _. apply fully_pruned_mark_all.
Qed.

Lemma count_inv_mark_pruned index n :
  pruned n !! index = Some false -> count_inv n -> count_inv (mark_pruned index n).
Proof.
  intros Hf [Hc Hm]. unfold count_inv, mark_pruned. simpl.
  pose proof (count_unpruned_insert_true _ _ Hf) as Hs.
  assert (Hw : wrap_int (num_unpruned_actions n - 1) = (num_unpruned_actions n - 1)%Z).
  { apply wrap_signed_id; [reflexivity|].
    unfold in_signed, int_bits, INT_MAX in *. lia. }
  rewrite Hw. lia.
Qed.

Lemma count_inv_mark_all n : count_inv (mark_all_pruned n).
Proof.
  unfold count_inv, mark_all_pruned. simpl. rewrite count_unpruned_replicate_true.
  unfold INT_MAX. simpl. lia.
Qed.

Lemma count_inv_all_insert (h : gmap addr BaseNode) this n' :
  count_inv_all h -> count_inv n' -> count_inv_all (<[this := n']> h).
Proof.
  intros H Hn a m Hm. destruct (decide (a = this)) as [->|Hne].
  - rewrite lookup_insert_eq in Hm. congruence.
  - rewrite lookup_insert_ne in Hm by congruence. eapply H. eassumption.
Qed.

Lemma classic_fully n : fully_pruned n \/ ~ fully_pruned n.
Proof.
  unfold fully_pruned.
  destruct (is_pruned n); [|right; intros [? _]; discriminate].
  destruct (decide (Forall (fun b => b = true) (pruned n))) as [Ha|Hn].
  - left. split; [reflexivity|]. intros j b Hj.
    rewrite Forall_forall in Ha. apply Ha. eapply list_elem_of_lookup_2. eassumption.
  - right. intros [_ Hall]. apply Hn. apply Forall_forall. intros b Hb.
    apply list_elem_of_lookup_1 in Hb as [j Hj]. eapply Hall. eassumption.
Qed.

(** Updating one node keeps the propagation invariant, provided the
    parent edges of a node that has just become fully pruned are exempt. *)
Lemma propagated_except_insert (E E' : addr -> nat -> Prop) (h : gmap addr BaseNode) this n n' :
  h !! this = Some n -> node_step n n' ->
  propagated_except E h ->
  (forall a k, E a k -> E' a k) ->
  (forall k, fully_pruned n' -> ~ fully_pruned n -> ~ E' this k -> False) ->
  propagated_except E' (<[this := n']> h).
Proof.
  intros Hn (Hp & Hi & Hl & Hf & Hfp) HI Hsub Hnew a m k p pi Hm Hfull Hpk Hpik HE.
  assert (Hold : exists m0, h !! a = Some m0 /\ fully_pruned m0 /\
                   parents m0 !! k = Some p /\ parent_indices m0 !! k = Some pi).
  { destruct (decide (a = this)) as [->|Hne].
    - rewrite lookup_insert_eq in Hm. injection Hm as <-.
      exists n. rewrite <- Hp, <- Hi.
      assert (Hfn : fully_pruned n).
      { destruct (classic_fully n) as [Hy|Hno]; [exact Hy|].
        exfalso. apply (Hnew k); auto. }
      auto.
    - rewrite lookup_insert_ne in Hm by congruence. exists m. auto. }
  destruct Hold as (m0 & Hm0 & Hfull0 & Hpk0 & Hpik0).
  destruct (HI a m0 k p pi Hm0 Hfull0 Hpk0 Hpik0) as (pn & Hpn & Hflag).
  { intros HEa. apply HE, Hsub, HEa. }
  destruct (decide (p = this)) as [->|Hne].
  - exists n'. rewrite lookup_insert_eq. split; [reflexivity|].
    apply Hf. congruence.
  - exists pn. rewrite lookup_insert_ne by congruence. auto.
Qed.

Lemma propagated_except_weaken (E E' : addr -> nat -> Prop) (h : gmap addr BaseNode) :
  (forall a k, E a k -> E' a k) -> propagated_except E h -> propagated_except E' h.
Proof.
  intros Hsub H a n k p pi Hn Hf Hp Hpi HE. eapply H; eauto.
Qed.

(** Partial correctness of the three routines: the heap changes only by
    pruning steps, the counting invariant is kept, the propagation
    invariant is kept once the pending parent edges have been visited,
    and the slot (or node) asked for is pruned afterwards. *)
Lemma prune_sound fuel :
  (forall this index (h h' : gmap addr BaseNode),
     prune_at fuel this index h = Some h' ->
     heap_step h h' /\ (count_inv_all h -> count_inv_all h') /\
     (forall E, propagated_except E h -> propagated_except E h') /\
     (exists n', h' !! this = Some n' /\ pruned n' !! index = Some true)) /\
  (forall this (h h' : gmap addr BaseNode),
     prune fuel this h = Some h' ->
     heap_step h h' /\ (count_inv_all h -> count_inv_all h') /\
     (forall E, propagated_except (pending E this 0) h -> propagated_except E h') /\
     (exists n', h' !! this = Some n' /\ fully_pruned n')) /\
  (forall this i (h h' : gmap addr BaseNode),
     prune_parents fuel this i h = Some h' ->
     heap_step h h' /\ (count_inv_all h -> count_inv_all h') /\
     (forall E, propagated_except (pending E this i) h -> propagated_except E h')).
Proof.
  induction fuel as [|fuel (IHat & IHall & IHloop)];
    [repeat split; intros; discriminate|].
  refine (conj _ (conj _ _)).
  - (* prune(index) *)
    intros this index h h' Hrun. simpl in Hrun.
    destruct (h !! this) as [n|] eqn:Hn; [|discriminate]. simpl in Hrun.
    destruct (pruned n !! index) as [b|] eqn:Hb; [|discriminate]. simpl in Hrun.
    destruct b.
    + (* already pruned *)
      rewrite Hn in Hrun. simpl in Hrun.
      destruct (is_pruned n) eqn:Hz.
      * destruct (IHall _ _ _ Hrun) as (Hs & Hc & Hp & _).
        refine (conj Hs (conj Hc (conj _ _))).
        -- intros E HE. apply Hp. eapply propagated_except_weaken; [|exact HE].
           intros a k Ha. left. exact Ha.
        -- destruct (heap_step_lookup _ _ _ _ Hs Hn) as (n' & Hn' & (_ & _ & _ & Hf & _)).
           exists n'. auto.
      * injection Hrun as <-.
        refine (conj (heap_step_refl h) (conj (fun H => H) (conj (fun _ H => H) _))).
        exists n. auto.
    + (* newly pruned *)
      rewrite lookup_insert_eq in Hrun. simpl in Hrun.
      pose proof (node_step_mark_pruned index n Hb) as Hstep.
      pose proof (heap_step_insert h this n _ Hn Hstep) as Hs1.
      assert (Hflag : pruned (mark_pruned index n) !! index = Some true).
      { simpl. apply list_lookup_insert_eq. eapply lookup_lt_Some. eassumption. }
      assert (Hc1 : count_inv_all h -> count_inv_all (<[this := mark_pruned index n]> h)).
      { intros Hc. apply count_inv_all_insert; [exact Hc|].
        apply count_inv_mark_pruned; [exact Hb|]. eapply Hc. eassumption. }
      destruct (is_pruned (mark_pruned index n)) eqn:Hz.
      * destruct (IHall _ _ _ Hrun) as (Hs & Hc & Hp & _).
        refine (conj (heap_step_trans _ _ _ Hs1 Hs) (conj (fun H => Hc (Hc1 H)) (conj _ _))).
        -- intros E HE. apply Hp.
           eapply propagated_except_insert; [exact Hn|exact Hstep|exact HE| |].
           ++ intros a k Ha. left. exact Ha.
           ++ intros k _ _ Hk. apply Hk. right. split; [reflexivity|lia].
        -- destruct (heap_step_lookup _ _ _ _ Hs (lookup_insert_eq h this _))
             as (n' & Hn' & (_ & _ & _ & Hf & _)).
           exists n'. auto.
      * injection Hrun as <-.
        refine (conj Hs1 (conj Hc1 (conj _ _))).
        -- intros E HE.
           eapply propagated_except_insert; [exact Hn|exact Hstep|exact HE|auto|].
           intros k [Hz' _] _ _. congruence.
        -- exists (mark_pruned index n). rewrite lookup_insert_eq. auto.
  - (* prune() *)
    intros this h h' Hrun. simpl in Hrun.
    destruct (h !! this) as [n|] eqn:Hn; [|discriminate]. simpl in Hrun.
    pose proof (heap_step_insert h this n _ Hn (node_step_mark_all n)) as Hs1.
    destruct (IHloop _ _ _ _ Hrun) as (Hs & Hc & Hp).
    refine (conj (heap_step_trans _ _ _ Hs1 Hs) (conj _ (conj _ _))).
    + intros H. apply Hc. apply count_inv_all_insert; [exact H|apply count_inv_mark_all].
    + intros E HE. apply Hp.
      eapply propagated_except_insert; [exact Hn|apply node_step_mark_all|exact HE|auto|].
      intros k _ _ Hk. apply Hk. right. split; [reflexivity|lia].
    + destruct (heap_step_lookup _ _ _ _ Hs (lookup_insert_eq h this _))
        as (n' & Hn' & (_ & _ & _ & _ & Hfp)).
      exists n'. split; [exact Hn'|]. apply Hfp, fully_pruned_mark_all.
  - (* the loop over the parents *)
    intros this i h h' Hrun. simpl in Hrun.
    destruct (h !! this) as [n|] eqn:Hn; [|discriminate]. simpl in Hrun.
    destruct (decide (i < length (parents n))) as [Hi|Hi].
    + destruct (parents n !! i) as [p|] eqn:Hp; [|discriminate]. simpl in Hrun.
      destruct (parent_indices n !! i) as [pi|] eqn:Hpi; [|discriminate]. simpl in Hrun.
      destruct (prune_at fuel p pi h) as [h2|] eqn:Hcall; [|discriminate]. simpl in Hrun.
      destruct (IHat _ _ _ _ Hcall) as (Hs2 & Hc2 & Hp2 & (pn & Hpn & Hflag)).
      destruct (IHloop _ _ _ _ Hrun) as (Hs & Hc & Hpr).
      refine (conj (heap_step_trans _ _ _ Hs2 Hs) (conj (fun H => Hc (Hc2 H)) _)).
      intros E HE. apply Hpr.
      specialize (Hp2 _ HE).
      intros a m k q qi Hm Hfull Hq Hqi Hex.
      destruct (decide (a = this /\ k = i)) as [[-> ->]|Hother].
      * destruct (heap_step_lookup _ _ _ _ Hs2 Hn) as (n2 & Hn2 & (Hpa & Hia & _)).
        assert (m = n2) as -> by congruence.
        rewrite Hpa, Hp in Hq. rewrite Hia, Hpi in Hqi.
        injection Hq as <-. injection Hqi as <-. eauto.
      * eapply Hp2; eauto. intros [HE'|[-> Hk]]; apply Hex.
        -- left. exact HE'.
        -- right. split; [reflexivity|]. destruct (decide (k = i)) as [->|]; [tauto|lia].
    + injection Hrun as <-.
      refine (conj (heap_step_refl h) (conj (fun H => H) _)).
      intros E HE a m k q qi Hm Hfull Hq Hqi Hex.
      eapply HE; eauto. intros [HE'|[-> Hk]]; [tauto|].
      assert (m = n) as -> by congruence.
      apply lookup_lt_Some in Hq. lia.
Qed.

(** More fuel does not change a result. *)
Lemma prune_fuel_mono fuel :
  (forall this index (h h' : gmap addr BaseNode),
     prune_at fuel this index h = Some h' ->
     forall fuel', fuel <= fuel' -> prune_at fuel' this index h = Some h') /\
  (forall this (h h' : gmap addr BaseNode),
     prune fuel this h = Some h' ->
     forall fuel', fuel <= fuel' -> prune fuel' this h = Some h') /\
  (forall this i (h h' : gmap addr BaseNode),
     prune_parents fuel this i h = Some h' ->
     forall fuel', fuel <= fuel' -> prune_parents fuel' this i h = Some h').
Proof.
  induction fuel as [|fuel (IHat & IHall & IHloop)];
    [repeat split; intros; discriminate|].
  refine (conj _ (conj _ _)).
  - intros this index h h' Hrun [|fuel'] Hle; [lia|]. simpl in *.
    destruct (h !! this) as [n|]; [|discriminate]. simpl in *.
    destruct (pruned n !! index) as [b|]; [|discriminate]. simpl in *.
    destruct ((if b then h else <[this:=mark_pruned index n]> h) !! this) as [n1|];
      [|discriminate]. simpl in *.
    destruct (is_pruned n1); [|exact Hrun]. apply (IHall _ _ _ Hrun). lia.
  - intros this h h' Hrun [|fuel'] Hle; [lia|]. simpl in *.
    destruct (h !! this) as [n|]; [|discriminate]. simpl in *.
    apply (IHloop _ _ _ _ Hrun). lia.
  - intros this i h h' Hrun [|fuel'] Hle; [lia|]. simpl in *.
    destruct (h !! this) as [n|]; [|discriminate]. simpl in *.
    destruct (decide (i < length (parents n))); [|exact Hrun].
    destruct (parents n !! i) as [p|]; [|discriminate]. simpl in *.
    destruct (parent_indices n !! i) as [pi|]; [|discriminate]. simpl in *.
    destruct (prune_at fuel p pi h) as [h2|] eqn:Hcall; [|discriminate]. simpl in *.
    rewrite (IHat _ _ _ _ Hcall fuel') by lia. simpl.
    apply (IHloop _ _ _ _ Hrun). lia.
Qed.

Lemma run_call_mono fuel fuel' c (h h' : gmap addr BaseNode) :
  run_call fuel c h = Some h' -> fuel <= fuel' -> run_call fuel' c h = Some h'.
Proof.
  destruct (prune_fuel_mono fuel) as (Hat & Hall & _).
  destruct c; simpl; eauto.
Qed.

Lemma run_calls_mono fuel fuel' cs : forall (h h' : gmap addr BaseNode),
  run_calls fuel cs h = Some h' -> fuel <= fuel' -> run_calls fuel' cs h = Some h'.
Proof.
  induction cs as [|c cs IH]; intros h h' Hrun Hle; simpl in *; [exact Hrun|].
  destruct (run_call fuel c h) as [h1|] eqn:Hc; [|discriminate]. simpl in Hrun.
  rewrite (run_call_mono _ _ _ _ _ Hc Hle). simpl. eauto.
Qed.

Lemma wf_links_step rank (h h' : gmap addr BaseNode) :
  heap_step h h' -> wf_links rank h -> wf_links rank h'.
Proof.
  intros Hs [Hcl Hrk]. split.
  - intros a n' Hn'.
    destruct (heap_step_lookup_inv _ _ _ _ Hs Hn') as (n & Hn & (Hp & Hi & _)).
    destruct (Hcl a n Hn) as [Hlen Hpar]. split; [congruence|].
    intros k p pi Hpk Hpik. rewrite Hp in Hpk. rewrite Hi in Hpik.
    destruct (Hpar k p pi Hpk Hpik) as (pn & Hpn & Hlt).
    destruct (heap_step_lookup _ _ _ _ Hs Hpn) as (pn' & Hpn' & (_ & _ & Hl & _)).
    exists pn'. split; [exact Hpn'|]. lia.
  - intros a n' k p Hn' Hpk.
    destruct (heap_step_lookup_inv _ _ _ _ Hs Hn') as (n & Hn & (Hp & _)).
    rewrite Hp in Hpk. eapply Hrk; eassumption.
Qed.

Lemma valid_call_step (h h' : gmap addr BaseNode) c :
  heap_step h h' -> valid_call h c -> valid_call h' c.
Proof.
  intros Hs. destruct c as [a index|a]; simpl.
  - intros (n & Hn & Hlt).
    destruct (heap_step_lookup _ _ _ _ Hs Hn) as (n' & Hn' & (_ & _ & Hl & _)).
    exists n'. split; [exact Hn'|]. lia.
  - intros [n Hn]. destruct (heap_step_lookup _ _ _ _ Hs Hn) as (n' & Hn' & _). eauto.
Qed.

(** Termination: on acyclic, well-formed parent links every call returns. *)
Lemma prune_terminates rank r :
  (forall this (h : gmap addr BaseNode) n,
     rank this < r -> wf_links rank h -> h !! this = Some n ->
     exists fuel h', prune fuel this h = Some h') /\
  (forall this index (h : gmap addr BaseNode) n,
     rank this < r -> wf_links rank h -> h !! this = Some n ->
     index < length (pruned n) ->
     exists fuel h', prune_at fuel this index h = Some h').
Proof.
  induction r as [|r [IHall IHat]]; [split; intros; lia|].
  assert (Hloop : forall this m i (h : gmap addr BaseNode) n,
            rank this < S r -> wf_links rank h -> h !! this = Some n ->
            length (parents n) - i <= m ->
            exists fuel h', prune_parents fuel this i h = Some h').
  { intros this m. induction m as [|m IHm]; intros i h n Hr Hwf Hn Hm.
    - exists 1, h. simpl. rewrite Hn. simpl.
      destruct (decide (i < length (parents n))); [lia|reflexivity].
    - destruct (decide (i < length (parents n))) as [Hi|Hi].
      + destruct Hwf as [Hcl Hrk]. destruct (Hcl _ _ Hn) as [Hlen Hpar].
        destruct (lookup_lt_is_Some_2 (parents n) i Hi) as [p Hp].
        destruct (lookup_lt_is_Some_2 (parent_indices n) i ltac:(lia)) as [pi Hpi].
        destruct (Hpar _ _ _ Hp Hpi) as (pn & Hpn & Hlt).
        pose proof (Hrk _ _ _ _ Hn Hp) as Hrp.
        destruct (IHat p pi h pn ltac:(lia) (conj Hcl Hrk) Hpn Hlt) as (f1 & h2 & Hcall).
        destruct (prune_sound f1) as (Hsound & _).
        destruct (Hsound _ _ _ _ Hcall) as (Hs & _).
        destruct (heap_step_lookup _ _ _ _ Hs Hn) as (n2 & Hn2 & (Hpa & _)).
        destruct (IHm (S i) h2 n2 Hr (wf_links_step _ _ _ Hs (conj Hcl Hrk)) Hn2
                    ltac:(rewrite Hpa; lia)) as (f2 & h' & Hrest).
        exists (S (Nat.max f1 f2)), h'. simpl. rewrite Hn. simpl.
        destruct (decide (i < length (parents n))); [|lia].
        rewrite Hp, Hpi. simpl.
        destruct (prune_fuel_mono f1) as (Mat & _).
        rewrite (Mat _ _ _ _ Hcall (Nat.max f1 f2)) by lia. simpl.
        destruct (prune_fuel_mono f2) as (_ & _ & Mloop).
        apply (Mloop _ _ _ _ Hrest). lia.
      + exists 1, h. simpl. rewrite Hn. simpl.
        destruct (decide (i < length (parents n))); [lia|reflexivity]. }
  assert (Hall : forall this (h : gmap addr BaseNode) n,
            rank this < S r -> wf_links rank h -> h !! this = Some n ->
            exists fuel h', prune fuel this h = Some h').
  { intros this h n Hr Hwf Hn.
    pose proof (heap_step_insert h this n _ Hn (node_step_mark_all n)) as Hs1.
    destruct (Hloop this (length (parents (mark_all_pruned n))) 0
                (<[this := mark_all_pruned n]> h) (mark_all_pruned n) Hr
                (wf_links_step _ _ _ Hs1 Hwf) (lookup_insert_eq h this _) ltac:(lia))
      as (f & h' & Hrun).
    exists (S f), h'. simpl. rewrite Hn. simpl. exact Hrun. }
  split; [exact Hall|].
  intros this index h n Hr Hwf Hn Hlt.
  destruct (lookup_lt_is_Some_2 (pruned n) index Hlt) as [b Hb].
  destruct b.
  - destruct (is_pruned n) eqn:Hz.
    + destruct (Hall this h n Hr Hwf Hn) as (f & h' & Hrun).
      exists (S f), h'. simpl. rewrite Hn. simpl. rewrite Hb. simpl.
      rewrite Hn. simpl. rewrite Hz. exact Hrun.
    + exists 1, h. simpl. rewrite Hn. simpl. rewrite Hb. simpl.
      rewrite Hn. simpl. rewrite Hz. reflexivity.
  - pose proof (heap_step_insert h this n _ Hn (node_step_mark_pruned index n Hb)) as Hs1.
    destruct (is_pruned (mark_pruned index n)) eqn:Hz.
    + destruct (Hall this (<[this := mark_pruned index n]> h) (mark_pruned index n) Hr
                  (wf_links_step _ _ _ Hs1 Hwf) (lookup_insert_eq h this _))
        as (f & h' & Hrun).
      exists (S f), h'. simpl. rewrite Hn. simpl. rewrite Hb. simpl.
      rewrite lookup_insert_eq. simpl. rewrite Hz. exact Hrun.
    + exists 1, (<[this := mark_pruned index n]> h). simpl. rewrite Hn. simpl.
      rewrite Hb. simpl. rewrite lookup_insert_eq. simpl. rewrite Hz. reflexivity.
Qed.

Lemma mark_all_pruned_id n : fully_pruned n -> mark_all_pruned n = n.
Proof.
  intros [Hz Hall]. unfold is_pruned in Hz. apply Z.eqb_eq in Hz.
  unfold mark_all_pruned, set_pruned, set_num_unpruned_actions. simpl.
  rewrite (all_true_replicate _ Hall). destruct n. simpl in *. congruence.
Qed.

Lemma ranked_step rank (h h' : gmap addr BaseNode) :
  heap_step h h' -> ranked rank h -> ranked rank h'.
Proof.
  intros Hs Hrk a n' k p Hn' Hpk.
  destruct (heap_step_lookup_inv _ _ _ _ Hs Hn') as (n & Hn & (Hp & _)).
  rewrite Hp in Hpk. eapply Hrk; eassumption.
Qed.

Lemma settled_inv E (h : gmap addr BaseNode) a :
  settled E h a ->
  exists n, h !! a = Some n /\
    (is_pruned n = true ->
       fully_pruned n /\
       forall k p pi,
         parents n !! k = Some p -> parent_indices n !! k = Some pi -> ~ E a k ->
         exists pn, h !! p = Some pn /\ pruned pn !! pi = Some true /\ settled E h p).
Proof.
  intros H. inversion H as [a' n Hn Hz|a' n Hn Hfull Hflag Hpar]; subst.
  - exists n. split; [exact Hn|]. congruence.
  - exists n. split; [exact Hn|]. intros _. split; [exact Hfull|].
    intros k p pi Hp Hpi HE.
    destruct (Hflag k p pi Hp Hpi HE) as (pn & Hpn & Hf).
    exists pn. split; [exact Hpn|]. split; [exact Hf|]. eauto.
Qed.

Lemma settled_node E (h : gmap addr BaseNode) a n :
  h !! a = Some n ->
  (is_pruned n = true ->
     fully_pruned n /\
     forall k p pi,
       parents n !! k = Some p -> parent_indices n !! k = Some pi -> ~ E a k ->
       exists pn, h !! p = Some pn /\ pruned pn !! pi = Some true /\ settled E h p) ->
  settled E h a.
Proof.
  intros Hn Hrest. destruct (is_pruned n) eqn:Hz.
  - destruct (Hrest eq_refl) as [Hfull Hedges].
    apply (settled_closed E h a n Hn Hfull).
    + intros k p pi Hp Hpi HE.
      destruct (Hedges k p pi Hp Hpi HE) as (pn & Hpn & Hf & _). exists pn. auto.
    + intros k p pi Hp Hpi HE.
      destruct (Hedges k p pi Hp Hpi HE) as (pn & _ & _ & Hs). exact Hs.
  - apply (settled_open E h a n Hn Hz).
Qed.

(** Settled nodes stay settled from [h] to [h'] and from the exemptions
    [E] to [E'], when the nodes whose counter has just become zero are
    fully pruned with all their parent edges exempt, and every edge that
    is no longer exempt leads to a set flag of a settled parent. *)
Lemma settled_transfer rank (E E' : addr -> nat -> Prop) (h h' : gmap addr BaseNode) :
  ranked rank h -> heap_step h h' ->
  (forall a n n', h !! a = Some n -> h' !! a = Some n' ->
     is_pruned n = false -> is_pruned n' = true ->
     fully_pruned n' /\ forall k, E' a k) ->
  (forall a k, ~ E' a k ->
     ~ E a k \/
     forall n' p pi, h' !! a = Some n' ->
       parents n' !! k = Some p -> parent_indices n' !! k = Some pi ->
       exists pn, h' !! p = Some pn /\ pruned pn !! pi = Some true /\ settled E h p) ->
  forall a, settled E h a -> settled E' h' a.
Proof.
  intros Hrk Hs Hnew Hedge.
  assert (Hind : forall r a, rank a < r -> settled E h a -> settled E' h' a).
  { induction r as [|r IH]; intros a Hr Hset; [lia|].
    destruct (settled_inv E h a Hset) as (n & Hn & Hrest).
    destruct (heap_step_lookup _ _ _ _ Hs Hn) as (n' & Hn' & (Hp & Hi & Hl & Hf & Hfp)).
    apply (settled_node E' h' a n' Hn'). intros Hz'.
    destruct (is_pruned n) eqn:Hz.
    - destruct (Hrest eq_refl) as [Hfull Hedges]. split; [apply Hfp, Hfull|].
      intros k p pi Hpk Hpik HE'.
      assert (Hrp : rank p < rank a).
      { rewrite Hp in Hpk. eapply Hrk; eassumption. }
      destruct (Hedge a k HE') as [HE|Hfacts].
      + rewrite Hp in Hpk. rewrite Hi in Hpik.
        destruct (Hedges k p pi Hpk Hpik HE) as (pn & Hpn & Hflag & Hsp).
        destruct (heap_step_lookup _ _ _ _ Hs Hpn) as (pn' & Hpn' & (_ & _ & _ & Hf' & _)).
        exists pn'. split; [exact Hpn'|]. split; [apply Hf', Hflag|].
        apply IH; [lia|exact Hsp].
      + destruct (Hfacts n' p pi Hn' Hpk Hpik) as (pn & Hpn & Hflag & Hsp).
        exists pn. split; [exact Hpn|]. split; [exact Hflag|].
        apply IH; [lia|exact Hsp].
    - destruct (Hnew a n n' Hn Hn' Hz Hz') as [Hfull Hex]. split; [exact Hfull|].
      intros k p pi _ _ HE'. exfalso. apply HE', Hex. }
  intros a. apply (Hind (S (rank a))). lia.
Qed.

Lemma settled_insert rank (E E' : addr -> nat -> Prop) (h : gmap addr BaseNode) this n n' :
  ranked rank h -> h !! this = Some n -> node_step n n' ->
  (forall a k, E a k -> E' a k) ->
  (is_pruned n = false -> is_pruned n' = true ->
     fully_pruned n' /\ forall k, E' this k) ->
  forall a, settled E h a -> settled E' (<[this := n']> h) a.
Proof.
  intros Hrk Hn Hstep Hsub Hnew.
  apply (settled_transfer rank E E' h _ Hrk (heap_step_insert h this n n' Hn Hstep)).
  - intros a m m' Hm Hm' Hz Hz'. destruct (decide (a = this)) as [->|Hne].
    + rewrite lookup_insert_eq in Hm'. injection Hm' as <-.
      assert (m = n) as -> by congruence. auto.
    + rewrite lookup_insert_ne in Hm' by congruence. congruence.
  - intros a k HE'. left. intros HE. apply HE', Hsub, HE.
Qed.

Lemma pending_step E this i a k :
  ~ pending E this (S i) a k -> (a = this /\ k = i) \/ ~ pending E this i a k.
Proof.
  intros H. destruct (decide (a = this /\ k = i)) as [Hy|Hn]; [left; exact Hy|].
  right. intros [HE|[-> Hk]]; apply H.
  - left. exact HE.
  - right. split; [reflexivity|]. destruct (decide (k = i)) as [->|]; [tauto|lia].
Qed.

(** Every call settles the node it is made on and keeps the other
    settled nodes settled. *)
Lemma prune_settles rank fuel :
  (forall this index (h h' : gmap addr BaseNode),
     ranked rank h -> prune_at fuel this index h = Some h' ->
     forall E, (forall a, settled E h a -> settled E h' a) /\ settled E h' this) /\
  (forall this (h0 h' : gmap addr BaseNode) n0 n1,
     ranked rank h0 -> h0 !! this = Some n0 -> node_step n0 n1 ->
     prune fuel this (<[this := n1]> h0) = Some h' ->
     forall E, (forall a, settled E h0 a -> settled E h' a) /\ settled E h' this) /\
  (forall this i (h h' : gmap addr BaseNode),
     ranked rank h -> prune_parents fuel this i h = Some h' ->
     forall E a, settled (pending E this i) h a -> settled E h' a).
Proof.
  induction fuel as [|fuel (IHat & IHall & IHloop)];
    [repeat split; intros; discriminate|].
  refine (conj _ (conj _ _)).
  - (* prune(index) *)
    intros this index h h' Hrk Hrun E. simpl in Hrun.
    destruct (h !! this) as [n|] eqn:Hn; [|discriminate]. simpl in Hrun.
    destruct (pruned n !! index) as [b|] eqn:Hb; [|discriminate]. simpl in Hrun.
    destruct b.
    + rewrite Hn in Hrun. simpl in Hrun. destruct (is_pruned n) eqn:Hz.
      * rewrite <- (insert_id h this n Hn) in Hrun.
        apply (IHall this h h' n n Hrk Hn (node_step_refl n) Hrun E).
      * injection Hrun as <-. split; [auto|].
        apply (settled_node E h this n Hn). congruence.
    + rewrite lookup_insert_eq in Hrun. simpl in Hrun.
      pose proof (node_step_mark_pruned index n Hb) as Hstep.
      destruct (is_pruned (mark_pruned index n)) eqn:Hz.
      * apply (IHall this h h' n _ Hrk Hn Hstep Hrun E).
      * injection Hrun as <-. split.
        -- apply (settled_insert rank E E h this n _ Hrk Hn Hstep); [auto|congruence].
        -- apply (settled_node E _ this (mark_pruned index n) (lookup_insert_eq h this _)).
           congruence.
  - (* prune() *)
    intros this h0 h' n0 n1 Hrk Hn0 Hstep Hrun E. simpl in Hrun.
    rewrite lookup_insert_eq in Hrun. simpl in Hrun.
    rewrite insert_insert_eq in Hrun.
    pose proof (node_step_trans _ _ _ Hstep (node_step_mark_all n1)) as Hstep1.
    pose proof (heap_step_insert h0 this n0 _ Hn0 Hstep1) as Hs1.
    pose proof (IHloop this 0 _ h' (ranked_step rank _ _ Hs1 Hrk) Hrun E) as Hloop.
    split.
    + intros a Ha. apply Hloop.
      apply (settled_insert rank E (pending E this 0) h0 this n0 _ Hrk Hn0 Hstep1).
      * intros x k HE. left. exact HE.
      * intros _ _. split; [apply fully_pruned_mark_all|].
        intros k. right. split; [reflexivity|lia].
      * exact Ha.
    + apply Hloop.
      apply (settled_node _ _ this (mark_all_pruned n1) (lookup_insert_eq h0 this _)).
      intros _. split; [apply fully_pruned_mark_all|].
      intros k p pi _ _ Hex. exfalso. apply Hex. right. split; [reflexivity|lia].
  - (* the loop over the parents *)
    intros this i h h' Hrk Hrun E a Ha. simpl in Hrun.
    destruct (h !! this) as [n|] eqn:Hn; [|discriminate]. simpl in Hrun.
    destruct (decide (i < length (parents n))) as [Hi|Hi].
    + destruct (parents n !! i) as [p|] eqn:Hp; [|discriminate]. simpl in Hrun.
      destruct (parent_indices n !! i) as [pi|] eqn:Hpi; [|discriminate]. simpl in Hrun.
      destruct (prune_at fuel p pi h) as [h2|] eqn:Hcall; [|discriminate]. simpl in Hrun.
      destruct (IHat p pi h h2 Hrk Hcall (pending E this i)) as [Hkeep Hsp].
      destruct (prune_sound fuel) as (Hsound & _).
      destruct (Hsound _ _ _ _ Hcall) as (Hs2 & _ & _ & (pn & Hpn & Hflag)).
      pose proof (ranked_step rank _ _ Hs2 Hrk) as Hrk2.
      apply (IHloop this (S i) h2 h' Hrk2 Hrun E a).
      apply (settled_transfer rank (pending E this i) (pending E this (S i)) h2 h2 Hrk2
               (heap_step_refl h2)).
      * intros x m m' Hm Hm' Hz Hz'. congruence.
      * intros x k Hx. destruct (pending_step E this i x k Hx) as [[-> ->]|Hno];
          [right|left; exact Hno].
        intros n' q qi Hn' Hq Hqi.
        destruct (heap_step_lookup _ _ _ _ Hs2 Hn) as (n2 & Hn2 & (Hpa & Hia & _)).
        assert (n' = n2) as -> by congruence.
        rewrite Hpa, Hp in Hq. rewrite Hia, Hpi in Hqi.
        injection Hq as <-. injection Hqi as <-. eauto.
      * apply Hkeep, Ha.
    + injection Hrun as <-.
      apply (settled_transfer rank (pending E this i) E h h Hrk (heap_step_refl h)).
      * intros x m m' Hm Hm' Hz Hz'. congruence.
      * intros x k Hx.
        destruct (decide (x = this /\ i <= k)) as [[-> Hk]|Hno].
        -- right. intros n' q qi Hn' Hq Hqi. assert (n' = n) as -> by congruence.
           apply lookup_lt_Some in Hq. lia.
        -- left. intros [HE|Hp]; tauto.
      * exact Ha.
Qed.

(** On a settled node, pruning what is pruned already changes nothing. *)
Lemma prune_noop rank r :
  (forall this (h : gmap addr BaseNode) n,
     rank this < r -> wf_links rank h -> settled (fun _ _ => False) h this ->
     h !! this = Some n -> is_pruned n = true ->
     exists fuel, prune fuel this h = Some h) /\
  (forall this index (h : gmap addr BaseNode) n,
     rank this < r -> wf_links rank h -> settled (fun _ _ => False) h this ->
     h !! this = Some n -> pruned n !! index = Some true ->
     exists fuel, prune_at fuel this index h = Some h).
Proof.
  induction r as [|r [IHall IHat]]; [split; intros; lia|].
  assert (Hall : forall this (h : gmap addr BaseNode) n,
            rank this < S r -> wf_links rank h -> settled (fun _ _ => False) h this ->
            h !! this = Some n -> is_pruned n = true ->
            exists fuel, prune fuel this h = Some h).
  { intros this h n Hr Hwf Hset Hn Hz.
    destruct (settled_inv _ h this Hset) as (n' & Hn' & Hrest).
    assert (n' = n) as -> by congruence.
    destruct (Hrest Hz) as [Hfull Hedges].
    assert (Hloop : forall m i, length (parents n) - i <= m ->
              exists fuel, prune_parents fuel this i h = Some h).
    { induction m as [|m IHm]; intros i Hm.
      - exists 1. simpl. rewrite Hn. simpl.
        destruct (decide (i < length (parents n))); [lia|reflexivity].
      - destruct (decide (i < length (parents n))) as [Hi|Hi].
        + destruct Hwf as [Hcl Hrk]. destruct (Hcl _ _ Hn) as [Hlen Hpar].
          destruct (lookup_lt_is_Some_2 (parents n) i Hi) as [p Hpa].
          destruct (lookup_lt_is_Some_2 (parent_indices n) i ltac:(lia)) as [pi Hpi].
          destruct (Hedges i p pi Hpa Hpi ltac:(tauto)) as (pn & Hpn & Hflag & Hsp).
          pose proof (Hrk _ _ _ _ Hn Hpa) as Hrp.
          destruct (IHat p pi h pn ltac:(lia) (conj Hcl Hrk) Hsp Hpn Hflag) as [f1 Hcall].
          destruct (IHm (S i) ltac:(lia)) as [f2 Hrest2].
          exists (S (Nat.max f1 f2)). simpl. rewrite Hn. simpl.
          destruct (decide (i < length (parents n))); [|lia].
          rewrite Hpa, Hpi. simpl.
          destruct (prune_fuel_mono f1) as (Mat & _).
          rewrite (Mat _ _ _ _ Hcall (Nat.max f1 f2)) by lia. simpl.
          destruct (prune_fuel_mono f2) as (_ & _ & Mloop).
          apply (Mloop _ _ _ _ Hrest2). lia.
        + exists 1. simpl. rewrite Hn. simpl.
          destruct (decide (i < length (parents n))); [lia|reflexivity]. }
    destruct (Hloop (length (parents n)) 0 ltac:(lia)) as [f Hrun].
    exists (S f). simpl. rewrite Hn. simpl.
    rewrite (mark_all_pruned_id n Hfull), insert_id by exact Hn. exact Hrun. }
  split; [exact Hall|].
  intros this index h n Hr Hwf Hset Hn Hb.
  destruct (is_pruned n) eqn:Hz.
  - destruct (Hall this h n Hr Hwf Hset Hn Hz) as [f Hrun].
    exists (S f). simpl. rewrite Hn. simpl. rewrite Hb. simpl.
    rewrite Hn. simpl. rewrite Hz. exact Hrun.
  - exists 1. simpl. rewrite Hn. simpl. rewrite Hb. simpl.
    rewrite Hn. simpl. rewrite Hz. reflexivity.
Qed.

Lemma run_call_terminates rank (h : gmap addr BaseNode) c :
  wf_links rank h -> valid_call h c -> exists fuel h', run_call fuel c h = Some h'.
Proof.
  intros Hwf Hv. destruct c as [a index|a]; simpl in *.
  - destruct Hv as (n & Hn & Hlt).
    destruct (prune_terminates rank (S (rank a))) as [_ Hat].
    eapply Hat; eauto.
  - destruct Hv as [n Hn].
    destruct (prune_terminates rank (S (rank a))) as [Hall _].
    eapply Hall; eauto.
Qed.

Lemma call_done_step rank c (h h' : gmap addr BaseNode) fuel c' :
  ranked rank h -> run_call fuel c' h = Some h' -> call_done c h -> call_done c h'.
Proof.
  intros Hrk Hrun Hdone.
  assert (Hs : heap_step h h' /\
               forall a, settled (fun _ _ => False) h a -> settled (fun _ _ => False) h' a).
  { destruct (prune_sound fuel) as (Sat & Sall & _).
    destruct (prune_settles rank fuel) as (Tat & Tall & _).
    destruct c' as [x index|x]; simpl in Hrun.
    - destruct (Sat _ _ _ _ Hrun) as (Hs & _). split; [exact Hs|].
      apply (Tat _ _ _ _ Hrk Hrun).
    - destruct (Sall _ _ _ Hrun) as (Hs & _). split; [exact Hs|].
      destruct (h !! x) as [n|] eqn:Hn.
      + rewrite <- (insert_id h x n Hn) in Hrun.
        apply (Tall x h h' n n Hrk Hn (node_step_refl n) Hrun).
      + destruct fuel; simpl in Hrun; [discriminate|]. rewrite Hn in Hrun. discriminate. }
  destruct Hs as [Hs Hkeep].
  destruct c as [a index|a]; simpl in *.
  - destruct Hdone as (Hset & n & Hn & Hflag). split; [apply Hkeep, Hset|].
    destruct (heap_step_lookup _ _ _ _ Hs Hn) as (n' & Hn' & (_ & _ & _ & Hf & _)). eauto.
  - destruct Hdone as (Hset & n & Hn & Hfull). split; [apply Hkeep, Hset|].
    destruct (heap_step_lookup _ _ _ _ Hs Hn) as (n' & Hn' & (_ & _ & _ & _ & Hfp)). eauto.
Qed.

Lemma run_call_done rank fuel c (h h' : gmap addr BaseNode) :
  ranked rank h -> run_call fuel c h = Some h' -> call_done c h'.
Proof.
  intros Hrk Hrun.
  destruct (prune_sound fuel) as (Sat & Sall & _).
  destruct (prune_settles rank fuel) as (Tat & Tall & _).
  destruct c as [a index|a]; simpl in *.
  - destruct (Sat _ _ _ _ Hrun) as (_ & _ & _ & Hflag).
    split; [|exact Hflag]. apply (Tat _ _ _ _ Hrk Hrun).
  - destruct (Sall _ _ _ Hrun) as (_ & _ & _ & Hfull).
    split; [|exact Hfull].
    destruct (h !! a) as [n|] eqn:Hn.
    + rewrite <- (insert_id h a n Hn) in Hrun.
      apply (Tall a h h' n n Hrk Hn (node_step_refl n) Hrun).
    + destruct fuel; simpl in Hrun; [discriminate|]. rewrite Hn in Hrun. discriminate.
Qed.

Lemma call_done_noop rank c (h : gmap addr BaseNode) :
  wf_links rank h -> call_done c h -> exists fuel, run_call fuel c h = Some h.
Proof.
  intros Hwf Hdone. destruct c as [a index|a]; simpl in *.
  - destruct Hdone as (Hset & n & Hn & Hflag).
    destruct (prune_noop rank (S (rank a))) as [_ Hno]. eapply Hno; eauto.
  - destruct Hdone as (Hset & n & Hn & [Hz _]).
    destruct (prune_noop rank (S (rank a))) as [Hno _]. eapply Hno; eauto.
Qed.

Lemma run_call_sound fuel c (h h' : gmap addr BaseNode) :
  run_call fuel c h = Some h' ->
  heap_step h h' /\ (count_inv_all h -> count_inv_all h') /\
  (propagated h -> propagated h').
Proof.
  intros Hrun. destruct (prune_sound fuel) as (Hat & Hall & _).
  destruct c as [a index|a]; simpl in *.
  - destruct (Hat _ _ _ _ Hrun) as (Hs & Hc & Hp & _).
    exact (conj Hs (conj Hc (Hp _))).
  - destruct (Hall _ _ _ Hrun) as (Hs & Hc & Hp & _).
    refine (conj Hs (conj Hc _)).
    intros H. apply Hp. eapply propagated_except_weaken; [|exact H].
    intros x k HE. left. exact HE.
Qed.

Lemma run_calls_done rank fuel cs : forall (h h' : gmap addr BaseNode) c,
  ranked rank h -> run_calls fuel cs h = Some h' -> call_done c h -> call_done c h'.
Proof.
  induction cs as [|c' cs IH]; intros h h' c Hrk Hrun Hdone; simpl in Hrun.
  - injection Hrun as <-. exact Hdone.
  - destruct (run_call fuel c' h) as [h1|] eqn:Hc; [|discriminate]. simpl in Hrun.
    destruct (run_call_sound fuel c' h h1 Hc) as (Hs & _).
    apply (IH h1 h' c (ranked_step rank _ _ Hs Hrk) Hrun).
    eapply call_done_step; eassumption.
Qed.

(** C4.  On well-formed acyclic parent links every sequence of
    [prune(index)] and [prune()] calls returns, and each call of the
    sequence is idempotent: repeated on the heap reached, it leaves that
    heap as it is.  The sequence keeps the two invariants: if
    [num_unpruned_actions] equals the count of unpruned flags in every
    node before, it does so afterwards, and if every fully pruned node
    has [pruned[parent_index]] set in each of its parents before, the
    same holds afterwards. *)
Theorem prune_calls_keep_invariants rank (h : gmap addr BaseNode) cs :
  wf_links rank h ->
  Forall (valid_call h) cs ->
  exists fuel h',
    (forall fuel', fuel <= fuel' -> run_calls fuel' cs h = Some h') /\
    heap_step h h' /\
    (count_inv_all h -> count_inv_all h') /\
    (propagated h -> propagated h') /\
    Forall (fun c => forall fuel', fuel <= fuel' -> run_call fuel' c h' = Some h') cs.
Proof.
  revert h. induction cs as [|c cs IH]; intros h Hwf Hv.
  - exists 0, h. split; [|split; [|split; [|split]]]; auto using heap_step_refl.
  - apply Forall_cons in Hv as [Hvc Hvs].
    destruct (run_call_terminates rank h c Hwf Hvc) as (f1 & h1 & Hrun1).
    destruct (run_call_sound f1 c h h1 Hrun1) as (Hs1 & Hc1 & Hp1).
    pose proof (wf_links_step rank _ _ Hs1 Hwf) as Hwf1.
    assert (Hvs1 : Forall (valid_call h1) cs).
    { eapply Forall_impl; [exact Hvs|]. intros c'. apply valid_call_step. exact Hs1. }
    destruct (IH h1 Hwf1 Hvs1) as (f2 & h' & Hrun2 & Hs2 & Hc2 & Hp2 & Hidem).
    pose proof (wf_links_step rank _ _ Hs2 Hwf1) as Hwf2.
    assert (Hdone : call_done c h').
    { apply (run_calls_done rank f2 cs h1 h' c (proj2 Hwf1) (Hrun2 f2 (Nat.le_refl f2))).
      apply (run_call_done rank f1 c h h1 (proj2 Hwf) Hrun1). }
    destruct (call_done_noop rank c h' Hwf2 Hdone) as [f3 Hagain].
    exists (Nat.max f1 (Nat.max f2 f3)), h'.
    split; [|split; [|split; [|split]]]; auto.
    + intros fuel' Hle. simpl.
      rewrite (run_call_mono f1 fuel' c h h1 Hrun1) by lia. simpl.
      apply Hrun2. lia.
    + eapply heap_step_trans; eassumption.
    + apply Forall_cons. split.
      * intros fuel' Hle. apply (run_call_mono f3); [exact Hagain|lia].
      * eapply Forall_impl; [exact Hidem|]. intros c' Hc' fuel' Hle. apply Hc'. lia.
Qed.

Local Ltac chain_cases H :=
  unfold chain_heap in H; rewrite !lookup_insert in H;
  repeat (case_decide; [subst; injection H as <-|]);
  [..|rewrite lookup_empty in H; discriminate H].

Lemma chain_heap_wf : wf_links (fun a => a) chain_heap.
Proof.
  split.
  - intros a n H. chain_cases H; (split; [reflexivity|]);
      intros [|k] p pi Hp Hpi; simpl in Hp, Hpi; try discriminate;
      injection Hp as <-; injection Hpi as <-;
      (eexists; split; [vm_compute; reflexivity|simpl; lia]).
  - intros a n k p H Hp. chain_cases H;
      destruct k as [|k]; simpl in Hp; try discriminate; injection Hp as <-; lia.
Defined.

Lemma chain_heap_count_inv : count_inv_all chain_heap.
Proof.
  intros a n H. chain_cases H; (split; [reflexivity|vm_compute; discriminate]).
Defined.

Lemma chain_heap_propagated : propagated chain_heap.
Proof.
  intros a n k p pi H [Hz _]. chain_cases H; vm_compute in Hz; discriminate Hz.
Defined.

Lemma prune_calls_keep_invariants_witness :
  exists fuel h',
    (forall fuel', fuel <= fuel' ->
       run_calls fuel' [PruneAll 2; PruneAt 1 0] chain_heap = Some h') /\
    heap_step chain_heap h' /\
    count_inv_all h' /\ propagated h' /\
    Forall (fun c => forall fuel', fuel <= fuel' -> run_call fuel' c h' = Some h')
           [PruneAll 2; PruneAt 1 0].
Proof.
  destruct (prune_calls_keep_invariants (fun a => a) chain_heap [PruneAll 2; PruneAt 1 0])
    as (fuel & h' & Hrun & Hs & Hc & Hp & Hidem).
  - exact chain_heap_wf.
  - repeat constructor.
    + vm_compute. eauto.
    + eexists. split; [vm_compute; reflexivity|simpl; lia].
  - exists fuel, h'. split; [exact Hrun|]. split; [exact Hs|].
    split; [exact (Hc chain_heap_count_inv)|]. split; [exact (Hp chain_heap_propagated)|].
    exact Hidem.
Defined.

(** Pruning the only slot of C twice is pruning it once. *)
Example prune_twice :
  (prune_at 10 2 0 chain_heap ≫= prune_at 10 2 0) = prune_at 10 2 0 chain_heap /\
  is_Some (prune_at 10 2 0 chain_heap).
Proof. split; [vm_compute; reflexivity|]. vm_compute. eauto. Qed.

(** Scenario S4: pruning C prunes B, which prunes A's only slot. *)
Example pruning_cascade :
  exists h' a b,
    prune 10 2 chain_heap = Some h' /\ h' !! 0 = Some a /\ h' !! 1 = Some b /\
    pruned a = [true] /\ num_unpruned_actions a = 0%Z /\
    pruned b = [true] /\ num_unpruned_actions b = 0%Z.
Proof.
  eexists _, _, _. vm_compute. repeat split; reflexivity.
Qed.

End PruneFacts.

(** ** Priors and noise *)

Section NoiseFacts.

Lemma for_loop_inv {St : Type} (P : nat -> St -> Prop) (body : nat -> St -> option St) k :
  forall i s,
    P i s ->
    (forall j s, i <= j < i + k -> P j s -> exists s', body j s = Some s' /\ P (S j) s') ->
    exists s', for_loop k i body s = Some s' /\ P (i + k) s'.
Proof.
  induction k as [|k IH]; intros i s HP Hbody; simpl.
  - exists s. rewrite Nat.add_0_r. auto.
  - destruct (Hbody i s ltac:(lia) HP) as (s1 & Hs1 & HP1). rewrite Hs1. simpl.
    destruct (IH (S i) s1 HP1) as (s' & Hs' & HP').
    + intros j s2 Hj. apply Hbody. lia.
    + exists s'. replace (i + S k) with (S i + k) by lia. auto.
Qed.

Lemma mix_special_spec special_noise noise_ratio (s : list float) :
  length special_noise <= length s ->
  exists s', mix_special special_noise noise_ratio s = Some s' /\
             mixed_special special_noise noise_ratio s s'.
Proof.
  intros Hlen. unfold mix_special.
  destruct (for_loop_inv
    (fun i s' => length s' = length s /\
       forall i' old, s !! i' = Some old ->
         s' !! i' = Some (if decide (i' < i)
                          then match special_noise !! i' with
                               | Some x => mix old x noise_ratio
                               | None => old
                               end
                          else old))
    (fun i s0 => old ← s0 !! i; x ← special_noise !! i;
                 Some (<[i := mix old x noise_ratio]> s0))
    (length special_noise) 0 s) as (s' & Hrun & Hl & Hval).
  - split; [reflexivity|]. intros i' old Hi'. destruct (decide (i' < 0)); [lia|exact Hi'].
  - intros j s0 Hj [Hl Hval].
    destruct (lookup_lt_is_Some_2 s j ltac:(lia)) as [old Hold].
    destruct (lookup_lt_is_Some_2 special_noise j ltac:(lia)) as [x Hx].
    pose proof (Hval j old Hold) as Hj0. destruct (decide (j < j)); [lia|].
    rewrite Hj0. simpl. rewrite Hx. simpl. eexists. split; [reflexivity|].
    split; [rewrite length_insert; exact Hl|].
    intros i' old' Hi'. specialize (Hval i' old' Hi').
    destruct (decide (i' = j)) as [->|Hne].
    + rewrite list_lookup_insert_eq by lia.
      destruct (decide (j < S j)); [|lia]. rewrite Hx. congruence.
    + rewrite list_lookup_insert_ne by congruence. rewrite Hval.
      destruct (decide (i' < j)), (decide (i' < S j)); try lia; reflexivity.
  - exists s'. split; [exact Hrun|]. split; [exact Hl|].
    intros i old Hi. rewrite (Hval i old Hi). simpl.
    destruct (decide (i < length special_noise)) as [Hlt|Hge]; [reflexivity|].
    rewrite (lookup_ge_None_2 special_noise i) by lia. reflexivity.
Qed.

Lemma mix_row_spec noise_row noise_ratio i (m : list (list float)) row :
  m !! i = Some row -> length noise_row <= length row ->
  exists m' row',
    for_loop (length noise_row) 0
      (fun j m0 => r ← m0 !! i; old ← r !! j; x ← noise_row !! j;
                   Some (<[i := <[j := mix old x noise_ratio]> r]> m0)) m = Some m' /\
    length m' = length m /\
    (forall i', i' <> i -> m' !! i' = m !! i') /\
    m' !! i = Some row' /\ length row' = length row /\
    forall j old, row !! j = Some old ->
      row' !! j = Some (match noise_row !! j with
                        | Some x => mix old x noise_ratio
                        | None => old
                        end).
Proof.
  intros Hrow Hlen.
  destruct (for_loop_inv
    (fun j m0 => length m0 = length m /\
       (forall i', i' <> i -> m0 !! i' = m !! i') /\
       exists r, m0 !! i = Some r /\ length r = length row /\
         forall j' old, row !! j' = Some old ->
           r !! j' = Some (if decide (j' < j)
                           then match noise_row !! j' with
                                | Some x => mix old x noise_ratio
                                | None => old
                                end
                           else old))
    (fun j m0 => r ← m0 !! i; old ← r !! j; x ← noise_row !! j;
                 Some (<[i := <[j := mix old x noise_ratio]> r]> m0))
    (length noise_row) 0 m) as (m' & Hrun & Hl & Hoth & r & Hr & Hrl & Hval).
  - split; [reflexivity|]. split; [auto|]. exists row. split; [exact Hrow|].
    split; [reflexivity|]. intros j' old Hj'. destruct (decide (j' < 0)); [lia|exact Hj'].
  - intros j m0 Hj (Hl & Hoth & r & Hr & Hrl & Hval).
    destruct (lookup_lt_is_Some_2 row j ltac:(lia)) as [old Hold].
    destruct (lookup_lt_is_Some_2 noise_row j ltac:(lia)) as [x Hx].
    pose proof (Hval j old Hold) as Hj0. destruct (decide (j < j)); [lia|].
    rewrite Hr. simpl. rewrite Hj0. simpl. rewrite Hx. simpl.
    pose proof (lookup_lt_Some _ _ _ Hr) as Hi.
    eexists. split; [reflexivity|].
    split; [rewrite length_insert; exact Hl|].
    split; [intros i' Hne; rewrite list_lookup_insert_ne by congruence; auto|].
    eexists. split; [apply list_lookup_insert_eq; exact Hi|].
    split; [rewrite length_insert; exact Hrl|].
    intros j' old' Hj'. specialize (Hval j' old' Hj').
    destruct (decide (j' = j)) as [->|Hne].
    + rewrite list_lookup_insert_eq by lia.
      destruct (decide (j < S j)); [|lia]. rewrite Hx. congruence.
    + rewrite list_lookup_insert_ne by congruence. rewrite Hval.
      destruct (decide (j' < j)), (decide (j' < S j)); try lia; reflexivity.
  - exists m', r. repeat split; auto.
    intros j old Hj. rewrite (Hval j old Hj). simpl.
    destruct (decide (j < length noise_row)) as [Hlt|Hge]; [reflexivity|].
    rewrite (lookup_ge_None_2 noise_row j) by lia. reflexivity.
Qed.

Lemma mix_meta_spec meta_noise noise_ratio (m : list (list float)) :
  noise_fits meta_noise m ->
  exists m', mix_meta meta_noise noise_ratio m = Some m' /\
             mixed_meta meta_noise noise_ratio m m'.
Proof.
  intros Hfit. unfold mix_meta.
  destruct (for_loop_inv
    (fun i m0 => length m0 = length m /\
       forall i' row, m !! i' = Some row ->
         exists row', m0 !! i' = Some row' /\ length row' = length row /\
           forall j old, row !! j = Some old ->
             row' !! j = Some (if decide (i' < i)
                               then match meta_noise !! i' ≫= (fun r => r !! j) with
                                    | Some x => mix old x noise_ratio
                                    | None => old
                                    end
                               else old))
    (fun i m0 =>
       noise_row ← meta_noise !! i;
       for_loop (length noise_row) 0
         (fun j m1 => row ← m1 !! i; old ← row !! j; x ← noise_row !! j;
                      Some (<[i := <[j := mix old x noise_ratio]> row]> m1)) m0)
    (length meta_noise) 0 m) as (m' & Hrun & Hl & Hval).
  - split; [reflexivity|]. intros i' row Hi'. exists row.
    split; [exact Hi'|]. split; [reflexivity|]. intros j old Hj. exact Hj.
  - intros i m0 Hi [Hl Hval].
    destruct (lookup_lt_is_Some_2 meta_noise i ltac:(lia)) as [noise_row Hnr].
    destruct (Hfit i noise_row Hnr) as (row & Hrow & Hfl).
    destruct (Hval i row Hrow) as (row0 & Hrow0 & Hl0 & Hv0).
    rewrite Hnr. simpl.
    destruct (mix_row_spec noise_row noise_ratio i m0 row0 Hrow0 ltac:(lia))
      as (m1 & row1 & Hrun1 & Hl1 & Hoth1 & Hrow1 & Hrl1 & Hv1).
    exists m1. split; [exact Hrun1|]. split; [congruence|].
    intros i' r Hr. destruct (decide (i' = i)) as [->|Hne].
    + assert (r = row) as -> by congruence.
      exists row1. split; [exact Hrow1|]. split; [congruence|].
      intros j old Hj. destruct (decide (i < S i)); [|lia].
      rewrite Hnr. simpl. apply Hv1.
      rewrite (Hv0 j old Hj). destruct (decide (i < i)); [lia|reflexivity].
    + destruct (Hval i' r Hr) as (r' & Hr' & Hrl & Hv).
      exists r'. rewrite Hoth1 by congruence. repeat split; auto.
      intros j old Hj. rewrite (Hv j old Hj).
      destruct (decide (i' < i)), (decide (i' < S i)); try lia; reflexivity.
  - exists m'. split; [exact Hrun|]. split; [exact Hl|].
    intros i row Hrow. destruct (Hval i row Hrow) as (row' & Hrow' & Hrl & Hv).
    exists row'. repeat split; auto.
    intros j old Hj. rewrite (Hv j old Hj). simpl.
    destruct (decide (i < length meta_noise)) as [Hlt|Hge]; [reflexivity|].
    rewrite (lookup_ge_None_2 meta_noise i) by lia. reflexivity.
Qed.

End NoiseFacts.

Section AddNoise.

Lemma gather_priors_is_Some (values : list float) (indices : list abc_t) :
  Forall (fun c => c < length values) indices ->
  exists pr, gather_priors values indices = Some pr /\ length pr = length indices.
Proof.
  intros Hall. unfold gather_priors.
  assert (Hm : is_Some (mapM (fun index => values !! index) indices)).
  { apply mapM_is_Some. eapply Forall_impl; [exact Hall|].
    intros c Hc. simpl. apply lookup_lt_is_Some_2. exact Hc. }
  destruct Hm as [ret Hret]. rewrite Hret. simpl. eexists. split; [reflexivity|].
  unfold normalize. rewrite length_map. symmetry. eapply length_mapM. eassumption.
Qed.

(** C5 (as the code has it).  [add_noise] ends in [evaluate], which
    returns at once on an evaluated node: with the priors attached the
    node is left as it is.  On an expanded node whose priors have been
    cleared, [add_noise] stores the mixed meta and special priors
    [old * (1 - ratio) + noise * ratio] and sets the priors to the ones
    gathered from the first mixed row. *)
Theorem add_noise_effect meta_noise special_noise noise_ratio t row0 :
  is_expanded (base t) = true ->
  noise_fits meta_noise (meta_priors t) ->
  length special_noise <= length (special_priors t) ->
  meta_priors t !! 0 = Some row0 ->
  Forall (fun c => c < length row0) (permissible_chars (base t)) ->
  (is_evaluated (base t) = true ->
     add_noise meta_noise special_noise noise_ratio t = Some t) /\
  is_evaluated (base (tree_clear_priors t)) = false /\
  exists m' s' row' pr,
    add_noise meta_noise special_noise noise_ratio (tree_clear_priors t)
      = Some (mkTreeNode (set_priors pr (base t)) (words t) (dist t) (done t) m' s') /\
    mixed_meta meta_noise noise_ratio (meta_priors t) m' /\
    mixed_special special_noise noise_ratio (special_priors t) s' /\
    m' !! 0 = Some row' /\
    gather_priors row' (permissible_chars (base t)) = Some pr.
Proof.
  intros Hex Hfit Hsl Hrow0 Hchars.
  destruct (mix_meta_spec meta_noise noise_ratio (meta_priors t) Hfit) as (m' & Hm & Hmm).
  destruct (mix_special_spec special_noise noise_ratio (special_priors t) Hsl)
    as (s' & Hs & Hss).
  split; [|split; [reflexivity|]].
  - intros Hev. unfold add_noise. rewrite Hm. simpl. rewrite Hs. simpl.
    unfold evaluate. rewrite Hex, Hev. reflexivity.
  - destruct Hmm as [Hl Hrows].
    destruct (Hrows 0 row0 Hrow0) as (row' & Hrow' & Hrl & _).
    destruct (gather_priors_is_Some row' (permissible_chars (base t))) as (pr & Hpr & _).
    { rewrite Hrl. exact Hchars. }
    exists m', s', row', pr.
    split; [|split; [split; assumption|split; [exact Hss|split; assumption]]].
    unfold add_noise, tree_clear_priors, with_base. simpl.
    rewrite Hm. simpl. rewrite Hs. simpl.
    unfold evaluate. simpl.
    change (is_expanded (clear_priors (base t))) with (is_expanded (base t)).
    rewrite Hex. simpl. rewrite Hrow'. simpl. rewrite Hpr. simpl. reflexivity.
Qed.

Lemma add_noise_effect_witness :
  add_noise [[f_1_0; fzero]] [] f_0_5 evaluated_tree_node = Some evaluated_tree_node /\
  exists t',
    add_noise [[f_1_0; fzero]] [] f_0_5 (tree_clear_priors evaluated_tree_node) = Some t' /\
    mixed_meta [[f_1_0; fzero]] f_0_5 (meta_priors evaluated_tree_node) (meta_priors t').
Proof.
  destruct (add_noise_effect [[f_1_0; fzero]] [] f_0_5 evaluated_tree_node [f_1_0; f_1_0])
    as (Ha & _ & m' & s' & row' & pr & Hb & Hmm & _).
  - reflexivity.
  - intros [|[|i]] noise_row H; simpl in H; try discriminate.
    injection H as <-. exists [f_1_0; f_1_0]. split; [reflexivity|simpl; lia].
  - simpl. lia.
  - reflexivity.
  - repeat constructor.
  - split; [apply Ha; reflexivity|].
    eexists. split; [exact Hb|exact Hmm].
Defined.

(** C5 (as stated) fails: on the evaluated node with priors gathered
    from [[1.0, 1.0]], adding the noise [[1.0, 0.0]] with ratio 0.5
    leaves the node as it is, while the priors gathered from the mixed
    row differ from the ones attached. *)
Lemma add_noise_keeps_attached_priors :
  is_evaluated (base evaluated_tree_node) = true /\
  add_noise [[f_1_0; fzero]] [] f_0_5 evaluated_tree_node = Some evaluated_tree_node /\
  exists m' pr',
    mix_meta [[f_1_0; fzero]] f_0_5 (meta_priors evaluated_tree_node) = Some m' /\
    (m' !! 0 ≫= fun row => gather_priors row (permissible_chars (base evaluated_tree_node)))
      = Some pr' /\
    m' <> meta_priors evaluated_tree_node /\
    pr' <> priors (base evaluated_tree_node).
Proof.
  split; [reflexivity|]. split; [vm_compute; reflexivity|].
  eexists _, _. split; [vm_compute; reflexivity|].
  split; [vm_compute; reflexivity|]. split; vm_compute; discriminate.
Qed.

End AddNoise.

(** ** The transposition table *)

Section TTableFacts.
Variable get_edit_dist_at : Word_ptr -> nat -> float.

Lemma get_tree_node_from_hit nn ws st p :
  t_table st !! ws = Some p -> get_tree_node_from nn ws st = (p, st).
Proof.
  intros Hp. unfold get_tree_node_from, Trie_get. rewrite Hp.
  rewrite delete_insert_id.
  - destruct st. reflexivity.
  - apply not_elem_of_dom_1, is_fresh.
Qed.

Lemma get_tree_node_from_miss nn ws st :
  t_table st !! ws = None ->
  get_tree_node_from nn ws st =
    (fresh (dom (nodes st)),
     mkStore (<[fresh (dom (nodes st)) := nn]> (nodes st))
             (<[ws := fresh (dom (nodes st))]> (t_table st))).
Proof.
  intros Hp. unfold get_tree_node_from, Trie_get. rewrite Hp. reflexivity.
Qed.

Lemma get_tree_node_from_records nn ws st :
  t_table (snd (get_tree_node_from nn ws st)) !! ws = Some (fst (get_tree_node_from nn ws st)).
Proof.
  destruct (t_table st !! ws) as [p|] eqn:Hp.
  - rewrite (get_tree_node_from_hit nn ws st p Hp). exact Hp.
  - rewrite (get_tree_node_from_miss nn ws st Hp). simpl. apply lookup_insert_eq.
Qed.

Lemma get_tree_node_from_keeps nn ws ws' st p :
  t_table st !! ws = Some p ->
  t_table (snd (get_tree_node_from nn ws' st)) !! ws = Some p.
Proof.
  intros Hp. destruct (t_table st !! ws') as [q|] eqn:Hq.
  - rewrite (get_tree_node_from_hit nn ws' st q Hq). exact Hp.
  - rewrite (get_tree_node_from_miss nn ws' st Hq). simpl.
    rewrite lookup_insert_ne; [exact Hp|]. intros ->. congruence.
Qed.

Lemma lookup_call_from o ws st :
  exists nn, lookup_call get_edit_dist_at o ws st = get_tree_node_from nn ws st.
Proof. destruct o; eexists; reflexivity. Qed.

Lemma lookup_calls_keep cs : forall st ws p,
  t_table st !! ws = Some p ->
  t_table (lookup_calls get_edit_dist_at cs st) !! ws = Some p.
Proof.
  induction cs as [|[o ws'] cs IH]; intros st ws p Hp; simpl; [exact Hp|].
  apply IH. destruct (lookup_call_from o ws' st) as [nn ->].
  apply get_tree_node_from_keeps. exact Hp.
Qed.

(** C6.  Two calls of [get_tree_node] with equal word sequences, of
    either overload and with any calls in between, return the same node;
    the later call finds the canonical node, discards its candidate and
    leaves the store and the node count of the table as they were. *)
Theorem get_tree_node_idempotent o1 o2 ws cs st :
  let r1 := lookup_call get_edit_dist_at o1 ws st in
  let st2 := lookup_calls get_edit_dist_at cs (snd r1) in
  let r2 := lookup_call get_edit_dist_at o2 ws st2 in
  fst r2 = fst r1 /\
  snd r2 = st2 /\
  t_table st2 !! ws = Some (fst r1) /\
  get_num_nodes (snd r2) = get_num_nodes st2.
Proof.
  intros r1 st2 r2.
  assert (H1 : t_table (snd r1) !! ws = Some (fst r1)).
  { unfold r1. destruct (lookup_call_from o1 ws st) as [nn ->].
    apply get_tree_node_from_records. }
  assert (H2 : t_table st2 !! ws = Some (fst r1)).
  { unfold st2. apply lookup_calls_keep. exact H1. }
  assert (H3 : r2 = (fst r1, st2)).
  { unfold r2. destruct (lookup_call_from o2 ws st2) as [nn ->].
    apply get_tree_node_from_hit. exact H2. }
  rewrite H3. simpl. auto.
Qed.

(** Scenario S5: a state reached twice is one node, and the table
    grows by one. *)
Example transposition_sharing :
  let st0 := mkStore ∅ ∅ in
  let r1 := get_tree_node get_edit_dist_at [3; 4] st0 in
  let r2 := get_tree_node_stopped get_edit_dist_at [3; 4] false (snd r1) in
  fst r1 = fst r2 /\ get_num_nodes st0 = 0 /\ get_num_nodes (snd r2) = 1.
Proof.
  simpl. split; [|split]; reflexivity.
Qed.

End TTableFacts.

(** ** Arrays in and out *)

Section MarshalFacts.
Variable PAD_ID : Z.

Lemma np2vocab_row arr i row m :
  cells arr !! i = Some row -> m <= length row ->
  for_loop m 0 (fun j (id_seq : IdSeq) => x ← get2 arr i j; Some (<[j := x]> id_seq))
           (replicate m 0%Z) = Some (take m row).
Proof.
  intros Hrow Hm.
  destruct (for_loop_inv
    (fun j (s : IdSeq) => length s = m /\ forall j', j' < j -> s !! j' = row !! j')
    (fun j (id_seq : IdSeq) => x ← get2 arr i j; Some (<[j := x]> id_seq))
    m 0 (replicate m 0%Z)) as (s & Hrun & Hl & Hval).
  - split; [apply length_replicate|]. intros j' Hj'. lia.
  - intros j s Hj [Hl Hval].
    destruct (lookup_lt_is_Some_2 row j ltac:(lia)) as [x Hx].
    unfold get2. rewrite Hrow. simpl. rewrite Hx. simpl.
    eexists. split; [reflexivity|]. split; [rewrite length_insert; exact Hl|].
    intros j' Hj'. destruct (decide (j' = j)) as [->|Hne].
    + rewrite list_lookup_insert_eq by lia. congruence.
    + rewrite list_lookup_insert_ne by congruence. apply Hval. lia.
  - rewrite Hrun. f_equal. apply list_eq. intros k.
    destruct (decide (k < m)) as [Hk|Hk].
    + rewrite lookup_take_lt by exact Hk. apply Hval. lia.
    + rewrite lookup_take_ge by lia. apply lookup_ge_None_2. lia.
Qed.

Lemma np2vocab_spec arr lengths :
  wf_array arr -> length lengths = shape0 arr ->
  (forall i len, lengths !! i = Some len -> (0 <= len <= Z.of_nat (shape1 arr))%Z) ->
  exists v,
    np2vocab arr lengths (shape0 arr) = Some v /\
    length v = shape0 arr /\
    forall i row len, cells arr !! i = Some row -> lengths !! i = Some len ->
      v !! i = Some (take (Z.to_nat len) row).
Proof.
  intros [Hn Hrows] Hll Hrange. unfold np2vocab.
  destruct (for_loop_inv
    (fun i (v : VocabIdSeq) => length v = shape0 arr /\
       forall i' row len, i' < i -> cells arr !! i' = Some row -> lengths !! i' = Some len ->
         v !! i' = Some (take (Z.to_nat len) row))
    (fun i (vocab_i : VocabIdSeq) =>
       m ← lengths !! i;
       if (m <? 0)%Z then None
       else
         id_seq ← for_loop (Z.to_nat m) 0
                    (fun j (id_seq : IdSeq) => x ← get2 arr i j; Some (<[j := x]> id_seq))
                    (replicate (Z.to_nat m) 0%Z);
         Some (<[i := id_seq]> vocab_i))
    (shape0 arr) 0 (replicate (shape0 arr) [])) as (v & Hrun & Hl & Hval).
  - split; [apply length_replicate|]. intros i' row len Hi'. lia.
  - intros i v Hi [Hl Hval].
    destruct (lookup_lt_is_Some_2 lengths i ltac:(lia)) as [len Hlen].
    destruct (lookup_lt_is_Some_2 (cells arr) i ltac:(lia)) as [row Hrow].
    pose proof (Hrange i len Hlen) as Hr.
    assert (Hrl : length row = shape1 arr).
    { rewrite Forall_forall in Hrows. apply Hrows.
      eapply list_elem_of_lookup_2. eassumption. }
    rewrite Hlen. simpl. destruct (Z.ltb_spec len 0) as [Hneg|_]; [lia|].
    rewrite (np2vocab_row arr i row (Z.to_nat len) Hrow) by lia. simpl.
    eexists. split; [reflexivity|]. split; [rewrite length_insert; exact Hl|].
    intros i' row' len' Hi' Hrow' Hlen'. destruct (decide (i' = i)) as [->|Hne].
    + rewrite list_lookup_insert_eq by lia. congruence.
    + rewrite list_lookup_insert_ne by congruence. eapply Hval; eauto. lia.
  - exists v. split; [exact Hrun|]. split; [exact Hl|].
    intros i row len Hrow Hlen. eapply Hval; eauto.
    apply lookup_lt_Some in Hrow. lia.
Qed.

Lemma longest_spec (v : VocabIdSeq) :
  exists m,
    for_loop (length v) 0
      (fun i (m : nat) => id_seq ← v !! i; Some (Nat.max m (length id_seq))) 0 = Some m /\
    forall i s, v !! i = Some s -> length s <= m.
Proof.
  destruct (for_loop_inv
    (fun i (m : nat) => forall i' s, i' < i -> v !! i' = Some s -> length s <= m)
    (fun i (m : nat) => id_seq ← v !! i; Some (Nat.max m (length id_seq)))
    (length v) 0 0) as (m & Hrun & Hval).
  - intros i' s Hi'. lia.
  - intros i m Hi Hval.
    destruct (lookup_lt_is_Some_2 v i ltac:(lia)) as [s Hs].
    rewrite Hs. simpl. eexists. split; [reflexivity|].
    intros i' s' Hi' Hs'. destruct (decide (i' = i)) as [->|Hne].
    + assert (s' = s) as -> by congruence. lia.
    + specialize (Hval i' s' ltac:(lia) Hs'). lia.
  - exists m. split; [exact Hrun|]. intros i s Hs. eapply Hval; [|exact Hs].
    apply lookup_lt_Some in Hs. lia.
Qed.

Lemma pad_step (s : IdSeq) j x m :
  s !! j = Some x -> length s <= m ->
  <[j := x]> (take j s ++ replicate (m - j) PAD_ID)
    = take (S j) s ++ replicate (m - S j) PAD_ID.
Proof.
  intros Hx Hm. pose proof (lookup_lt_Some _ _ _ Hx) as Hj.
  rewrite (take_S_r s j x Hx).
  replace (m - j) with (S (m - S j)) by lia. rewrite replicate_S.
  rewrite <- app_assoc. simpl.
  replace j with (length (take j s) + 0) at 1 by (rewrite length_take_le; lia).
  rewrite insert_app_r. reflexivity.
Qed.

Lemma vocab2np_row (arr : ndarray) i (id_seq : IdSeq) m :
  cells arr !! i = Some (replicate m PAD_ID) -> length id_seq <= m ->
  for_loop (length id_seq) 0
    (fun j (a : ndarray) => x ← id_seq !! j; set2 a i j x) arr
  = Some (mkArr (shape0 arr) (shape1 arr)
            (<[i := id_seq ++ replicate (m - length id_seq) PAD_ID]> (cells arr))).
Proof.
  intros Hrow Hm. pose proof (lookup_lt_Some _ _ _ Hrow) as Hi.
  destruct (for_loop_inv
    (fun j (a : ndarray) =>
       a = mkArr (shape0 arr) (shape1 arr)
             (<[i := take j id_seq ++ replicate (m - j) PAD_ID]> (cells arr)))
    (fun j (a : ndarray) => x ← id_seq !! j; set2 a i j x)
    (length id_seq) 0 arr) as (a & Hrun & Ha).
  - simpl. rewrite Nat.sub_0_r, list_insert_id by exact Hrow. destruct arr. reflexivity.
  - intros j a Hj ->.
    destruct (lookup_lt_is_Some_2 id_seq j ltac:(lia)) as [x Hx].
    rewrite Hx. simpl. unfold set2. simpl.
    rewrite list_lookup_insert_eq by exact Hi. simpl.
    assert (Hsome : is_Some ((take j id_seq ++ replicate (m - j) PAD_ID) !! j)).
    { apply lookup_lt_is_Some_2. rewrite length_app, length_take_le, length_replicate; lia. }
    destruct Hsome as [y Hy]. rewrite Hy. simpl.
    eexists. split; [reflexivity|].
    rewrite list_insert_insert_eq, (pad_step id_seq j x m Hx Hm). reflexivity.
  - rewrite Hrun, Ha. simpl. rewrite take_ge by lia. reflexivity.
Qed.

Lemma vocab2np_spec (v : VocabIdSeq) :
  exists m out,
    vocab2np PAD_ID v = Some out /\
    shape0 out = length v /\ shape1 out = m /\ length (cells out) = length v /\
    (forall i s, v !! i = Some s -> length s <= m) /\
    forall i s, v !! i = Some s ->
      cells out !! i = Some (s ++ replicate (m - length s) PAD_ID).
Proof.
  destruct (longest_spec v) as (m & Hm & Hle).
  unfold vocab2np. rewrite Hm. simpl.
  destruct (for_loop_inv
    (fun i (a : ndarray) =>
       shape0 a = length v /\ shape1 a = m /\ length (cells a) = length v /\
       forall i' s, v !! i' = Some s ->
         cells a !! i' = Some (if decide (i' < i)
                               then s ++ replicate (m - length s) PAD_ID
                               else replicate m PAD_ID))
    (fun i (arr : ndarray) =>
       id_seq ← v !! i;
       for_loop (length id_seq) 0
         (fun j (arr : ndarray) => x ← id_seq !! j; set2 arr i j x) arr)
    (length v) 0 (np_full (length v) m PAD_ID)) as (out & Hrun & H0 & H1 & Hl & Hval).
  - simpl. rewrite length_replicate. repeat split; try reflexivity.
    intros i' s Hs. apply lookup_lt_Some in Hs.
    rewrite lookup_replicate_2 by exact Hs. reflexivity.
  - intros i a Hi (H0 & H1 & Hl & Hval).
    destruct (lookup_lt_is_Some_2 v i ltac:(lia)) as [s Hs].
    rewrite Hs. simpl.
    pose proof (Hval i s Hs) as Hrow. destruct (decide (i < i)); [lia|].
    rewrite (vocab2np_row a i s m Hrow (Hle i s Hs)).
    eexists. split; [reflexivity|]. simpl.
    split; [exact H0|]. split; [exact H1|].
    split; [rewrite length_insert; exact Hl|].
    intros i' s' Hs'. destruct (decide (i' = i)) as [->|Hne].
    + rewrite list_lookup_insert_eq by lia.
      destruct (decide (i < S i)); [|lia]. congruence.
    + rewrite list_lookup_insert_ne by congruence. rewrite (Hval i' s' Hs').
      destruct (decide (i' < i)), (decide (i' < S i)); try lia; reflexivity.
  - exists m, out. split; [exact Hrun|]. repeat split; auto.
    intros i s Hs. rewrite (Hval i s Hs).
    apply lookup_lt_Some in Hs. simpl. destruct (decide (i < length v)); [reflexivity|lia].
Qed.

(** C7.  For an [N x M] array and a [lengths] vector of [N] entries
    between 0 and [M], [np2vocab] followed by [vocab2np] succeeds and
    yields an [N x M'] array in which row [i] starts with the first
    [lengths[i]] cells of the original row, every other cell is [PAD],
    and [M'] is at least every length. *)
Theorem np2vocab_vocab2np_round_trip arr lengths :
  wf_array arr -> length lengths = shape0 arr ->
  (forall i len, lengths !! i = Some len -> (0 <= len <= Z.of_nat (shape1 arr))%Z) ->
  exists v out,
    np2vocab arr lengths (shape0 arr) = Some v /\
    vocab2np PAD_ID v = Some out /\
    padded_copy PAD_ID arr lengths out.
Proof.
  intros Hwf Hll Hrange.
  destruct (np2vocab_spec arr lengths Hwf Hll Hrange) as (v & Hv & Hvl & Hvrow).
  destruct (vocab2np_spec v) as (m & out & Hout & H0 & H1 & Hcl & Hle & Hrow).
  destruct Hwf as [Hn Hrows].
  assert (Hrl : forall i row, cells arr !! i = Some row -> length row = shape1 arr).
  { intros i row Hi. rewrite Forall_forall in Hrows. apply Hrows.
    eapply list_elem_of_lookup_2. eassumption. }
  exists v, out. split; [exact Hv|]. split; [exact Hout|].
  unfold padded_copy. split; [|split; [congruence|split]].
  - split; [congruence|]. apply Forall_forall. intros r Hr.
    apply list_elem_of_lookup_1 in Hr as [i Hi].
    destruct (lookup_lt_is_Some_2 v i) as [s Hs].
    { apply lookup_lt_Some in Hi. lia. }
    rewrite (Hrow i s Hs) in Hi. injection Hi as <-.
    rewrite length_app, length_replicate. specialize (Hle i s Hs). lia.
  - intros i len Hlen.
    destruct (lookup_lt_is_Some_2 (cells arr) i) as [row Hi].
    { apply lookup_lt_Some in Hlen. lia. }
    pose proof (Hvrow i row len Hi Hlen) as Hs.
    pose proof (Hle i _ Hs) as Hm. pose proof (Hrange i len Hlen) as Hr.
    rewrite length_take_le in Hm by (rewrite (Hrl i row Hi); lia). lia.
  - intros i row len Hi Hlen.
    pose proof (Hvrow i row len Hi Hlen) as Hs.
    pose proof (Hle i _ Hs) as Hm. pose proof (Hrange i len Hlen) as Hr.
    assert (Htl : length (take (Z.to_nat len) row) = Z.to_nat len).
    { apply length_take_le. rewrite (Hrl i row Hi). lia. }
    eexists. split; [apply Hrow; exact Hs|].
    intros j Hj. rewrite Htl. destruct (decide (Z.of_nat j < len)%Z) as [Hlt|Hge].
    + rewrite lookup_app_l by lia. apply lookup_take_lt. lia.
    + rewrite lookup_app_r by lia. apply lookup_replicate_2. lia.
Qed.

End MarshalFacts.

Lemma np2vocab_vocab2np_round_trip_witness :
  exists v out,
    np2vocab (mkArr 2 3 [[1; 2; 3]; [4; 0; 0]]%Z) [3; 1]%Z 2 = Some v /\
    vocab2np 0%Z v = Some out /\
    padded_copy 0%Z (mkArr 2 3 [[1; 2; 3]; [4; 0; 0]]%Z) [3; 1]%Z out.
Proof.
  apply (np2vocab_vocab2np_round_trip 0%Z (mkArr 2 3 [[1; 2; 3]; [4; 0; 0]]%Z) [3; 1]%Z).
  - split; [reflexivity|]. repeat constructor.
  - reflexivity.
  - intros [|[|i]] len H; simpl in H; try discriminate; injection H as <-; simpl; lia.
Defined.

(** A word whose length is shorter than the array is wide comes back
    narrower: the array read back is as wide as the longest word. *)
Example round_trip_narrower :
  (v ← np2vocab (mkArr 2 3 [[1; 2; 0]; [4; 0; 0]]%Z) [2; 1]%Z 2; vocab2np 0%Z v)
    = Some (mkArr 2 2 [[1; 2]; [4; 0]]%Z).
Proof. reflexivity. Qed.

(** ** The Python wrappers *)

Module DriverFacts.
Import Driver.

Lemma has_acted_false t id : edges t !! id = None -> has_acted t id = false.
Proof.
  intros H. unfold has_acted. apply bool_decide_eq_false_2.
  rewrite H. intros [x Hx]. discriminate.
Qed.

(** C8.  [get_action] with an id outside [0, size) and [get_edge] with
    an id the node has not acted with both end with a Python exception
    handed to the caller (a [ValueError], or the [OverflowError] of an id
    that is no C [long]), never outside defined behaviour, and leave the
    action space and the nodes as they were. *)
Theorem failed_lookups_raise (w : World) :
  (forall self s id,
     spaces w !! as_ptr self = Some s ->
     ~ (0 <= id < py_len s)%Z ->
     exists e, get_action self id w = (Raised e, w) /\
       (fits_long id = true -> e = ValueError "Action id out of bound.")) /\
  (forall self t id,
     tnodes w !! tn_ptr self = Some t ->
     edges t !! id = None ->
     exists e, get_edge self id w = (Raised e, w) /\
       (fits_long id = true ->
        e = ValueError ("Action " +:+ pretty id +:+ " has not been explored."))).
Proof.
  split.
  - intros self s id Hs Hout. unfold get_action.
    destruct (fits_long id) eqn:Hf.
    + rewrite Hs.
      destruct (Z.leb_spec (py_len s) id) as [Hle|Hlt]; simpl.
      * eexists. split; [reflexivity|]. reflexivity.
      * destruct (Z.ltb_spec id 0) as [Hneg|Hpos]; [|lia].
        eexists. split; [reflexivity|]. reflexivity.
    + eexists. split; [reflexivity|]. discriminate.
  - intros self t id Ht Hno. unfold get_edge.
    destruct (fits_long id) eqn:Hf.
    + rewrite Ht, (has_acted_false t id Hno).
      eexists. split; [reflexivity|]. reflexivity.
    + eexists. split; [reflexivity|]. discriminate.
Qed.

Lemma failed_lookups_raise_witness :
  get_action (mkPyActionSpace 0) 2 sample_world
    = (Raised (ValueError "Action id out of bound."), sample_world) /\
  get_edge (mkPyTreeNode 0) 1 sample_world
    = (Raised (ValueError "Action 1 has not been explored."), sample_world).
Proof.
  destruct (failed_lookups_raise sample_world) as [Ha He]. split.
  - destruct (Ha (mkPyActionSpace 0) (mkActionSpace [mkAction 0 3 4; mkAction 1 4 5]) 2%Z)
      as (e & Hrun & Hmsg).
    + reflexivity.
    + unfold py_len. simpl. lia.
    + rewrite Hrun, (Hmsg eq_refl). reflexivity.
  - destruct (He (mkPyTreeNode 0)
                 (mkTreeNode [[3; 4]%Z] None 1 false {[ 0%Z := (1, fzero) ]}) 1%Z)
      as (e & Hrun & Hmsg).
    + reflexivity.
    + reflexivity.
    + rewrite Hrun, (Hmsg eq_refl). reflexivity.
Defined.

End DriverFacts.

(** ** Rounding keeps positive numbers positive *)

Section RoundPositive.
Local Open Scope Z_scope.
Variables prec emax : Z.
Hypothesis prec_pos : 0 < prec.

Lemma digits2_pos_lower m : 2 ^ (Zpos (digits2_pos m) - 1) <= Zpos m.
Proof.
  induction m as [p IH|p IH|]; simpl digits2_pos.
  - rewrite Pos2Z.inj_succ.
    replace (Z.succ (Zpos (digits2_pos p)) - 1) with (Z.succ (Zpos (digits2_pos p) - 1)) by lia.
    rewrite Z.pow_succ_r by lia. lia.
  - rewrite Pos2Z.inj_succ.
    replace (Z.succ (Zpos (digits2_pos p)) - 1) with (Z.succ (Zpos (digits2_pos p) - 1)) by lia.
    rewrite Z.pow_succ_r by lia. lia.
  - simpl. lia.
Qed.

Lemma shr_1_div2 mrs : 0 <= shr_m mrs -> shr_m (shr_1 mrs) = shr_m mrs / 2.
Proof.
  destruct mrs as [m r s]. cbn [shr_m]. intros Hm.
  destruct m as [|[p|p|]|p]; cbn [shr_1 shr_m];
    first [ reflexivity
          | apply (Z.div_unique (Zpos p~1) 2 (Zpos p) 1); lia
          | apply (Z.div_unique (Zpos p~0) 2 (Zpos p) 0); lia
          | lia ].
Qed.

Lemma iter_shr_1_div p : forall mrs,
  0 <= shr_m mrs ->
  shr_m (SpecFloat.iter_pos shr_1 p mrs) = shr_m mrs / 2 ^ Zpos p.
Proof.
  assert (Hnn : forall a b, 0 <= a -> 0 < b -> 0 <= a / b)
    by (intros; apply Z.div_pos; lia).
  induction p as [p IH|p IH|]; intros mrs Hm; simpl SpecFloat.iter_pos.
  - assert (H1 : 0 <= shr_m (shr_1 mrs)) by (rewrite shr_1_div2 by lia; apply Hnn; lia).
    assert (Hp : 0 < 2 ^ Zpos p) by (apply Z.pow_pos_nonneg; lia).
    assert (H2 : 0 <= shr_m (SpecFloat.iter_pos shr_1 p (shr_1 mrs)))
      by (rewrite IH by lia; apply Hnn; lia).
    rewrite IH, IH, shr_1_div2 by lia.
    assert (E : 2 ^ Zpos p~1 = 2 * 2 ^ Zpos p * 2 ^ Zpos p).
    { replace (Zpos p~1) with (1 + Zpos p + Zpos p) by lia.
      rewrite !Z.pow_add_r by lia. reflexivity. }
    rewrite E, <- !Z.div_div by lia. reflexivity.
  - assert (Hp : 0 < 2 ^ Zpos p) by (apply Z.pow_pos_nonneg; lia).
    assert (H2 : 0 <= shr_m (SpecFloat.iter_pos shr_1 p mrs))
      by (rewrite IH by lia; apply Hnn; lia).
    rewrite IH, IH by lia.
    assert (E : 2 ^ Zpos p~0 = 2 ^ Zpos p * 2 ^ Zpos p).
    { replace (Zpos p~0) with (Zpos p + Zpos p) by lia.
      rewrite !Z.pow_add_r by lia. reflexivity. }
    rewrite E, <- !Z.div_div by lia. reflexivity.
  - rewrite shr_1_div2 by lia. reflexivity.
Qed.

Lemma shr_record_of_loc_m m l : shr_m (shr_record_of_loc m l) = m.
Proof. destruct l as [|[]]; reflexivity. Qed.

Lemma shr_fexp_pos m e l :
  emin prec emax <= e ->
  exists mrs e' m',
    shr_fexp prec emax (Zpos m) e l = (mrs, e') /\ shr_m mrs = Zpos m' /\ e <= e'.
Proof.
  intros He. unfold shr_fexp, shr. simpl Zdigits2.
  destruct (fexp prec emax (Zpos (digits2_pos m) + e) - e) as [|p|p] eqn:En.
  - eexists _, _, m. split; [reflexivity|]. rewrite shr_record_of_loc_m. split; [reflexivity|lia].
  - assert (Hp : Zpos p = Zpos (digits2_pos m) - prec).
    { unfold fexp in En. lia. }
    assert (Hdiv : 0 < Zpos m / 2 ^ Zpos p).
    { apply Z.div_str_pos. split; [apply Z.pow_pos_nonneg; lia|].
      pose proof (digits2_pos_lower m) as Hl.
      assert (2 ^ Zpos p <= 2 ^ (Zpos (digits2_pos m) - 1)) by (apply Z.pow_le_mono_r; lia).
      lia. }
    pose proof (iter_shr_1_div p (shr_record_of_loc (Zpos m) l)) as Hit.
    rewrite shr_record_of_loc_m in Hit. specialize (Hit ltac:(lia)).
    destruct (shr_m (SpecFloat.iter_pos shr_1 p (shr_record_of_loc (Zpos m) l))) as [|q|q] eqn:Eq;
      try lia.
    eexists _, _, q. split; [reflexivity|]. split; [exact Eq|lia].
  - eexists _, _, m. split; [reflexivity|]. rewrite shr_record_of_loc_m. split; [reflexivity|lia].
Qed.

Lemma round_nearest_even_pos m l : exists m', round_nearest_even (Zpos m) l = Zpos m'.
Proof.
  destruct l as [|[]]; cbn [round_nearest_even]; try (eexists; reflexivity).
  destruct (Z.even (Zpos m)); eexists; reflexivity.
Qed.

Lemma binary_round_aux_pos m e l :
  emin prec emax <= e ->
  positive_in prec emax (binary_round_aux prec emax false (Zpos m) e l).
Proof.
  intros He. unfold binary_round_aux.
  destruct (shr_fexp_pos m e l He) as (mrs1 & e1 & m1 & -> & Hm1 & He1).
  rewrite Hm1.
  destruct (round_nearest_even_pos m1 (loc_of_shr_record mrs1)) as [m2 ->].
  destruct (shr_fexp_pos m2 e1 loc_Exact ltac:(lia)) as (mrs3 & e3 & m3 & -> & Hm3 & He3).
  rewrite Hm3. destruct (e3 <=? emax - prec); simpl; [lia|exact I].
Qed.

Lemma binary_normalize_pos m e sz :
  emin prec emax <= e ->
  positive_in prec emax (binary_normalize prec emax (Zpos m) e sz).
Proof.
  intros He. simpl. unfold binary_round, shl_align.
  destruct (fexp prec emax (Zpos (digits2_pos m) + e) - e) as [|p|p] eqn:En;
    try (apply binary_round_aux_pos; exact He).
  apply binary_round_aux_pos. unfold fexp. lia.
Qed.

Lemma SFadd_pos x y :
  positive_in prec emax x -> positive_in prec emax y ->
  positive_in prec emax (SFadd prec emax x y).
Proof.
  destruct x as [sx|sx| |sx mx ex], y as [sy|sy| |sy my ey];
    try destruct sx; try destruct sy; cbn [positive_in SFadd]; try tauto.
  intros Hx Hy. cbn [cond_Zopp].
  change (Zpos (fst (shl_align mx ex (Z.min ex ey))) + Zpos (fst (shl_align my ey (Z.min ex ey))))
    with (Zpos (fst (shl_align mx ex (Z.min ex ey)) + fst (shl_align my ey (Z.min ex ey)))).
  apply binary_normalize_pos. lia.
Qed.

Lemma SFadd_pos_zero x s :
  positive_in prec emax x -> SFadd prec emax x (S754_zero s) = x.
Proof. destruct x as [sx|sx| |sx mx ex]; try destruct sx; simpl; tauto. Qed.

Lemma SFadd_nan_l y : SFadd prec emax S754_nan y = S754_nan.
Proof. reflexivity. Qed.

Lemma SFadd_nan_r x : SFadd prec emax x S754_nan = S754_nan.
Proof. destruct x; reflexivity. Qed.

Lemma valid_binary_emin s m e :
  valid_binary prec emax (S754_finite s m e) = true -> emin prec emax <= e.
Proof.
  simpl. unfold bounded, canonical_mantissa. intros H.
  apply andb_true_iff in H as [H _]. apply Z.eqb_eq in H.
  unfold fexp in H. lia.
Qed.

End RoundPositive.

(** ** Divisions guarded by 1e-8 *)

Section Divisors.
Local Open Scope Z_scope.

Lemma not_negative_cases x :
  not_negative x ->
  x = S754_nan \/ is_zero x = true \/ positive_in prec32 emax32 x.
Proof.
  intros [Hv Hlt]. destruct x as [s|s| |s m e].
  - right. left. reflexivity.
  - destruct s; [discriminate Hlt|]. right. right. exact I.
  - left. reflexivity.
  - destruct s; [discriminate Hlt|]. right. right.
    apply (valid_binary_emin prec32 emax32 false m e Hv).
Qed.

Lemma sum_ok_step s x : sum_ok s -> not_negative x -> sum_ok (fadd s x).
Proof.
  intros [->|Hs] Hx; [left; reflexivity|].
  destruct (not_negative_cases x Hx) as [->|[Hz|Hp]].
  - left. apply SFadd_nan_r.
  - destruct x as [sx| | |]; try discriminate Hz. right.
    unfold fadd. rewrite SFadd_pos_zero by exact Hs. exact Hs.
  - right. apply (SFadd_pos prec32 emax32 eq_refl); assumption.
Qed.

Lemma sum_ok_fold priors : forall s,
  Forall not_negative priors -> sum_ok s -> sum_ok (fold_left fadd priors s).
Proof.
  induction priors as [|x priors IH]; intros s Hall Hs; simpl; [exact Hs|].
  apply Forall_cons in Hall as [Hx Hall].
  apply IH; [exact Hall|]. apply sum_ok_step; assumption.
Qed.

Lemma sum_ok_nonzero s : sum_ok s -> is_zero s = false.
Proof.
  intros [->|Hs]; [reflexivity|]. destruct s as [| | |]; try reflexivity. destruct Hs.
Qed.

Lemma normalize_sum_nonzero priors :
  Forall not_negative priors -> is_zero (normalize_sum priors) = false.
Proof.
  intros Hall. apply sum_ok_nonzero. unfold normalize_sum.
  apply sum_ok_fold; [exact Hall|]. right. unfold f_1e_8, positive_in, emin, prec32, emax32. simpl. lia.
Qed.

Lemma float_of_int_pos z : 0 < z -> positive_in prec32 emax32 (float_of_int z).
Proof.
  intros Hz. destruct z as [|p|p]; try lia.
  apply (binary_normalize_pos prec32 emax32 eq_refl). unfold emin, prec32, emax32. simpl. lia.
Qed.

Lemma double_of_float_pos x :
  positive_in prec32 emax32 x -> positive_in prec64 emax64 (double_of_float x).
Proof.
  destruct x as [s|s| |s m e]; try destruct s;
    cbn [positive_in double_of_float convert cond_Zopp]; try tauto.
  intros He. unfold double_of_float, convert, cond_Zopp.
  apply (binary_normalize_pos prec64 emax64 eq_refl).
  unfold emin, prec32, emax32, prec64, emax64 in *. lia.
Qed.

Lemma q_divisor_nonzero ac : 0 <= ac -> is_zero (q_divisor ac) = false.
Proof.
  intros Hac. destruct (Z.eq_dec ac 0) as [->|Hne]; [reflexivity|].
  assert (Hp : positive_in prec64 emax64 (q_divisor ac)).
  { unfold q_divisor, dadd. apply (SFadd_pos prec64 emax64 eq_refl).
    - apply double_of_float_pos, float_of_int_pos. lia.
    - unfold lit_1e_8, positive_in, emin, prec64, emax64. simpl. lia. }
  destruct (q_divisor ac) as [| | |]; try reflexivity. destruct Hp.
Qed.

Lemma zeros_sum (l : list float) : forall s0,
  Forall (fun p => is_zero p = true) l ->
  is_zero (fold_left fadd l (S754_zero s0)) = true.
Proof.
  induction l as [|x l IH]; intros s0 Hall; simpl; [reflexivity|].
  apply Forall_cons in Hall as [Hx Hall].
  destruct x as [sx| | |]; try discriminate Hx.
  destruct s0, sx; simpl; apply IH; exact Hall.
Qed.

Lemma zeros_normalize_sum (l : list float) :
  Forall (fun p => is_zero p = true) l -> normalize_sum l = f_1e_8.
Proof.
  unfold normalize_sum.
  induction l as [|x l IH]; intros Hall; simpl; [reflexivity|].
  apply Forall_cons in Hall as [Hx Hall].
  destruct x as [sx| | |]; try discriminate Hx. simpl. apply IH. exact Hall.
Qed.

Lemma mapM_lookup_all (P : float -> Prop) (values : list float) (indices : list abc_t) :
  Forall (fun i => exists x, values !! i = Some x /\ P x) indices ->
  exists ret,
    mapM (fun index => values !! index) indices = Some ret /\
    length ret = length indices /\ Forall P ret.
Proof.
  induction indices as [|i indices IH]; intros Hall.
  - exists []. repeat split. constructor.
  - apply Forall_cons in Hall as [(x & Hx & HP) Hall].
    destruct (IH Hall) as (ret & Hret & Hlen & HPs).
    exists (x :: ret). simpl. rewrite Hx. simpl. rewrite Hret. simpl.
    repeat split; [lia|]. constructor; assumption.
Qed.

(** C10 (as the code has it).  When no prior is negative the divisor of
    [normalize], hence of [gather_priors], is not zero; gathering from
    zeros yields zeros, whose sum is zero; and the divisor of the [q]
    term, [action_counts[i] + 1e-8], is not zero when
    [action_counts[i] >= 0]. *)
Theorem guarded_divisions :
  (forall priors,
     Forall not_negative priors -> is_zero (normalize_sum priors) = false) /\
  (forall values indices,
     Forall (fun i => exists x, values !! i = Some x /\ not_negative x) indices ->
     exists ret,
       mapM (fun index => values !! index) indices = Some ret /\
       gather_priors values indices
         = Some (map (fun prior => fdiv prior (normalize_sum ret)) ret) /\
       is_zero (normalize_sum ret) = false) /\
  (forall values indices,
     Forall (fun i => exists x, values !! i = Some x /\ is_zero x = true) indices ->
     exists pr,
       gather_priors values indices = Some pr /\
       length pr = length indices /\
       Forall (fun p => is_zero p = true) pr /\
       is_zero (fold_left fadd pr fzero) = true) /\
  (forall ac, 0 <= ac -> is_zero (q_divisor ac) = false).
Proof.
  split; [exact normalize_sum_nonzero|]. split; [|split; [|exact q_divisor_nonzero]].
  - intros values indices Hall.
    destruct (mapM_lookup_all not_negative values indices Hall) as (ret & Hret & _ & Hnn).
    exists ret. split; [exact Hret|]. split.
    + unfold gather_priors. rewrite Hret. reflexivity.
    + apply normalize_sum_nonzero. exact Hnn.
  - intros values indices Hall.
    destruct (mapM_lookup_all (fun x => is_zero x = true) values indices Hall)
      as (ret & Hret & Hlen & Hz).
    assert (Hpr : Forall (fun p => is_zero p = true) (normalize ret)).
    { unfold normalize. rewrite (zeros_normalize_sum ret Hz).
      apply Forall_fmap. eapply Forall_impl; [exact Hz|].
      intros x Hx. destruct x as [sx| | |]; try discriminate Hx. reflexivity. }
    exists (normalize ret). split; [unfold gather_priors; rewrite Hret; reflexivity|].
    split; [unfold normalize; rewrite length_map; exact Hlen|].
    split; [exact Hpr|]. apply (zeros_sum (normalize ret) false Hpr).
Qed.

Lemma guarded_divisions_witness :
  is_zero (normalize_sum [f_0_5; fzero; f_2_0]) = false /\
  (exists pr, gather_priors [fzero; fzero; fzero] [2%nat; 0%nat] = Some pr /\
              Forall (fun p => is_zero p = true) pr) /\
  is_zero (q_divisor 3) = false.
Proof.
  destruct guarded_divisions as (Hsum & _ & Hzero & Hq).
  split; [|split].
  - apply Hsum. repeat constructor.
  - destruct (Hzero [fzero; fzero; fzero] [2%nat; 0%nat]) as (pr & Hpr & _ & Hz & _).
    + repeat constructor; eexists; (split; [reflexivity|reflexivity]).
    + exists pr. split; assumption.
  - apply Hq. lia.
Defined.

(** C10 (as stated) fails for inputs with a negative entry: the priors
    [1.0, -1.0] add up, after the initial [1e-8] is absorbed by [1.0],
    to exactly zero, and [normalize] divides by it. *)
Lemma normalize_divides_by_zero :
  normalize_sum [f_1_0; SFopp f_1_0] = S754_zero false /\
  gather_priors [f_1_0; SFopp f_1_0] [0%nat; 1%nat]
    = Some [S754_infinity false; S754_infinity true].
Proof. split; vm_compute; reflexivity. Qed.

End Divisors.

(** * Properties of the rest of the node routines *)

(** ** Playing and the recorded maximum *)

Section MaxTracking.
Local Open Scope Z_scope.

Lemma flt_true_no_nan a b : flt a b = true -> is_nan a = false /\ is_nan b = false.
Proof.
  destruct a as [?|?| |? ? ?], b as [?|?| |? ? ?]; simpl; try discriminate; auto.
Qed.

Lemma key_lt_lt_le k1 k2 k3 : key_lt k1 k2 -> ~ key_lt k3 k2 -> key_lt k1 k3.
Proof.
  destruct k1 as [[a1 b1] c1], k2 as [[a2 b2] c2], k3 as [[a3 b3] c3].
  unfold key_lt. lia.
Qed.

(** [a < b <= c] gives [a < c]. *)
Lemma flt_lt_le_trans a b c :
  is_nan c = false -> flt a b = true -> flt c b = false -> flt a c = true.
Proof.
  intros Hc Hab Hcb. destruct (flt_true_no_nan _ _ Hab) as [Ha Hb].
  apply flt_key_lt; try assumption.
  apply key_lt_lt_le with (order_key b).
  - apply flt_key_lt; assumption.
  - intros Hk. apply flt_key_lt in Hk; try assumption. congruence.
Qed.

(** A bound that does not go down stays a bound. *)
Lemma flt_bound_mono m m' v :
  is_nan m = false -> flt m v = false -> flt m' m = false -> flt m' v = false.
Proof.
  intros Hm Hv Hmm. destruct (flt m' v) eqn:E; [|reflexivity].
  rewrite (flt_lt_le_trans m' v m Hm E Hv) in Hmm. discriminate.
Qed.

Lemma wrap_int_index (index : nat) :
  Z.of_nat index <= INT_MAX -> wrap_int (Z.of_nat index) = Z.of_nat index.
Proof.
  intros H. apply wrap_signed_id; [reflexivity|].
  unfold in_signed, int_bits, INT_MAX in *. lia.
Qed.

Lemma update_stats_shape w index nv gc vl n n' :
  update_stats w index nv gc vl n = Some n' ->
  exists ac mv tv,
    action_counts n !! index = Some ac /\
    max_values n !! index = Some mv /\
    total_values n !! index = Some tv /\
    1 <= wrap_visit w (ac - wrap_int (gc - 1)) /\
    action_counts n' = <[index := wrap_visit w (ac - wrap_int (gc - 1))]> (action_counts n) /\
    visit_count n' = wrap_visit w (visit_count n - wrap_int (gc - 1)) /\
    max_value n' = (if flt (max_value n) nv then nv else max_value n) /\
    max_index n' = (if flt (max_value n) nv then wrap_int (Z.of_nat index) else max_index n) /\
    max_values n' = (if flt mv nv then <[index := nv]> (max_values n) else max_values n) /\
    children n' = children n /\ permissible_chars n' = permissible_chars n.
Proof.
  intros H. unfold update_stats in H.
  destruct (action_counts n !! index) as [ac|] eqn:Hac; simpl in H; [|discriminate].
  destruct (Z.ltb_spec (wrap_visit w (ac - wrap_int (gc - 1))) 1) as [|Hge]; [discriminate|].
  destruct (flt (max_value n) nv) eqn:E1; simpl in H;
    (destruct (max_values n !! index) as [mv|] eqn:Hmv; simpl in H; [|discriminate]);
    destruct (flt mv nv) eqn:E2; simpl in H;
    (destruct (total_values n !! index) as [tv|] eqn:Htv; simpl in H; [|discriminate]);
    injection H as <-; exists ac, mv, tv; simpl; rewrite ?E2;
    repeat (split; [first [reflexivity|assumption]|]); reflexivity.
Qed.

Lemma virtual_select_shape w index gc vl n n' :
  virtual_select w index gc vl n = Some n' ->
  exists ac,
    action_counts n !! index = Some ac /\
    action_counts n' = <[index := wrap_visit w (ac + gc)]> (action_counts n) /\
    visit_count n' = wrap_visit w (visit_count n + gc) /\
    max_value n' = max_value n /\ max_index n' = max_index n /\
    max_values n' = max_values n /\
    children n' = children n /\ permissible_chars n' = permissible_chars n.
Proof.
  intros H. unfold virtual_select in H.
  destruct (action_counts n !! index) as [ac|] eqn:Hac; simpl in H; [|discriminate].
  destruct (total_values n !! index) as [tv|] eqn:Htv; simpl in H; [|discriminate].
  injection H as <-. exists ac. simpl. auto 10.
Qed.

Lemma max_tracked_floor n : max_tracked n -> flt (max_value n) f_neg_9999_9 = false.
Proof.
  intros (Hn & _ & [[_ ->]|(_ & _ & Hlt)]).
  - apply flt_irrefl.
  - apply flt_asym; [reflexivity|assumption|assumption].
Qed.

Lemma update_stats_tracked w index nv gc vl n n' :
  max_tracked n ->
  Z.of_nat (length (max_values n)) <= INT_MAX ->
  update_stats w index nv gc vl n = Some n' ->
  max_tracked n' /\
  length (max_values n') = length (max_values n) /\
  flt (max_value n') (max_value n) = false /\
  flt (max_value n') nv = false /\
  (max_value n' = max_value n \/ max_value n' = nv).
Proof.
  intros Ht Hlen H.
  pose proof (max_tracked_floor n Ht) as Hfloor.
  destruct Ht as (Hnan & Hall & Hidx).
  destruct (update_stats_shape _ _ _ _ _ _ _ H)
    as (ac & mv & tv & Hac & Hmv & Htv & _ & _ & _ & Hv & Hi & Hvs & _ & _).
  pose proof (lookup_lt_Some _ _ _ Hmv) as Lmv.
  destruct (Hall _ _ Hmv) as [Hmvn Hmvle].
  destruct (flt (max_value n) nv) eqn:E1.
  - (* a new maximum *)
    destruct (flt_true_no_nan _ _ E1) as [_ Hnv].
    assert (E2 : flt mv nv = true) by (apply flt_le_lt_trans with (max_value n); assumption).
    rewrite E2 in Hvs.
    assert (Hbelow : forall j x, max_values n !! j = Some x -> flt nv x = false).
    { intros j x Hj. destruct (Hall _ _ Hj) as [Hx Hle].
      apply flt_asym; [assumption|assumption|].
      apply flt_le_lt_trans with (max_value n); assumption. }
    split; [|split; [|split; [|split]]].
    + unfold max_tracked. rewrite Hv, Hi, Hvs. split; [assumption|]. split.
      * intros j x Hj. destruct (decide (j = index)) as [->|Hne].
        -- rewrite list_lookup_insert_eq in Hj by assumption. injection Hj as <-.
           split; [assumption|apply flt_irrefl].
        -- rewrite list_lookup_insert_ne in Hj by congruence.
           split; [apply (Hall _ _ Hj)|eapply Hbelow; eassumption].
      * right. rewrite wrap_int_index by lia. rewrite Nat2Z.id.
        split; [lia|]. split; [apply list_lookup_insert_eq; assumption|].
        apply flt_le_lt_trans with (max_value n); try assumption. reflexivity.
    + rewrite Hvs. apply length_insert.
    + rewrite Hv. apply flt_asym; assumption.
    + rewrite Hv. apply flt_irrefl.
    + right. exact Hv.
  - (* the maximum stays *)
    split; [|split; [|split; [|split]]].
    + unfold max_tracked. rewrite Hv, Hi. split; [assumption|]. split.
      * intros j x Hj. destruct (flt mv nv) eqn:E2; rewrite Hvs in Hj; [|eauto].
        destruct (decide (j = index)) as [->|Hne].
        -- rewrite list_lookup_insert_eq in Hj by assumption. injection Hj as <-.
           split; [apply (flt_true_no_nan _ _ E2)|assumption].
        -- rewrite list_lookup_insert_ne in Hj by congruence. eauto.
      * destruct Hidx as [Hl|(H0 & Hat & Hlt)]; [left; assumption|right].
        split; [assumption|]. split; [|assumption].
        destruct (flt mv nv) eqn:E2; rewrite Hvs; [|assumption].
        destruct (decide (Z.to_nat (max_index n) = index)) as [He|Hne].
        -- rewrite He, Hmv in Hat. injection Hat as ->. congruence.
        -- rewrite list_lookup_insert_ne by congruence. assumption.
    + rewrite Hvs. destruct (flt mv nv); [apply length_insert|reflexivity].
    + rewrite Hv. apply flt_irrefl.
    + rewrite Hv. assumption.
    + left. exact Hv.
Qed.

Lemma init_stats_tracked n : max_tracked (init_stats n).
Proof.
  unfold max_tracked. simpl. split; [reflexivity|]. split.
  - intros j x Hj. apply lookup_replicate in Hj as [-> _]. split; reflexivity.
  - left. split; reflexivity.
Qed.

Lemma run_stats_tracked w cs : forall n n' vals,
  max_tracked n ->
  Z.of_nat (length (max_values n)) <= INT_MAX ->
  Forall (fun v => flt (max_value n) v = false) vals ->
  (max_value n = f_neg_9999_9 \/ max_value n ∈ vals) ->
  run_stats w cs n = Some n' ->
  max_tracked n' /\
  length (max_values n') = length (max_values n) /\
  children n' = children n /\ permissible_chars n' = permissible_chars n /\
  Forall (fun v => flt (max_value n') v = false) (vals ++ backed_up cs) /\
  (max_value n' = f_neg_9999_9 \/ max_value n' ∈ vals ++ backed_up cs).
Proof.
  induction cs as [|c cs IH]; intros n n' vals Ht Hlen Hvals Hfrom H; simpl in H.
  - injection H as <-. unfold backed_up. simpl. rewrite app_nil_r. auto 10.
  - destruct (run_stat w c n) as [n1|] eqn:Hc; simpl in H; [|discriminate].
    destruct c as [index gc vl|index nv gc vl]; simpl in Hc.
    + destruct (virtual_select_shape _ _ _ _ _ _ Hc)
        as (ac & _ & _ & _ & Hv & Hi & Hvs & Hch & Hpc).
      assert (Ht1 : max_tracked n1).
      { unfold max_tracked. rewrite Hv, Hi, Hvs. exact Ht. }
      destruct (IH n1 n' vals Ht1) as (A & B & C & D & E & F); try assumption.
      * rewrite Hvs. assumption.
      * rewrite Hv. assumption.
      * rewrite Hv. assumption.
      * unfold backed_up in *. simpl. rewrite B, C, D, Hvs, Hch, Hpc. auto 10.
    + destruct (update_stats_tracked _ _ _ _ _ _ _ Ht Hlen Hc)
        as (Ht1 & Hl1 & Hup & Hnv & Hwhich).
      assert (Hn1 : is_nan (max_value n) = false) by apply Ht.
      destruct (update_stats_shape _ _ _ _ _ _ _ Hc)
        as (ac & mv & tv & _ & _ & _ & _ & _ & _ & _ & _ & _ & Hch & Hpc).
      destruct (IH n1 n' (vals ++ [nv]) Ht1) as (A & B & C & D & E & F); try assumption.
      * rewrite Hl1. assumption.
      * apply Forall_app. split.
        -- eapply Forall_impl; [exact Hvals|]. intros v Hv. simpl in Hv.
           apply flt_bound_mono with (max_value n); assumption.
        -- constructor; [assumption|constructor].
      * destruct Hwhich as [->| ->].
        -- destruct Hfrom as [Hf|Hf]; [left; assumption|right].
           apply elem_of_app. left. assumption.
        -- right. apply elem_of_app. right. constructor.
      * unfold backed_up in *. simpl. rewrite <- app_assoc in E, F. simpl in E, F.
        rewrite B, C, D, Hl1, Hch, Hpc. auto 10.
Qed.

(** X1: after [init_stats], whatever selections and backups follow,
    [max_value] is the largest entry of [max_values] and [max_index] the
    slot holding it (or [-1] while nothing above [-9999.9] was backed up);
    [max_value] is below no value that was backed up, and it is one of
    them unless it still is the initial [-9999.9]. *)
Theorem stats_track_maximum w cs n0 n :
  Z.of_nat (length (permissible_chars n0)) <= INT_MAX ->
  run_stats w cs (init_stats n0) = Some n ->
  max_tracked n /\
  length (max_values n) = length (permissible_chars n0) /\
  Forall (fun v => flt (max_value n) v = false) (backed_up cs) /\
  (max_value n = f_neg_9999_9 \/ max_value n ∈ backed_up cs).
Proof.
  intros Hlen H.
  destruct (run_stats_tracked w cs (init_stats n0) n [] (init_stats_tracked n0))
    as (A & B & _ & _ & E & F); try assumption.
  - simpl. rewrite length_replicate. assumption.
  - constructor.
  - left. reflexivity.
  - simpl in *. rewrite length_replicate in B. auto.
Qed.

End MaxTracking.

(** A node with the two actions 3 and 4 and no statistics yet. *)
Lemma stats_track_maximum_witness :
  exists n,
    run_stats 32 [Select 1 3 f_0_5; Backup 1 f_2_0 3 f_0_5]
      (init_stats (add_action 4%nat [] (add_action 3%nat [] (new_node (KMini AFTER) false false))))
    = Some n /\
    max_tracked n /\ max_value n = f_2_0 /\ max_index n = 1%Z.
Proof.
  eexists. split; [vm_compute; reflexivity|]. split; [|split; reflexivity].
  eapply (stats_track_maximum 32 [Select 1 3 f_0_5; Backup 1 f_2_0 3 f_0_5]
            (add_action 4%nat [] (add_action 3%nat [] (new_node (KMini AFTER) false false)))).
  - vm_compute. discriminate.
  - vm_compute. reflexivity.
Defined.

Section PlayMini.
Local Open Scope Z_scope.

(** X2: on a node with as many child slots as actions, statistics
    initialised and any selections and backups made: [play_mini] stops at
    its assertion as long as no value above [-9999.9] was backed up, and
    otherwise returns the child and the action of a slot whose recorded
    maximum is [max_value], a backed-up value that none of the backed-up
    values exceeds. *)
Theorem play_mini_plays_maximum w cs n0 n :
  Z.of_nat (length (permissible_chars n0)) <= INT_MAX ->
  length (children n0) = length (permissible_chars n0) ->
  run_stats w cs (init_stats n0) = Some n ->
  (Forall (fun v => flt f_neg_9999_9 v = false) (backed_up cs) -> play_mini n = None) /\
  (Exists (fun v => flt f_neg_9999_9 v = true) (backed_up cs) ->
   exists idx child c,
     play_mini n = Some (child, (Z.of_nat idx, c)) /\
     children n0 !! idx = Some child /\ permissible_chars n0 !! idx = Some c /\
     max_values n !! idx = Some (max_value n) /\
     max_value n ∈ backed_up cs /\
     Forall (fun v => flt (max_value n) v = false) (backed_up cs)).
Proof.
  intros Hlen Hch H.
  destruct (run_stats_tracked w cs (init_stats n0) n [] (init_stats_tracked n0))
    as (Ht & Hl & Hc & Hp & Hb & Hf); try assumption.
  { simpl. rewrite length_replicate. assumption. }
  { constructor. }
  { left. reflexivity. }
  simpl in Hl, Hc, Hp, Hb, Hf. rewrite length_replicate in Hl.
  destruct Ht as (Hnan & Hall & Hidx). split.
  - intros Hlow. destruct Hidx as [[Hi _]|(_ & _ & Hlt)].
    + unfold play_mini. rewrite Hi. reflexivity.
    + destruct Hf as [Hf|Hf].
      * rewrite Hf, flt_irrefl in Hlt. discriminate.
      * rewrite Forall_forall in Hlow. rewrite (Hlow _ Hf) in Hlt. discriminate.
  - intros Hex. apply Exists_exists in Hex as (v & Hv & Hvlt).
    rewrite Forall_forall in Hb. pose proof (Hb _ Hv) as Hvle.
    assert (Habove : flt f_neg_9999_9 (max_value n) = true)
      by (apply flt_lt_le_trans with v; assumption).
    destruct Hidx as [[_ Hi]|(H0 & Hat & _)].
    { rewrite Hi, flt_irrefl in Habove. discriminate. }
    destruct Hf as [Hf|Hf].
    { rewrite Hf, flt_irrefl in Habove. discriminate. }
    pose proof (lookup_lt_Some _ _ _ Hat) as Lidx.
    destruct (lookup_lt_is_Some_2 (children n0) (Z.to_nat (max_index n))) as [child Hchild];
      [lia|].
    destruct (lookup_lt_is_Some_2 (permissible_chars n0) (Z.to_nat (max_index n))) as [c Hchar];
      [lia|].
    exists (Z.to_nat (max_index n)), child, c.
    unfold play_mini. rewrite Hc, Hp, Hchild, Hchar.
    destruct (Z.eqb_spec (max_index n) (-1)) as [|_]; [lia|].
    destruct (Z.ltb_spec (max_index n) 0) as [|_]; [lia|].
    simpl. rewrite Z2Nat.id by assumption.
    repeat (split; [first [reflexivity|assumption]|]).
    rewrite Forall_forall. assumption.
Qed.

End PlayMini.

Lemma play_mini_plays_maximum_witness :
  exists n,
    run_stats 32 [Select 1 3 f_0_5; Backup 1 f_2_0 3 f_0_5]
      (init_stats (init_edges
         (add_action 4%nat [] (add_action 3%nat [] (new_node (KMini AFTER) false false)))))
    = Some n /\
    exists idx child c,
      play_mini n = Some (child, (Z.of_nat idx, c)) /\
      children (init_edges
         (add_action 4%nat [] (add_action 3%nat [] (new_node (KMini AFTER) false false))))
        !! idx = Some child /\
      permissible_chars (init_edges
         (add_action 4%nat [] (add_action 3%nat [] (new_node (KMini AFTER) false false))))
        !! idx = Some c /\
      max_values n !! idx = Some (max_value n) /\
      max_value n ∈ backed_up [Select 1 3 f_0_5; Backup 1 f_2_0 3 f_0_5] /\
      Forall (fun v => flt (max_value n) v = false)
        (backed_up [Select 1 3 f_0_5; Backup 1 f_2_0 3 f_0_5]).
Proof.
  eexists. split; [vm_compute; reflexivity|].
  refine (proj2 (play_mini_plays_maximum 32 [Select 1 3 f_0_5; Backup 1 f_2_0 3 f_0_5]
                   (init_edges
                      (add_action 4%nat [] (add_action 3%nat [] (new_node (KMini AFTER) false false))))
                   _ _ _ _) _).
  - vm_compute. discriminate.
  - reflexivity.
  - vm_compute. reflexivity.
  - constructor. vm_compute. reflexivity.
Defined.

(** ** Backups need a selection; the visit counter *)

Section Counters.
Local Open Scope Z_scope.

(** X3: a backup goes through exactly when the slot's count is at least
    [game_count], that is when selections of at least that many games are
    still outstanding on the slot; otherwise it stops at its assertion.
    ([game_count] in [1, INT_MAX]; the count after the deflation
    representable in [visit_t].) *)
Theorem update_stats_needs_selection w n index new_value game_count virtual_loss ac tv mv :
  0 < w ->
  action_counts n !! index = Some ac ->
  total_values n !! index = Some tv ->
  max_values n !! index = Some mv ->
  1 <= game_count <= INT_MAX ->
  in_signed w (ac - (game_count - 1)) ->
  (is_Some (update_stats w index new_value game_count virtual_loss n) <-> game_count <= ac).
Proof.
  intros Hw Hac Htv Hmv Hg Hin.
  pose proof (lookup_lt_Some _ _ _ Hac) as Lac.
  unfold update_stats. rewrite Hac. simpl.
  rewrite wrap_int_pred by assumption.
  unfold wrap_visit at 1. rewrite wrap_signed_id by assumption.
  destruct (Z.ltb_spec (ac - (game_count - 1)) 1) as [Hlt|Hge].
  - split; [intros [x Hx]; discriminate|lia].
  - split; [lia|intros _].
    destruct (flt (max_value n) new_value); simpl; rewrite Hmv; simpl;
      destruct (flt mv new_value); simpl; rewrite Htv; simpl; eauto.
Qed.

Lemma count_sum_insert (l : list Z) : forall i x old,
  l !! i = Some old -> count_sum (<[i := x]> l) = count_sum l - old + x.
Proof.
  induction l as [|y l IH]; intros [|i] x old H; simpl in *; try discriminate.
  - injection H as ->. lia.
  - rewrite (IH i x old H). lia.
Qed.

Lemma count_sum_replicate k : count_sum (replicate k 0) = 0.
Proof. unfold count_sum. induction k as [|k IH]; simpl; [reflexivity|]. rewrite IH. reflexivity. Qed.

Lemma wrap_signed_congr w a b :
  a mod 2 ^ w = b mod 2 ^ w -> wrap_signed w a = wrap_signed w b.
Proof.
  intros H. unfold wrap_signed. f_equal.
  rewrite (Zplus_mod a), (Zplus_mod b), H. reflexivity.
Qed.

Lemma wrap_visit_shift w s old d :
  0 < w ->
  wrap_visit w (wrap_visit w s + d) = wrap_visit w (s - old + wrap_visit w (old + d)).
Proof.
  intros Hw. unfold wrap_visit. apply wrap_signed_congr.
  rewrite (Zplus_mod (wrap_signed w s)), (Zplus_mod (s - old)).
  rewrite !wrap_signed_mod by assumption.
  rewrite <- !Zplus_mod. f_equal. lia.
Qed.

Lemma run_stats_balanced w cs : forall n n',
  0 < w ->
  visit_count n = wrap_visit w (count_sum (action_counts n)) ->
  run_stats w cs n = Some n' ->
  visit_count n' = wrap_visit w (count_sum (action_counts n')).
Proof.
  induction cs as [|c cs IH]; intros n n' Hw Hn H; simpl in H.
  - injection H as <-. assumption.
  - destruct (run_stat w c n) as [n1|] eqn:Hc; simpl in H; [|discriminate].
    apply (IH n1 n' Hw); [|assumption].
    destruct c as [index gc vl|index nv gc vl]; simpl in Hc.
    + destruct (virtual_select_shape _ _ _ _ _ _ Hc) as (ac & Hac & Hacs & Hvc & _).
      rewrite Hvc, Hacs, (count_sum_insert _ _ _ _ Hac), Hn.
      apply wrap_visit_shift. assumption.
    + destruct (update_stats_shape _ _ _ _ _ _ _ Hc)
        as (ac & mv & tv & Hac & _ & _ & _ & Hacs & Hvc & _).
      rewrite Hvc, Hacs, (count_sum_insert _ _ _ _ Hac), Hn.
      apply (wrap_visit_shift w _ ac (- wrap_int (gc - 1))). assumption.
Qed.

(** X4: after [init_stats], whatever selections and backups follow, the
    node's [visit_count] is the sum of its [action_counts], as a
    [visit_t]: both counters are inflated and deflated together. *)
Theorem visit_count_is_sum w cs n0 n :
  0 < w ->
  run_stats w cs (init_stats n0) = Some n ->
  visit_count n = wrap_visit w (count_sum (action_counts n)).
Proof.
  intros Hw H. apply (run_stats_balanced w cs (init_stats n0) n Hw); [|assumption].
  simpl. rewrite count_sum_replicate. symmetry. apply wrap_signed_id; [assumption|].
  unfold in_signed. assert (0 < 2 ^ (w - 1)) by (apply Z.pow_pos_nonneg; lia). lia.
Qed.

End Counters.

Lemma update_stats_needs_selection_witness :
  is_Some (update_stats 32 0 f_2_0 3 f_0_5
             (set_action_counts [3%Z] (fresh_one_action (KMini AFTER) false false 3%nat []))) <->
  (3 <= 3)%Z.
Proof.
  apply (update_stats_needs_selection 32 _ 0 f_2_0 3 f_0_5 3 fzero f_neg_9999_9);
    try reflexivity; vm_compute; intuition discriminate.
Defined.

Lemma visit_count_is_sum_witness :
  exists n,
    run_stats 32 [Select 1 3 f_0_5; Select 0 2 f_0_5; Backup 1 f_2_0 3 f_0_5]
      (init_stats (add_action 4%nat [] (add_action 3%nat [] (new_node (KMini AFTER) false false))))
    = Some n /\
    visit_count n = wrap_visit 32 (count_sum (action_counts n)) /\ visit_count n = 3%Z.
Proof.
  eexists. split; [vm_compute; reflexivity|]. split; [|reflexivity].
  apply (visit_count_is_sum 32 [Select 1 3 f_0_5; Select 0 2 f_0_5; Backup 1 f_2_0 3 f_0_5]
           (add_action 4%nat [] (add_action 3%nat [] (new_node (KMini AFTER) false false))));
    [reflexivity|vm_compute; reflexivity].
Defined.

(** ** Children, and undoing edges *)

Section Edges.

Lemma connect_fresh this index ca (h : gmap addr BaseNode) n cn :
  h !! this = Some n -> children n !! index = Some None -> h !! ca = Some cn ->
  connect this index (Some ca) h =
    Some (if decide (ca = this)
          then <[this := set_parent_indices (parent_indices n ++ [index])
                           (set_parents (parents n ++ [this])
                              (set_children (<[index := Some this]> (children n)) n))]> h
          else <[ca := set_parent_indices (parent_indices cn ++ [index])
                         (set_parents (parents cn ++ [this]) cn)]>
                 (<[this := set_children (<[index := Some ca]> (children n)) n]> h)).
Proof.
  intros Hn Hc Hca. unfold connect. rewrite Hn. simpl. rewrite Hc. simpl.
  destruct (decide (ca = this)) as [->|Hne].
  - rewrite lookup_insert_eq. simpl. rewrite lookup_insert_eq. simpl.
    rewrite !insert_insert_eq. reflexivity.
  - rewrite lookup_insert_ne by congruence. rewrite Hca. simpl.
    rewrite lookup_insert_eq. simpl. rewrite insert_insert_eq. reflexivity.
Qed.

Lemma connect_inv this index child (h h1 : gmap addr BaseNode) :
  connect this index child h = Some h1 ->
  exists n, h !! this = Some n /\
    ((exists x, children n !! index = Some (Some x) /\ h1 = h) \/
     (children n !! index = Some None /\
      exists ca cn, child = Some ca /\ h !! ca = Some cn)).
Proof.
  unfold connect. intros H.
  destruct (h !! this) as [n|] eqn:Hn; simpl in H; [|discriminate].
  destruct (children n !! index) as [[x|]|] eqn:Hc; simpl in H; [| |discriminate].
  - injection H as <-. exists n. split; [reflexivity|]. left. eauto.
  - exists n. split; [reflexivity|]. right. split; [assumption|].
    destruct child as [ca|]; simpl in H; [|discriminate].
    destruct (decide (ca = this)) as [->|Hne].
    + eauto.
    + rewrite lookup_insert_ne in H by congruence.
      destruct (h !! ca) as [cn|] eqn:Hca; simpl in H; [|discriminate]. eauto.
Qed.

(** X5: a connect that returns leaves the slot set, and a slot that is
    set is never overwritten: any further connect at this index, with
    whatever child, changes nothing, and [get_child] keeps answering the
    child that was connected first. *)
Theorem connect_first_wins this index child (h h1 : gmap addr BaseNode) :
  connect this index child h = Some h1 ->
  exists n1 c,
    h1 !! this = Some n1 /\
    get_child index n1 = Some (Some c) /\
    has_child index n1 = Some true /\
    (forall n, h !! this = Some n -> children n !! index = Some None -> child = Some c) /\
    (forall child2, connect this index child2 h1 = Some h1).
Proof.
  intros H. destruct (connect_inv _ _ _ _ _ H) as (n & Hn & [(x & Hx & ->)|(Hc & ca & cn & -> & Hca)]).
  - pose proof (lookup_lt_Some _ _ _ Hx) as Lx.
    exists n, x. split; [assumption|].
    unfold get_child, has_child.
    destruct (decide (index < length (children n))); [|contradiction].
    split; [exact Hx|]. split; [rewrite Hx; reflexivity|].
    split.
    + intros n' Hn' Hnone. congruence.
    + intros child2. unfold connect. rewrite Hn. simpl. rewrite Hx. reflexivity.
  - pose proof (lookup_lt_Some _ _ _ Hc) as Lc.
    rewrite (connect_fresh _ _ _ _ _ _ Hn Hc Hca) in H. injection H as <-.
    assert (Hthis : exists n1,
      (if decide (ca = this)
       then <[this := set_parent_indices (parent_indices n ++ [index])
                        (set_parents (parents n ++ [this])
                           (set_children (<[index := Some this]> (children n)) n))]> h
       else <[ca := set_parent_indices (parent_indices cn ++ [index])
                      (set_parents (parents cn ++ [this]) cn)]>
              (<[this := set_children (<[index := Some ca]> (children n)) n]> h)) !! this
      = Some n1 /\ children n1 = <[index := Some ca]> (children n)).
    { destruct (decide (ca = this)) as [->|Hne].
      - rewrite lookup_insert_eq. eauto.
      - rewrite lookup_insert_ne by congruence. rewrite lookup_insert_eq. eauto. }
    destruct Hthis as (n1 & Hn1 & Hch).
    assert (Hslot : children n1 !! index = Some (Some ca)).
    { rewrite Hch. apply list_lookup_insert_eq. assumption. }
    exists n1, ca. split; [assumption|].
    unfold get_child, has_child.
    destruct (decide (index < length (children n1))) as [|Hge];
      [|exfalso; apply Hge; rewrite Hch, length_insert; exact Lc].
    split; [exact Hslot|].
    split; [rewrite Hslot; reflexivity|].
    split.
    + reflexivity.
    + intros child2. unfold connect. rewrite Hn1. simpl. rewrite Hslot. reflexivity.
Qed.

(** X6: connecting a node that has no parents yet to a free slot and then
    disconnecting that node from its parents gives back the heap as it
    was, the node being its own child included. *)
Theorem connect_disconnect_round_trip this index ca (h : gmap addr BaseNode) n cn :
  h !! this = Some n -> children n !! index = Some None ->
  h !! ca = Some cn -> parents cn = [] -> parent_indices cn = [] ->
  exists h1,
    connect this index (Some ca) h = Some h1 /\
    disconnect_from_parents ca h1 = Some h.
Proof.
  intros Hn Hc Hca Hp Hpi.
  pose proof (lookup_lt_Some _ _ _ Hc) as Lc.
  rewrite (connect_fresh _ _ _ _ _ _ Hn Hc Hca).
  eexists. split; [reflexivity|].
  assert (Hback : <[index := None]> (<[index := Some ca]> (children n)) = children n).
  { rewrite list_insert_insert_eq. apply list_insert_id. assumption. }
  unfold disconnect_from_parents, disconnect_parent.
  destruct (decide (ca = this)) as [->|Hne].
  - assert (cn = n) as -> by congruence.
    rewrite lookup_insert_eq. simpl. rewrite Hp, Hpi. simpl.
    repeat (rewrite lookup_insert_eq; simpl).
    rewrite length_insert. destruct (decide (index < length (children n))); [|contradiction].
    simpl. repeat (rewrite lookup_insert_eq; simpl). rewrite !insert_insert_eq.
    rewrite Hback. f_equal. apply insert_id. rewrite Hn. f_equal.
    destruct n; simpl in *; subst; reflexivity.
  - rewrite lookup_insert_eq. simpl. rewrite Hp, Hpi. simpl.
    repeat (first [rewrite lookup_insert_eq | rewrite lookup_insert_ne by congruence]; simpl).
    rewrite length_insert. destruct (decide (index < length (children n))); [|contradiction].
    simpl.
    repeat (first [rewrite lookup_insert_eq | rewrite lookup_insert_ne by congruence]; simpl).
    rewrite !insert_insert_eq.
    f_equal. apply map_eq. intros k.
    destruct (decide (k = this)) as [->|Hk]; [|destruct (decide (k = ca)) as [->|Hk']].
    + rewrite lookup_insert_ne by congruence.
      rewrite lookup_insert_eq, Hback, Hn. f_equal. destruct n; reflexivity.
    + rewrite lookup_insert_eq, Hca. f_equal.
      destruct cn; simpl in *; subst; reflexivity.
    + rewrite !lookup_insert_ne by congruence. reflexivity.
Qed.

End Edges.

Lemma connect_first_wins_witness :
  exists h1 n1 c,
    connect 2 0 (Some 0) chain_heap = Some h1 /\
    h1 !! 2 = Some n1 /\ get_child 0 n1 = Some (Some c) /\
    forall child2, connect 2 0 child2 h1 = Some h1.
Proof.
  destruct (connect 2 0 (Some 0) chain_heap) as [h1|] eqn:H.
  - destruct (connect_first_wins 2 0 (Some 0) chain_heap h1 H) as (n1 & c & A & B & _ & _ & E).
    exists h1, n1, c. auto.
  - vm_compute in H. discriminate H.
Defined.

Lemma connect_disconnect_round_trip_witness :
  exists h1,
    connect 2 0 (Some 0) chain_heap = Some h1 /\
    disconnect_from_parents 0 h1 = Some chain_heap.
Proof.
  exact (connect_disconnect_round_trip 2 0 0 chain_heap
           (chain_node [1] [0] [None]) (chain_node [] [] [Some 1])
           eq_refl eq_refl eq_refl eq_refl eq_refl).
Defined.

(** ** The action table of a node *)

Section ActionTable.

Lemma std_find_Some {A : Type} `{EqDecision A} (x : A) (l : list A) : forall i,
  std_find x l = Some i <->
  l !! i = Some x /\ forall j, j < i -> l !! j <> Some x.
Proof.
  induction l as [|y l IH]; intros i; simpl.
  - split; [discriminate|]. intros [H _]. discriminate.
  - destruct (decide (y = x)) as [->|Hne].
    + split.
      * intros [= <-]. split; [reflexivity|]. intros j Hj. lia.
      * intros [Hi Hfirst]. destruct i as [|i]; [reflexivity|].
        exfalso. apply (Hfirst 0); [lia|reflexivity].
    + destruct (std_find x l) as [k|] eqn:Hk; simpl.
      * split.
        -- intros [= <-]. destruct (proj1 (IH k) eq_refl) as [Hk1 Hk2]. split; [exact Hk1|].
           intros [|j] Hj; simpl; [congruence|]. apply Hk2. lia.
        -- intros [Hi Hfirst]. destruct i as [|i]; simpl in Hi; [congruence|].
           f_equal. symmetry. assert (Some k = Some i) as [= ->]; [|reflexivity].
           apply IH. split; [exact Hi|]. intros j Hj. apply (Hfirst (S j)). lia.
      * split; [discriminate|]. intros [Hi Hfirst].
        destruct i as [|i]; simpl in Hi; [congruence|].
        assert (None = Some i) as Habs; [|discriminate Habs].
        apply IH. split; [exact Hi|]. intros j Hj. apply (Hfirst (S j)). lia.
Qed.

Lemma std_find_None {A : Type} `{EqDecision A} (x : A) (l : list A) :
  std_find x l = None <-> x ∉ l.
Proof.
  induction l as [|y l IH]; simpl.
  - split; [intros _; apply not_elem_of_nil|reflexivity].
  - rewrite not_elem_of_cons. destruct (decide (y = x)) as [->|Hne].
    + split; [discriminate|]. intros [Hx _]. congruence.
    + destruct (std_find x l) as [k|]; simpl.
      * split; [discriminate|]. intros [_ Hl]. apply IH in Hl. discriminate.
      * split; [|reflexivity]. intros _. split; [congruence|]. apply IH. reflexivity.
Qed.

Lemma std_find_snoc {A : Type} `{EqDecision A} (x y : A) (l : list A) :
  std_find x (l ++ [y]) =
    match std_find x l with
    | Some i => Some i
    | None => if decide (y = x) then Some (length l) else None
    end.
Proof.
  induction l as [|z l IH]; simpl.
  - destruct (decide (y = x)); reflexivity.
  - destruct (decide (z = x)); [reflexivity|]. rewrite IH.
    destruct (std_find x l); simpl; [reflexivity|].
    destruct (decide (y = x)); reflexivity.
Qed.

(** X7: [get_action_index] answers the first position of the action
    among the permissible characters, so [get_action_at] at that position
    gives the action back; it throws "Target not found." exactly when the
    action is not permissible. *)
Theorem get_action_index_first (action : abc_t) (n : BaseNode) :
  (forall i, get_action_index action n = Ret i <->
     permissible_chars n !! i = Some action /\
     forall j, j < i -> permissible_chars n !! j <> Some action) /\
  (forall i, get_action_index action n = Ret i -> get_action_at i n = Some action) /\
  (get_action_index action n = Throw "Target not found." <->
     action ∉ permissible_chars n) /\
  (forall what, get_action_index action n = Throw what -> what = "Target not found.").
Proof.
  unfold get_action_index, get_action_at.
  split; [|split; [|split]].
  - intros i. rewrite <- std_find_Some.
    destruct (std_find action (permissible_chars n)); split; congruence.
  - intros i Hi. destruct (std_find action (permissible_chars n)) as [k|] eqn:Hk;
      [|discriminate]. injection Hi as ->. apply std_find_Some in Hk. apply Hk.
  - rewrite <- std_find_None.
    destruct (std_find action (permissible_chars n)); split; congruence.
  - intros what. destruct (std_find action (permissible_chars n)); congruence.
Qed.

(** X8: on a node whose [affected] is as long as its characters,
    [add_action] keeps the index of every action that was permissible - an
    action added a second time keeps its first index, so the new entry is
    not reachable through [get_action_index] - and gives a new action the
    next index, where [get_action_at] and [get_affected_at] answer what
    was added. *)
Theorem add_action_indexing (a b : abc_t) (aff : Affected) (n : BaseNode) :
  length (affected n) = length (permissible_chars n) ->
  get_action_index b (add_action a aff n) =
    match get_action_index b n with
    | Ret i => Ret i
    | Throw what => if decide (a = b) then Ret (get_num_actions n) else Throw what
    end /\
  get_num_actions (add_action a aff n) = S (get_num_actions n) /\
  length (affected (add_action a aff n)) = length (permissible_chars (add_action a aff n)) /\
  get_action_at (get_num_actions n) (add_action a aff n) = Some a /\
  get_affected_at (get_num_actions n) (add_action a aff n) = Some aff /\
  (forall i, i < get_num_actions n ->
     get_action_at i (add_action a aff n) = get_action_at i n /\
     get_affected_at i (add_action a aff n) = get_affected_at i n).
Proof.
  intros Hlen.
  unfold get_action_index, get_num_actions, get_action_at, get_affected_at, add_action. simpl.
  split; [|split; [|split; [|split; [|split]]]].
  - rewrite std_find_snoc. destruct (std_find b (permissible_chars n)); [reflexivity|].
    destruct (decide (a = b)); reflexivity.
  - rewrite length_app. simpl. lia.
  - rewrite !length_app. simpl. lia.
  - apply list_lookup_middle. reflexivity.
  - apply list_lookup_middle. symmetry. exact Hlen.
  - intros i Hi. split; apply lookup_app_l; lia.
Qed.

(** X9: [update_affected_at] is defined on the indices of [affected]
    only; it appends the position to the list of that action and leaves
    the lists of the other actions, and the characters, as they were. *)
Theorem update_affected_at_appends (index : nat) (order : Z) (pos : nat) (n : BaseNode) :
  (is_Some (update_affected_at index order pos n) <-> index < length (affected n)) /\
  (forall n', update_affected_at index order pos n = Some n' ->
     exists aff,
       get_affected_at index n = Some aff /\
       get_affected_at index n' = Some (aff ++ [(order, pos)]) /\
       get_num_affected_at index n' = Some (S (length aff)) /\
       (forall j, j <> index -> get_affected_at j n' = get_affected_at j n) /\
       length (affected n') = length (affected n) /\
       permissible_chars n' = permissible_chars n /\
       forall a, get_action_index a n' = get_action_index a n).
Proof.
  unfold update_affected_at, get_affected_at, get_num_affected_at. split.
  - rewrite <- lookup_lt_is_Some.
    destruct (affected n !! index) as [aff|]; simpl; split; intros [x Hx]; eauto; discriminate.
  - intros n' H. destruct (affected n !! index) as [aff|] eqn:Haff; simpl in H; [|discriminate].
    injection H as <-. exists aff. simpl.
    pose proof (lookup_lt_Some _ _ _ Haff) as Hlt.
    split; [reflexivity|].
    split; [rewrite list_lookup_insert_eq by exact Hlt; reflexivity|].
    split; [rewrite list_lookup_insert_eq by exact Hlt; simpl;
            rewrite length_app; simpl; f_equal; lia|].
    split; [intros j Hj; apply list_lookup_insert_ne; congruence|].
    split; [apply length_insert|]. split; reflexivity.
Qed.

End ActionTable.

Lemma add_action_indexing_witness :
  get_action_index 4%nat (add_action 4%nat [(0%Z, 1)] two_action_node) = Ret 0 /\
  get_action_index 7%nat (add_action 7%nat [(0%Z, 1)] two_action_node) = Ret 2 /\
  get_affected_at 2 (add_action 7%nat [(0%Z, 1)] two_action_node) = Some [(0%Z, 1)].
Proof.
  destruct (add_action_indexing 4%nat 4%nat [(0%Z, 1)] two_action_node eq_refl) as (A & _).
  destruct (add_action_indexing 7%nat 7%nat [(0%Z, 1)] two_action_node eq_refl)
    as (B & _ & _ & _ & C & _).
  split; [exact A|]. split; [exact B|exact C].
Defined.

(** ** Evaluation *)

Section Evaluation.

(** X10: [gather_priors] is defined exactly when every index lies inside
    [values]; it then answers one prior per index: the value at the index
    divided by the sum the code forms of the gathered values. *)
Theorem gather_priors_defined (values : list float) (indices : list abc_t) :
  (is_Some (gather_priors values indices) <->
     Forall (fun i => i < length values) indices) /\
  (forall pr, gather_priors values indices = Some pr ->
     length pr = length indices /\
     exists ret,
       length ret = length indices /\
       (forall k i, indices !! k = Some i -> ret !! k = values !! i) /\
       (forall k v, ret !! k = Some v -> pr !! k = Some (fdiv v (normalize_sum ret)))).
Proof.
  unfold gather_priors. split.
  - transitivity (is_Some (mapM (fun index => values !! index) indices)).
    + destruct (mapM (fun index => values !! index) indices); simpl;
        split; intros [x Hx]; eauto; discriminate.
    + rewrite mapM_is_Some. apply Forall_iff. intros i. simpl. apply lookup_lt_is_Some.
  - intros pr H.
    destruct (mapM (fun index => values !! index) indices) as [ret|] eqn:Hm;
      simpl in H; [|discriminate].
    injection H as <-. pose proof (length_mapM _ _ _ Hm) as Hl.
    split; [unfold normalize; rewrite length_map; congruence|].
    exists ret. split; [congruence|]. split.
    + intros k i Hk. apply mapM_Some in Hm.
      destruct (Forall2_lookup_l _ _ _ _ _ Hm Hk) as (y & Hy & Hv). congruence.
    + intros k v Hk. unfold normalize. rewrite list_lookup_fmap, Hk. reflexivity.
Qed.

Lemma gather_priors_length (values : list float) (indices : list abc_t) pr :
  gather_priors values indices = Some pr -> length pr = length indices.
Proof.
  unfold gather_priors. intros H.
  destruct (mapM (fun index => values !! index) indices) as [ret|] eqn:Hm;
    simpl in H; [|discriminate].
  injection H as <-. unfold normalize. rewrite length_map. symmetry.
  eapply length_mapM. eassumption.
Qed.

(** X11: [TreeNode::evaluate] is write-once.  A call that returns leaves
    the node evaluated, and a further call, with whatever priors, changes
    nothing.  A call on a node that was not evaluated stores the priors
    handed in and attaches one prior per action; once the priors are
    cleared, evaluating again behaves as on the node before its first
    evaluation. *)
Theorem evaluate_write_once m1 s1 m2 s2 t t1 :
  evaluate m1 s1 t = Some t1 ->
  is_evaluated (base t1) = true /\
  evaluate m2 s2 t1 = Some t1 /\
  (is_evaluated (base t) = false ->
     meta_priors t1 = m1 /\ special_priors t1 = s1 /\
     length (priors (base t1)) = length (permissible_chars (base t)) /\
     evaluate m2 s2 (tree_clear_priors t1) = evaluate m2 s2 t).
Proof.
  unfold evaluate. intros H.
  destruct (is_expanded (base t)) eqn:Hex; [|discriminate].
  destruct (is_evaluated (base t)) eqn:Hev.
  - injection H as <-. rewrite Hex, Hev. split; [reflexivity|]. split; [reflexivity|].
    discriminate.
  - destruct (m1 !! 0) as [row|]; simpl in H; [|discriminate].
    destruct (gather_priors row (permissible_chars (base t))) as [pr|] eqn:Hpr;
      simpl in H; [|discriminate].
    injection H as <-. simpl.
    pose proof (gather_priors_length _ _ _ Hpr) as Hl.
    assert (Hev1 : is_evaluated (set_priors pr (base t)) = true).
    { unfold is_evaluated, is_expanded in *. simpl. rewrite Hl. exact Hex. }
    change (is_expanded (set_priors pr (base t))) with (is_expanded (base t)).
    rewrite Hex, Hev1. split; [reflexivity|]. split; [reflexivity|]. intros _.
    split; [reflexivity|]. split; [reflexivity|]. split; [exact Hl|].
    unfold tree_clear_priors, with_base. simpl.
    change (is_expanded (clear_priors (set_priors pr (base t)))) with (is_expanded (base t)).
    rewrite Hex. reflexivity.
Qed.

(** X12: a mini node that is expanded and not yet evaluated takes its
    priors from row [ap + 1] of the meta priors of its tree node, a
    transition node from row 5 and a node of the special phase from the
    special priors; with six meta rows, each as wide as the alphabet
    used, the evaluation is defined for every phase and attaches one prior
    per action, and with fewer rows than [ap + 2] it is not defined. *)
Theorem MiniNode_evaluate_rows (t : TreeNode) (n : BaseNode) (ap : ActionPhase) :
  node_phase n = Some ap ->
  is_expanded n = true -> is_evaluated n = false ->
  (length (meta_priors t) = 6 ->
   Forall (fun row => Forall (fun c => c < length row) (permissible_chars n)) (meta_priors t) ->
   Forall (fun c => c < length (special_priors t)) (permissible_chars n) ->
   exists pr,
     MiniNode_evaluate t n = Some (set_priors pr n) /\
     length pr = length (permissible_chars n) /\
     is_evaluated (set_priors pr n) = true /\
     match ap with
     | SPECIAL_TYPE => gather_priors (special_priors t) (permissible_chars n)
     | _ => meta_priors t !! (phase_index ap + 1)
              ≫= fun row => gather_priors row (permissible_chars n)
     end = Some pr) /\
  (ap <> SPECIAL_TYPE -> length (meta_priors t) <= phase_index ap + 1 ->
   MiniNode_evaluate t n = None).
Proof.
  intros Hph Hex Hev. unfold MiniNode_evaluate. rewrite Hph. simpl. rewrite Hex, Hev.
  split.
  - intros Hrows Hwide Hspecial.
    assert (Hdone : forall pr values,
      gather_priors values (permissible_chars n) = Some pr ->
      length pr = length (permissible_chars n) /\ is_evaluated (set_priors pr n) = true).
    { intros pr values Hpr. pose proof (gather_priors_length _ _ _ Hpr) as Hl.
      split; [exact Hl|]. unfold is_evaluated, is_expanded in *. simpl. rewrite Hl. exact Hex. }
    assert (Hrow : ap <> SPECIAL_TYPE ->
      exists row pr, meta_priors t !! (phase_index ap + 1) = Some row /\
        gather_priors row (permissible_chars n) = Some pr /\
        evaluate_actions (permissible_chars n) ap t = Some pr).
    { intros Hne.
      assert (Hlt : phase_index ap + 1 < length (meta_priors t)).
      { rewrite Hrows. destruct ap; simpl; try lia. congruence. }
      destruct (lookup_lt_is_Some_2 _ _ Hlt) as [row Hrow].
      rewrite Forall_forall in Hwide.
      destruct (gather_priors_is_Some row (permissible_chars n)) as (pr & Hpr & _).
      { apply Hwide. eapply list_elem_of_lookup_2. exact Hrow. }
      exists row, pr. split; [exact Hrow|]. split; [exact Hpr|].
      unfold evaluate_actions. rewrite Hrow. exact Hpr. }
    destruct ap;
      try (destruct Hrow as (row & pr & Hr & Hpr & Hrun); [discriminate|];
           destruct (Hdone pr row Hpr) as [Hl He];
           exists pr; rewrite Hrun, Hr; simpl; auto).
    destruct (gather_priors_is_Some (special_priors t) (permissible_chars n) Hspecial)
      as (pr & Hpr & _).
    destruct (Hdone pr _ Hpr) as [Hl He].
    exists pr. unfold evaluate_special_actions. rewrite Hpr. simpl. auto.
  - intros Hne Hshort.
    assert (Hrun : evaluate_actions (permissible_chars n) ap t = None).
    { unfold evaluate_actions. rewrite (lookup_ge_None_2 _ _ Hshort). reflexivity. }
    destruct ap; try congruence; rewrite Hrun; reflexivity.
Qed.

End Evaluation.

Lemma evaluate_write_once_witness :
  exists t1,
    evaluate [[f_1_0; f_1_0]] [] unevaluated_tree = Some t1 /\
    is_evaluated (base t1) = true /\
    evaluate [[f_0_5; f_2_0]] [f_1_0] t1 = Some t1.
Proof.
  destruct (evaluate [[f_1_0; f_1_0]] [] unevaluated_tree) as [t1|] eqn:H.
  - destruct (evaluate_write_once [[f_1_0; f_1_0]] [] [[f_0_5; f_2_0]] [f_1_0]
                unevaluated_tree t1 H) as (A & B & _).
    exists t1. auto.
  - vm_compute in H. discriminate H.
Defined.

Lemma MiniNode_evaluate_rows_witness :
  exists pr,
    MiniNode_evaluate
      (mkTreeNode (new_node KTree false true) [] fzero true
         (replicate 6 (replicate 8 f_1_0)) (replicate 8 f_1_0))
      (clear_priors two_action_node)
    = Some (set_priors pr (clear_priors two_action_node)) /\
    length pr = 2.
Proof.
  destruct (MiniNode_evaluate_rows
              (mkTreeNode (new_node KTree false true) [] fzero true
                 (replicate 6 (replicate 8 f_1_0)) (replicate 8 f_1_0))
              (clear_priors two_action_node) AFTER eq_refl eq_refl eq_refl) as [Hok _].
  destruct Hok as (pr & Hrun & Hl & _).
  - reflexivity.
  - repeat constructor.
  - repeat constructor.
  - exists pr. split; [exact Hrun|exact Hl].
Defined.

(** ** Scores of pruned actions *)

Section PrunedScores.
Local Open Scope Z_scope.
Variable RAND_MAX : Z.
Variable rand : nat -> Z.

Lemma get_scores_loop_inv puct_c heur_c add_noise n k : forall i scores out,
  get_scores_loop RAND_MAX rand puct_c heur_c add_noise n k i scores = Some out ->
  (i + k <= length scores)%nat ->
  length out = length scores /\
  (forall j, (i <= j < i + k)%nat ->
     out !! j = score_at RAND_MAX rand puct_c heur_c add_noise n j /\
     is_Some (score_at RAND_MAX rand puct_c heur_c add_noise n j)) /\
  (forall j, (j < i)%nat -> out !! j = scores !! j).
Proof.
  induction k as [|k IH]; intros i scores out H Hlen; simpl in H.
  - injection H as <-. split; [reflexivity|]. split; [|reflexivity]. intros j Hj. lia.
  - destruct (score_at RAND_MAX rand puct_c heur_c add_noise n i) as [s|] eqn:Hs;
      simpl in H; [|discriminate].
    destruct (IH _ _ _ H) as (Hl & Hin & Hbelow).
    { rewrite length_insert. lia. }
    rewrite length_insert in Hl. split; [exact Hl|]. split.
    + intros j Hj. destruct (decide (j = i)) as [->|Hne].
      * rewrite Hbelow by lia. rewrite Hs.
        split; [apply list_lookup_insert_eq; lia|eauto].
      * apply Hin. lia.
    + intros j Hj. rewrite Hbelow by lia. apply list_lookup_insert_ne. lia.
Qed.

Lemma get_scores_inv puct_c heur_c add_noise n scores :
  get_scores RAND_MAX rand puct_c heur_c add_noise n = Some scores ->
  length scores = length (priors n) /\
  forall j, (j < length (priors n))%nat ->
    scores !! j = score_at RAND_MAX rand puct_c heur_c add_noise n j /\
    is_Some (score_at RAND_MAX rand puct_c heur_c add_noise n j).
Proof.
  unfold get_scores. intros H.
  destruct (stopped n && is_tree_node n); [discriminate|].
  case_bool_decide; [|discriminate].
  destruct (get_scores_loop_inv _ _ _ _ _ _ _ _ H) as (Hl & Hin & _).
  { rewrite length_replicate. lia. }
  rewrite length_replicate in Hl. split; [exact Hl|]. intros j Hj. apply Hin. lia.
Qed.

Lemma score_at_pruned puct_c heur_c add_noise n j s :
  score_at RAND_MAX rand puct_c heur_c add_noise n j = Some s ->
  pruned n !! j = Some true -> s = f_neg_9999_9.
Proof.
  unfold score_at. intros H Hp.
  destruct (action_counts n !! j); simpl in H; [|discriminate].
  destruct (total_values n !! j); simpl in H; [|discriminate].
  destruct (max_values n !! j); simpl in H; [|discriminate].
  destruct (priors n !! j); simpl in H; [|discriminate].
  destruct (affected n !! j); simpl in H; [|discriminate].
  rewrite Hp in H. simpl in H. congruence.
Qed.

Lemma score_at_pruned_Some puct_c heur_c add_noise n j :
  arrays_agree n -> (j < length (permissible_chars n))%nat ->
  pruned n !! j = Some true ->
  score_at RAND_MAX rand puct_c heur_c add_noise n j = Some f_neg_9999_9.
Proof.
  intros (Ha & Hp & Hpr & Hac & Htv & Hmv) Hj Hflag. unfold score_at, Affected in *.
  destruct (lookup_lt_is_Some_2 (action_counts n) j) as [ac E1]; [lia|].
  destruct (lookup_lt_is_Some_2 (total_values n) j) as [tv E2]; [lia|].
  destruct (lookup_lt_is_Some_2 (max_values n) j) as [mv E3]; [lia|].
  destruct (lookup_lt_is_Some_2 (priors n) j) as [p E4]; [lia|].
  destruct (lookup_lt_is_Some_2 (A := list (Z * nat)) (affected n) j) as [aff E5]; [lia|].
  rewrite E1. simpl. rewrite E2. simpl. rewrite E3. simpl. rewrite E4. simpl.
  rewrite E5. simpl. rewrite Hflag. reflexivity.
Qed.

Lemma score_at_flag puct_c heur_c add_noise n j :
  is_Some (score_at RAND_MAX rand puct_c heur_c add_noise n j) -> is_Some (pruned n !! j).
Proof.
  unfold score_at. intros [s H].
  destruct (action_counts n !! j); simpl in H; [|discriminate].
  destruct (total_values n !! j); simpl in H; [|discriminate].
  destruct (max_values n !! j); simpl in H; [|discriminate].
  destruct (priors n !! j); simpl in H; [|discriminate].
  destruct (affected n !! j); simpl in H; [|discriminate].
  destruct (pruned n !! j); simpl in H; [eauto|discriminate].
Qed.

Lemma max_element_from_replicate x k : forall largest i,
  max_element_from largest x i (replicate k x) = largest.
Proof.
  induction k as [|k IH]; intros largest i; simpl; [reflexivity|].
  rewrite flt_irrefl. apply IH.
Qed.

(** X13: on a node all of whose actions are pruned, every score is
    [-9999.9], with or without noise, and [get_best_action] answers the
    first action. *)
Theorem fully_pruned_best_action puct_c heur_c add_noise n c0 :
  arrays_agree n ->
  stopped n && is_tree_node n = false ->
  permissible_chars n !! 0%nat = Some c0 ->
  (forall j b, pruned n !! j = Some b -> b = true) ->
  get_scores RAND_MAX rand puct_c heur_c add_noise n
    = Some (replicate (length (permissible_chars n)) f_neg_9999_9) /\
  get_best_action RAND_MAX rand puct_c heur_c add_noise n = Some (0, c0).
Proof.
  intros Hagree Hst Hc0 Hall.
  pose proof Hagree as (Ha & Hp & Hpr & Hac & Htv & Hmv).
  pose proof (lookup_lt_Some _ _ _ Hc0) as Hpos.
  assert (Hscore : forall j, (j < length (permissible_chars n))%nat ->
            score_at RAND_MAX rand puct_c heur_c add_noise n j = Some f_neg_9999_9).
  { intros j Hj. apply score_at_pruned_Some; try assumption.
    destruct (lookup_lt_is_Some_2 (pruned n) j) as [b Hb]; [lia|].
    rewrite Hb. f_equal. eapply Hall. exact Hb. }
  assert (Hs : get_scores RAND_MAX rand puct_c heur_c add_noise n
               = Some (replicate (length (permissible_chars n)) f_neg_9999_9)).
  { unfold get_scores. rewrite Hst. rewrite bool_decide_true by congruence.
    destruct (get_scores_loop_spec RAND_MAX rand puct_c heur_c add_noise n
                (length (priors n)) 0 (replicate (length (priors n)) fzero))
      as (out & Hout & Hl & Hin & _).
    { intros j Hj. rewrite Hscore by lia. eauto. }
    { rewrite length_replicate. lia. }
    rewrite Hout. f_equal. rewrite length_replicate in Hl.
    apply list_eq. intros j. destruct (decide (j < length (priors n))%nat) as [Hj|Hj].
    - rewrite Hin by lia. rewrite Hscore by lia.
      symmetry. apply lookup_replicate. split; [reflexivity|lia].
    - rewrite lookup_ge_None_2 by lia.
      symmetry. apply lookup_ge_None_2. rewrite length_replicate. lia. }
  split; [exact Hs|].
  unfold get_best_action, is_expanded, is_evaluated.
  rewrite !bool_decide_true by lia. simpl. rewrite Hs. simpl.
  destruct (length (permissible_chars n)) as [|k] eqn:Hk; [lia|]. simpl.
  rewrite max_element_from_replicate. simpl.
  change (wrap_int (Z.of_nat 0)) with 0. change (Z.to_nat 0) with 0%nat.
  rewrite Hc0. reflexivity.
Qed.

(** X14: [get_best_action] never answers a pruned action while some score
    is above [-9999.9]: for scores without NaN, the action chosen is then
    unpruned, and it is the first one with the largest score. *)
Theorem best_action_not_pruned puct_c heur_c add_noise n scores idx c :
  Z.of_nat (length (priors n)) <= INT_MAX ->
  get_scores RAND_MAX rand puct_c heur_c add_noise n = Some scores ->
  no_nan scores ->
  get_best_action RAND_MAX rand puct_c heur_c add_noise n = Some (idx, c) ->
  (exists j s, scores !! j = Some s /\ flt f_neg_9999_9 s = true) ->
  pruned n !! Z.to_nat idx = Some false /\
  permissible_chars n !! Z.to_nat idx = Some c /\
  is_first_max scores (Z.to_nat idx).
Proof.
  intros Hmax Hs Hnn Hbest (j & s & Hj & Hjs).
  destruct (get_scores_inv _ _ _ _ _ Hs) as [Hl Hat].
  assert (Hne : scores <> []) by (intros ->; discriminate Hj).
  pose proof (max_element_lt scores Hne) as Hm.
  pose proof (max_element_first_max scores Hne Hnn) as Hfirst.
  unfold get_best_action in Hbest.
  destruct (is_expanded n && is_evaluated n); [|discriminate].
  rewrite Hs in Hbest. simpl in Hbest.
  rewrite wrap_int_index in Hbest by lia.
  destruct (Z.ltb_spec (Z.of_nat (max_element scores)) 0) as [|_]; [lia|].
  rewrite Nat2Z.id in Hbest.
  destruct (permissible_chars n !! max_element scores) as [c'|] eqn:Hc;
    simpl in Hbest; [|discriminate].
  injection Hbest as <- <-. rewrite Nat2Z.id.
  split; [|split; [exact Hc|exact Hfirst]].
  destruct (Hat (max_element scores)) as [Heq Hsome]; [lia|].
  destruct (score_at_flag _ _ _ _ _ Hsome) as [[|] Hflag]; [|exact Hflag].
  exfalso. destruct Hfirst as (y & Hy & Hge & _).
  destruct Hsome as [y' Hy']. rewrite Hy', Hy in Heq. injection Heq as ->.
  rewrite (score_at_pruned _ _ _ _ _ _ Hy' Hflag) in Hge.
  rewrite (Hge _ _ Hj) in Hjs. discriminate.
Qed.

End PrunedScores.

Lemma fully_pruned_best_action_witness :
  get_best_action 32767 (fun _ => 0%Z) f_1_0 f_1_0 true
    (set_pruned [true; true] two_action_node) = Some (0%Z, 4%nat).
Proof.
  apply (fully_pruned_best_action 32767 (fun _ => 0%Z) f_1_0 f_1_0 true
           (set_pruned [true; true] two_action_node) 4%nat).
  - repeat split.
  - reflexivity.
  - reflexivity.
  - intros [|[|j]] b H; cbv in H; congruence.
Defined.

Lemma best_action_not_pruned_witness :
  pruned (set_pruned [true; false] two_action_node) !! 1 = Some false /\
  permissible_chars (set_pruned [true; false] two_action_node) !! 1 = Some 5 /\
  is_first_max [f_neg_9999_9; fzero] 1.
Proof.
  apply (best_action_not_pruned 32767 (fun _ => 0%Z) f_1_0 f_1_0 false
           (set_pruned [true; false] two_action_node) [f_neg_9999_9; fzero] 1%Z 5).
  - vm_compute. discriminate.
  - vm_compute. reflexivity.
  - repeat constructor.
  - vm_compute. reflexivity.
  - exists 1, fzero. split; reflexivity.
Defined.

(** ** What a prune leaves behind *)

Section PruneCascade.

(** X15: on well-formed acyclic parent links [prune()] returns; the
    node is then fully pruned, in each of its parents the slot leading to
    it is flagged, and a parent whose count of unpruned actions has
    thereby reached zero is itself fully pruned, and so on upwards. *)
Theorem prune_cascades_upwards rank (h : gmap addr BaseNode) a n :
  wf_links rank h -> h !! a = Some n ->
  exists fuel h' n',
    prune fuel a h = Some h' /\ h' !! a = Some n' /\ fully_pruned n' /\
    parents n' = parents n /\ parent_indices n' = parent_indices n /\
    (forall k p pi, parents n !! k = Some p -> parent_indices n !! k = Some pi ->
       exists pn', h' !! p = Some pn' /\ pruned pn' !! pi = Some true /\
         (is_pruned pn' = true -> fully_pruned pn')) /\
    settled (fun _ _ => False) h' a.
Proof.
  intros Hwf Hn.
  destruct (prune_terminates rank (S (rank a))) as [Hall _].
  destruct (Hall a h n) as (fuel & h' & Hrun); [lia|assumption|assumption|].
  pose proof (run_call_done rank fuel (PruneAll a) h h' (proj2 Hwf) Hrun)
    as [Hset (n' & Hn' & Hfull)].
  destruct (run_call_sound fuel (PruneAll a) h h' Hrun) as (Hstep & _).
  destruct (heap_step_lookup _ _ _ _ Hstep Hn) as (n'' & Hn'' & (Hp & Hpi & _)).
  assert (n'' = n') as -> by congruence.
  exists fuel, h', n'. split; [exact Hrun|]. split; [exact Hn'|].
  split; [exact Hfull|]. split; [exact Hp|]. split; [exact Hpi|]. split; [|exact Hset].
  intros k p pi Hk Hki.
  destruct (settled_inv _ _ _ Hset) as (m & Hm & Hrest).
  assert (m = n') as -> by congruence.
  destruct (Hrest (proj1 Hfull)) as [_ Hedges].
  destruct (Hedges k p pi) as (pn & Hpn & Hflag & Hps); [congruence|congruence|tauto|].
  exists pn. split; [exact Hpn|]. split; [exact Hflag|].
  destruct (settled_inv _ _ _ Hps) as (pm & Hpm & Hprest).
  assert (pm = pn) as -> by congruence.
  intros Hz. apply Hprest. exact Hz.
Qed.

End PruneCascade.

Lemma prune_cascades_upwards_witness :
  exists fuel h' n',
    prune fuel 2 chain_heap = Some h' /\ h' !! 2 = Some n' /\ fully_pruned n' /\
    exists pn', h' !! 1 = Some pn' /\ pruned pn' !! 0 = Some true /\
      (is_pruned pn' = true -> fully_pruned pn').
Proof.
  destruct (prune_cascades_upwards (fun a => a) chain_heap 2 (chain_node [1] [0] [None])
              chain_heap_wf eq_refl)
    as (fuel & h' & n' & Hrun & Hn' & Hfull & _ & _ & Hparents & _).
  exists fuel, h', n'. split; [exact Hrun|]. split; [exact Hn'|]. split; [exact Hfull|].
  apply (Hparents 0 1 0); reflexivity.
Defined.

(** ** Finished states *)

Section Done.
Variable get_edit_dist_at : Word_ptr -> nat -> float.

Lemma fadd_zero_zero x y : is_zero x = true -> is_zero y = true -> is_zero (fadd x y) = true.
Proof.
  destruct x as [sx| | |], y as [sy| | |]; try discriminate. intros _ _.
  destruct sx, sy; reflexivity.
Qed.

Lemma fadd_zero_l x y : is_zero x = true -> is_zero y = false -> fadd x y = y.
Proof.
  destruct x as [sx| | |], y as [sy|sy| |sy my ey]; try discriminate; reflexivity.
Qed.

Lemma dist_fold_zero (l : list (nat * Word_ptr)) : forall acc,
  is_zero acc = true ->
  Forall (fun ow => is_zero (get_edit_dist_at (snd ow) (fst ow)) = true) l ->
  is_zero (foldl (fun acc ow => fadd acc (get_edit_dist_at (snd ow) (fst ow))) acc l) = true.
Proof.
  induction l as [|ow l IH]; intros acc Hacc Hall; simpl; [exact Hacc|].
  apply Forall_cons in Hall as [Hx Hall]. apply IH; [|exact Hall].
  apply fadd_zero_zero; assumption.
Qed.

Lemma dist_fold_sum_ok (l : list (nat * Word_ptr)) : forall acc,
  sum_ok acc ->
  Forall (fun ow => not_negative (get_edit_dist_at (snd ow) (fst ow))) l ->
  sum_ok (foldl (fun acc ow => fadd acc (get_edit_dist_at (snd ow) (fst ow))) acc l).
Proof.
  induction l as [|ow l IH]; intros acc Hacc Hall; simpl; [exact Hacc|].
  apply Forall_cons in Hall as [Hx Hall]. apply IH; [|exact Hall].
  apply sum_ok_step; assumption.
Qed.

Lemma dist_fold_positive (l : list (nat * Word_ptr)) : forall acc,
  is_zero acc = true ->
  Forall (fun ow => not_negative (get_edit_dist_at (snd ow) (fst ow))) l ->
  Exists (fun ow => is_zero (get_edit_dist_at (snd ow) (fst ow)) = false) l ->
  sum_ok (foldl (fun acc ow => fadd acc (get_edit_dist_at (snd ow) (fst ow))) acc l).
Proof.
  induction l as [|ow l IH]; intros acc Hacc Hall Hex; simpl.
  - inversion Hex.
  - apply Forall_cons in Hall as [Hx Hall].
    destruct (is_zero (get_edit_dist_at (snd ow) (fst ow))) eqn:Hz.
    + apply IH; [apply fadd_zero_zero; assumption|exact Hall|].
      inversion Hex as [? ? Hhead|? ? Htail]; subst; [congruence|exact Htail].
    + apply dist_fold_sum_ok; [|exact Hall].
      rewrite (fadd_zero_l _ _ Hacc Hz).
      destruct (not_negative_cases _ Hx) as [Hn|[Hzero|Hp]].
      * left. exact Hn.
      * congruence.
      * right. exact Hp.
Qed.

Lemma eq_zero_of_zero (d : float) :
  is_zero d = true -> SFeqb (double_of_float d) (S754_zero false) = true.
Proof. destruct d as [s| | |]; try discriminate. destruct s; reflexivity. Qed.

Lemma eq_zero_of_sum_ok (d : float) :
  sum_ok d -> SFeqb (double_of_float d) (S754_zero false) = false.
Proof.
  intros [->|Hp]; [reflexivity|]. apply double_of_float_pos in Hp.
  destruct (double_of_float d) as [s|s| |s m e]; try destruct s; simpl in Hp;
    try contradiction; reflexivity.
Qed.

Lemma common_init_done (ws : list Word_ptr) (t : TreeNode) :
  done t = false -> is_zero (dist t) = true ->
  (forall order w, ws !! order = Some w -> not_negative (get_edit_dist_at w order)) ->
  (done (common_init get_edit_dist_at ws t) = true <->
   forall order w, ws !! order = Some w -> is_zero (get_edit_dist_at w order) = true).
Proof.
  intros Hd Hz Hnn. unfold common_init. simpl.
  set (l := imap (fun order w => (order, w)) ws).
  assert (Hl : forall (P : nat * Word_ptr -> Prop),
            Forall P l <-> forall order w, ws !! order = Some w -> P (order, w)).
  { intros P. rewrite Forall_forall. split.
    - intros H order w Hw. apply H. apply elem_of_lookup_imap. eauto.
    - intros H x Hx. apply elem_of_lookup_imap in Hx as (i & w & -> & Hw). auto. }
  assert (Hall : Forall (fun ow => not_negative (get_edit_dist_at (snd ow) (fst ow))) l).
  { apply Hl. exact Hnn. }
  split.
  - intros Hdone.
    apply (Hl (fun ow => is_zero (get_edit_dist_at (snd ow) (fst ow)) = true)).
    destruct (Forall_Exists_dec
                (fun ow : nat * Word_ptr => is_zero (get_edit_dist_at (snd ow) (fst ow)) = true)
                (fun ow => is_zero (get_edit_dist_at (snd ow) (fst ow)) <> true)
                (fun ow => match bool_dec (is_zero (get_edit_dist_at (snd ow) (fst ow))) true with
                           | left e => left e | right e => right e end) l)
      as [Hyes|Hno]; [exact Hyes|].
    exfalso. rewrite eq_zero_of_sum_ok in Hdone; [congruence|].
    apply dist_fold_positive; [exact Hz|exact Hall|].
    eapply Exists_impl; [exact Hno|]. intros ow Hne. simpl in Hne.
    destruct (is_zero (get_edit_dist_at (snd ow) (fst ow))); congruence.
  - intros Hzero. rewrite eq_zero_of_zero; [reflexivity|].
    apply dist_fold_zero; [exact Hz|].
    apply (Hl (fun ow => is_zero (get_edit_dist_at (snd ow) (fst ow)) = true)). exact Hzero.
Qed.

(** X16: a tree node built by either constructor is [done] exactly when
    the edit distance of every word at its order is zero, for distances
    that are not negative; in particular a node of no words is done. *)
Theorem TreeNode_done_iff_no_distance (ws : list Word_ptr) (stopped : bool) :
  (forall order w, ws !! order = Some w -> not_negative (get_edit_dist_at w order)) ->
  (done (TreeNode_new get_edit_dist_at ws) = true <->
   forall order w, ws !! order = Some w -> is_zero (get_edit_dist_at w order) = true) /\
  (done (TreeNode_new_stopped get_edit_dist_at ws stopped) = true <->
   forall order w, ws !! order = Some w -> is_zero (get_edit_dist_at w order) = true).
Proof.
  intros Hnn. split; apply common_init_done; auto.
Qed.

End Done.

Lemma TreeNode_done_iff_no_distance_witness :
  done (TreeNode_new (fun w order => if Nat.eqb w 7 then f_2_0 else fzero) [3; 4]) = true /\
  done (TreeNode_new (fun w order => if Nat.eqb w 7 then f_2_0 else fzero) [3; 7]) = false.
Proof.
  destruct (TreeNode_done_iff_no_distance
              (fun w order => if Nat.eqb w 7 then f_2_0 else fzero) [3; 4] false)
    as [[_ Hyes] _].
  { intros order w _. destruct (Nat.eqb w 7); split; reflexivity. }
  destruct (TreeNode_done_iff_no_distance
              (fun w order => if Nat.eqb w 7 then f_2_0 else fzero) [3; 7] false)
    as [[Hno _] _].
  { intros order w _. destruct (Nat.eqb w 7); split; reflexivity. }
  split.
  - apply Hyes.
    intros [|[|order]] w H; simpl in H; try discriminate; injection H as <-; reflexivity.
  - destruct (done (TreeNode_new (fun w order => if Nat.eqb w 7 then f_2_0 else fzero) [3; 7]));
      [|reflexivity].
    discriminate (Hno eq_refl 1 7 eq_refl).
Defined.

(** ** More marshalling *)

Section MoreMarshal.
Variable PAD_ID : Z.

Lemma for_loop_split {St : Type} (body : nat -> St -> option St) a : forall b i s,
  for_loop (a + b) i body s = for_loop a i body s ≫= for_loop b (i + a) body.
Proof.
  induction a as [|a IH]; intros b i s; simpl.
  - rewrite Nat.add_0_r. reflexivity.
  - destruct (body i s) as [s1|]; simpl; [|reflexivity].
    rewrite IH. replace (S i + a) with (i + S a) by lia. reflexivity.
Qed.

Lemma np2vector_fill {A : Type} (zero : A) (arr : list A) m k :
  m <= length arr -> m <= k ->
  for_loop m 0 (fun i (vec : list A) => x ← arr !! i; Some (<[i := x]> vec))
           (replicate k zero)
    = Some (take m arr ++ replicate (k - m) zero).
Proof.
  intros Hm Hk.
  destruct (for_loop_inv
    (fun j (s : list A) => length s = k /\
       (forall j', j' < j -> s !! j' = arr !! j') /\
       (forall j', j <= j' < k -> s !! j' = Some zero))
    (fun i (vec : list A) => x ← arr !! i; Some (<[i := x]> vec))
    m 0 (replicate k zero)) as (s & Hrun & Hl & Hlow & Hhigh).
  - split; [apply length_replicate|]. split; [intros j' Hj'; lia|].
    intros j' Hj'. apply lookup_replicate_2. lia.
  - intros j s Hj (Hl & Hlow & Hhigh).
    destruct (lookup_lt_is_Some_2 arr j ltac:(lia)) as [x Hx]. rewrite Hx. simpl.
    eexists. split; [reflexivity|]. split; [rewrite length_insert; exact Hl|]. split.
    + intros j' Hj'. destruct (decide (j' = j)) as [->|Hne].
      * rewrite list_lookup_insert_eq by lia. congruence.
      * rewrite list_lookup_insert_ne by congruence. apply Hlow. lia.
    + intros j' Hj'. rewrite list_lookup_insert_ne by lia. apply Hhigh. lia.
  - rewrite Hrun. f_equal. apply list_eq. intros j.
    destruct (decide (j < m)) as [Hj|Hj].
    + rewrite lookup_app_l by (rewrite length_take; lia).
      rewrite lookup_take_lt by exact Hj. apply Hlow. lia.
    + rewrite lookup_app_r by (rewrite length_take; lia).
      rewrite length_take, Nat.min_l by lia.
      destruct (decide (j < k)) as [Hjk|Hjk].
      * rewrite Hhigh by lia. symmetry. apply lookup_replicate_2. lia.
      * rewrite lookup_ge_None_2 by lia. symmetry. apply lookup_ge_None_2.
        rewrite length_replicate. lia.
Qed.

Lemma np2vector_spec {A : Type} (zero : A) (arr : list A) (n : Z) :
  np2vector zero arr n =
    if decide (0 <= n <= Z.of_nat (length arr))%Z then Some (take (Z.to_nat n) arr) else None.
Proof.
  unfold np2vector. destruct (Z.ltb_spec n 0) as [Hneg|Hpos].
  - destruct (decide (0 <= n <= Z.of_nat (length arr))%Z); [lia|reflexivity].
  - destruct (decide (0 <= n <= Z.of_nat (length arr))%Z) as [Hin|Hout].
    + rewrite np2vector_fill by lia. rewrite Nat.sub_diag. simpl.
      rewrite app_nil_r. reflexivity.
    + replace (Z.to_nat n) with (length arr + S (Z.to_nat n - length arr - 1)) at 1 by lia.
      rewrite for_loop_split, np2vector_fill by lia. simpl.
      rewrite lookup_ge_None_2 by lia. reflexivity.
Qed.

(** X17: [np2vector(arr, n)] copies the first [n] entries and raises
    when [n] is negative or beyond the array.  So [PyTreeNode.expand]
    hands over the whole prior and the action mask cut to the length of
    the prior, and raises when the mask is the shorter of the two. *)
Theorem expand_marshalling (prior : list float) (action_mask : list bool) :
  (forall (A : Type) (zero : A) (arr : list A) (n : Z),
     np2vector zero arr n =
       if decide (0 <= n <= Z.of_nat (length arr))%Z
       then Some (take (Z.to_nat n) arr) else None) /\
  expand_args prior action_mask =
    if decide (length prior <= length action_mask)
    then Some (prior, take (length prior) action_mask) else None.
Proof.
  split; [intros A zero arr n; apply np2vector_spec|].
  unfold expand_args. rewrite !np2vector_spec.
  destruct (decide (0 <= Z.of_nat (length prior) <= Z.of_nat (length prior))%Z); [|lia].
  simpl. rewrite Nat2Z.id, firstn_all.
  destruct (decide (length prior <= length action_mask)) as [Hle|Hgt].
  - destruct (decide (0 <= Z.of_nat (length prior) <= Z.of_nat (length action_mask))%Z); [|lia].
    reflexivity.
  - destruct (decide (0 <= Z.of_nat (length prior) <= Z.of_nat (length action_mask))%Z); [lia|].
    reflexivity.
Qed.

Lemma vocab2np_wf (v : VocabIdSeq) m out :
  shape0 out = length v -> shape1 out = m -> length (cells out) = length v ->
  (forall i s, v !! i = Some s -> length s <= m) ->
  (forall i s, v !! i = Some s ->
     cells out !! i = Some (s ++ replicate (m - length s) PAD_ID)) ->
  wf_array out.
Proof.
  intros H0 H1 Hcl Hle Hrow. split; [congruence|].
  apply Forall_forall. intros r Hr. apply list_elem_of_lookup_1 in Hr as [i Hi].
  destruct (lookup_lt_is_Some_2 v i) as [s Hs].
  { apply lookup_lt_Some in Hi. lia. }
  rewrite (Hrow i s Hs) in Hi. injection Hi as <-.
  rewrite length_app, length_replicate. specialize (Hle i s Hs). lia.
Qed.

(** X18: the other round trip.  [vocab2np] is defined on every
    vocabulary, and reading its array back with [np2vocab] and the lengths
    of the sequences gives the vocabulary again, whatever ids it holds,
    [PAD_ID] included. *)
Theorem vocab2np_np2vocab_round_trip (v : VocabIdSeq) :
  exists out,
    vocab2np PAD_ID v = Some out /\
    wf_array out /\ shape0 out = length v /\
    (forall i s, v !! i = Some s -> length s <= shape1 out) /\
    np2vocab out (map (fun s => Z.of_nat (length s)) v) (length v) = Some v.
Proof.
  destruct (vocab2np_spec PAD_ID v) as (m & out & Hout & H0 & H1 & Hcl & Hle & Hrow).
  pose proof (vocab2np_wf v m out H0 H1 Hcl Hle Hrow) as Hwf.
  exists out. split; [exact Hout|]. split; [exact Hwf|]. split; [exact H0|].
  split; [intros i s Hs; rewrite H1; eauto|].
  destruct (np2vocab_spec out (map (fun s => Z.of_nat (length s)) v) Hwf)
    as (v' & Hv' & Hl' & Hrows').
  - rewrite length_map. congruence.
  - intros i len Hlen. rewrite list_lookup_fmap in Hlen.
    destruct (v !! i) as [s|] eqn:Hs; simpl in Hlen; [|discriminate].
    injection Hlen as <-. specialize (Hle i s Hs). lia.
  - rewrite <- H0, Hv'. f_equal. apply list_eq. intros i.
    destruct (v !! i) as [s|] eqn:Hs.
    + rewrite (Hrows' i (s ++ replicate (m - length s) PAD_ID) (Z.of_nat (length s))).
      * rewrite Nat2Z.id, take_app_length. reflexivity.
      * apply Hrow. exact Hs.
      * rewrite list_lookup_fmap, Hs. reflexivity.
    + apply lookup_ge_None_2. apply lookup_ge_None_1 in Hs. lia.
Qed.

End MoreMarshal.

(** ** The older tree node and its wrapper *)

Module OldTreeFacts.
Import OldTree.

(** X19: a node built by [TreeNode(vocab_i)] is a leaf that has acted
    with no action.  [add_edge] makes the node act with the action and
    stops it being a leaf, replaces the child an earlier [add_edge] stored
    for that action, and leaves the other actions alone; a node is a leaf
    exactly when it has acted with no action. *)
Theorem add_edge_has_acted (t : TreeNode) (a : Z) (child : ptr) :
  (forall v b, is_leaf (TreeNode_new v) = true /\ has_acted b (TreeNode_new v) = false /\
     TreeNode_size (TreeNode_new v) = Z.of_nat (length v)) /\
  has_acted a (add_edge a child t) = true /\
  edges (add_edge a child t) !! a = Some child /\
  is_leaf (add_edge a child t) = false /\
  (forall b, b <> a ->
     has_acted b (add_edge a child t) = has_acted b t /\
     edges (add_edge a child t) !! b = edges t !! b) /\
  (forall child0, add_edge a child (add_edge a child0 t) = add_edge a child t) /\
  (is_leaf t = true <-> forall b, has_acted b t = false).
Proof.
  unfold has_acted, is_leaf, add_edge, TreeNode_new, TreeNode_size. simpl.
  split; [|split; [|split; [|split; [|split; [|split]]]]].
  - intros v b. split; [reflexivity|]. split; [|reflexivity].
    apply bool_decide_eq_false_2. rewrite lookup_empty. intros [x Hx]. discriminate.
  - apply bool_decide_eq_true_2. rewrite lookup_insert_eq. eauto.
  - apply lookup_insert_eq.
  - apply bool_decide_eq_false_2. intros Hz. apply map_size_empty_iff in Hz.
    apply (insert_non_empty _ _ _ Hz).
  - intros b Hb. rewrite lookup_insert_ne by congruence. split; reflexivity.
  - intros child0. rewrite insert_insert_eq. reflexivity.
  - rewrite bool_decide_eq_true, map_size_empty_iff. split.
    + intros -> b. apply bool_decide_eq_false_2. rewrite lookup_empty.
      intros [x Hx]. discriminate.
    + intros Hnone. apply map_empty. intros b. specialize (Hnone b).
      apply bool_decide_eq_false_1 in Hnone.
      destruct (edges t !! b) eqn:Hb; [|reflexivity]. exfalso. apply Hnone. eauto.
Qed.

Lemma np2vocab_prefix arr1 arr2 lengths v1 v2 :
  wf_array arr1 -> wf_array arr2 ->
  length lengths = shape0 arr1 -> shape0 arr2 = shape0 arr1 ->
  (forall i len, lengths !! i = Some len ->
     (0 <= len <= Z.of_nat (shape1 arr1))%Z /\ (0 <= len <= Z.of_nat (shape1 arr2))%Z) ->
  np2vocab arr1 lengths (shape0 arr1) = Some v1 ->
  np2vocab arr2 lengths (shape0 arr2) = Some v2 ->
  (v1 = v2 <->
   forall i row1 row2 len,
     cells arr1 !! i = Some row1 -> cells arr2 !! i = Some row2 -> lengths !! i = Some len ->
     take (Z.to_nat len) row1 = take (Z.to_nat len) row2).
Proof.
  intros Hwf1 Hwf2 Hl Hs Hrange H1 H2.
  destruct (np2vocab_spec arr1 lengths Hwf1 Hl) as (w1 & Hw1 & Hl1 & Hr1).
  { intros i len Hlen. apply (Hrange i len Hlen). }
  destruct (np2vocab_spec arr2 lengths Hwf2) as (w2 & Hw2 & Hl2 & Hr2).
  { congruence. }
  { intros i len Hlen. apply (Hrange i len Hlen). }
  assert (w1 = v1) as -> by congruence. assert (w2 = v2) as -> by congruence.
  split.
  - intros <- i row1 row2 len Hrow1 Hrow2 Hlen.
    pose proof (Hr1 i row1 len Hrow1 Hlen) as E1.
    pose proof (Hr2 i row2 len Hrow2 Hlen) as E2. congruence.
  - intros Hsame. apply list_eq. intros i.
    destruct (decide (i < shape0 arr1)) as [Hi|Hi].
    + destruct Hwf1 as [Hc1 _], Hwf2 as [Hc2 _].
      destruct (lookup_lt_is_Some_2 (cells arr1) i ltac:(lia)) as [row1 Hrow1].
      destruct (lookup_lt_is_Some_2 (cells arr2) i ltac:(lia)) as [row2 Hrow2].
      destruct (lookup_lt_is_Some_2 lengths i ltac:(lia)) as [len Hlen].
      rewrite (Hr1 i row1 len Hrow1 Hlen), (Hr2 i row2 len Hrow2 Hlen).
      f_equal. eapply Hsame; eassumption.
    + rewrite !lookup_ge_None_2 by lia. reflexivity.
Qed.

(** X20: [PyTreeNode(arr, lengths)] fails its assertion when the two
    arrays differ in their first dimension; otherwise, for lengths inside
    the array, it builds a leaf whose [len] is the number of rows and
    whose row [i] holds the first [lengths[i]] cells of the array.  Two
    nodes built with the same lengths are equal under [__eq__] exactly
    when their arrays agree on these cells - the padding is not looked
    at. *)
Theorem PyTreeNode_cinit_contract arr lengths from_ptr :
  wf_array arr ->
  (forall i len, lengths !! i = Some len -> (0 <= len <= Z.of_nat (shape1 arr))%Z) ->
  (shape0 arr <> length lengths ->
   PyTreeNode_cinit (Some arr) (Some lengths) from_ptr
     = PyAssertionError "`arr` and `lengths` must have the same length.") /\
  (shape0 arr = length lengths ->
   exists t,
     PyTreeNode_cinit (Some arr) (Some lengths) from_ptr = PyReturn (Some t) /\
     PyTreeNode_len t = Z.of_nat (shape0 arr) /\
     is_leaf t = true /\ (forall a, has_acted a t = false) /\
     (forall i row len, cells arr !! i = Some row -> lengths !! i = Some len ->
        vocab_i t !! i = Some (take (Z.to_nat len) row)) /\
     forall arr2 t2,
       wf_array arr2 -> shape0 arr2 = shape0 arr ->
       (forall i len, lengths !! i = Some len -> (0 <= len <= Z.of_nat (shape1 arr2))%Z) ->
       PyTreeNode_cinit (Some arr2) (Some lengths) from_ptr = PyReturn (Some t2) ->
       (PyTreeNode_eq t t2 = true <->
        forall i row1 row2 len,
          cells arr !! i = Some row1 -> cells arr2 !! i = Some row2 ->
          lengths !! i = Some len ->
          take (Z.to_nat len) row1 = take (Z.to_nat len) row2)).
Proof.
  intros Hwf Hrange. unfold PyTreeNode_cinit. split.
  - intros Hne. rewrite bool_decide_false by exact Hne. reflexivity.
  - intros Heq. rewrite bool_decide_true by exact Heq.
    destruct (np2vocab_spec arr lengths Hwf (eq_sym Heq) Hrange) as (v & Hv & Hl & Hrows).
    rewrite Hv. exists (TreeNode_new v).
    split; [reflexivity|]. split; [unfold PyTreeNode_len, TreeNode_size; simpl; congruence|].
    split; [reflexivity|]. split.
    { intros a. unfold has_acted. simpl. apply bool_decide_eq_false_2.
      rewrite lookup_empty. intros [x Hx]. discriminate. }
    split; [exact Hrows|].
    intros arr2 t2 Hwf2 Hs2 Hrange2 Hrun2.
    rewrite bool_decide_true in Hrun2 by congruence.
    destruct (np2vocab arr2 lengths (shape0 arr2)) as [v2|] eqn:Hv2; [|discriminate].
    injection Hrun2 as <-. unfold PyTreeNode_eq. simpl.
    rewrite bool_decide_eq_true.
    apply (np2vocab_prefix arr arr2 lengths v v2); auto; try congruence.
    intros i len Hlen. split; [apply (Hrange i len Hlen)|apply (Hrange2 i len Hlen)].
Qed.

End OldTreeFacts.

Lemma PyTreeNode_cinit_contract_witness :
  exists t,
    OldTree.PyTreeNode_cinit (Some (mkArr 2 3 [[1; 2; 3]; [4; 0; 0]]%Z)) (Some [3; 1]%Z) false
      = OldTree.PyReturn (Some t) /\
    OldTree.PyTreeNode_len t = 2%Z /\ OldTree.is_leaf t = true.
Proof.
  destruct (OldTreeFacts.PyTreeNode_cinit_contract
              (mkArr 2 3 [[1; 2; 3]; [4; 0; 0]]%Z) [3; 1]%Z false) as [_ Hok].
  - split; [reflexivity|]. repeat constructor.
  - intros [|[|i]] len H; simpl in H; try discriminate; injection H as <-; simpl; lia.
  - destruct (Hok eq_refl) as (t & Hrun & Hlen & Hleaf & _).
    exists t. split; [exact Hrun|]. split; [exact Hlen|exact Hleaf].
Defined.

(** ** The wrappers of actions, continued *)

Module DriverIterFacts.
Import Driver DriverIter.

(** X21: inside the bounds the wrappers answer.  [get_action] with an id
    in [0, len) wraps the action of that position; iterating an action
    space (whose size is a C [long]) yields every action of it in order,
    and no exception; [get_edge] with an action the node has acted with
    answers the child and the reward stored for it, together with the
    [done] flag of the node asked, not of the child.  The objects are left
    as they were. *)
Theorem lookups_inside_bounds (w : World) :
  (forall self s id,
     spaces w !! as_ptr self = Some s -> fits_long id = true ->
     (0 <= id < py_len s)%Z ->
     get_action self id w = (Returned (mkPyAction (as_ptr self, Z.to_nat id)), w)) /\
  (forall self s,
     spaces w !! as_ptr self = Some s -> fits_long (py_len s) = true ->
     iter_actions self w
       = Some (map (fun i => Returned (mkPyAction (as_ptr self, i)))
                   (seq 0 (length (actions s))))) /\
  (forall self t id (edge : Edge),
     tnodes w !! tn_ptr self = Some t -> fits_long id = true ->
     edges t !! id = Some edge ->
     get_edge self id w = (Returned (mkPyTreeNode (fst edge), done t, snd edge), w)).
Proof.
  assert (Hget : forall self s id,
     spaces w !! as_ptr self = Some s -> fits_long id = true ->
     (0 <= id < py_len s)%Z ->
     get_action self id w = (Returned (mkPyAction (as_ptr self, Z.to_nat id)), w)).
  { intros self s id Hs Hfit Hid. unfold get_action, py_len in *.
    rewrite Hfit, Hs.
    destruct (Z.leb_spec (Z.of_nat (length (actions s))) id) as [|_]; [lia|].
    destruct (Z.ltb_spec id 0) as [|_]; [lia|]. simpl.
    destruct (lookup_lt_is_Some_2 (actions s) (Z.to_nat id) ltac:(lia)) as [a Ha].
    rewrite Ha. reflexivity. }
  split; [exact Hget|]. split.
  - intros self s Hs Hlen. unfold iter_actions. rewrite Hs. simpl. f_equal.
    apply map_ext_in. intros i Hi. apply in_seq in Hi.
    rewrite (Hget self s (Z.of_nat i) Hs).
    + simpl. rewrite Nat2Z.id. reflexivity.
    + unfold fits_long, py_len in *. apply bool_decide_eq_true_1 in Hlen.
      apply bool_decide_eq_true_2. lia.
    + unfold py_len. lia.
  - intros self t id edge Ht Hfit Hedge. unfold get_edge.
    rewrite Hfit, Ht. unfold has_acted. rewrite bool_decide_true by (rewrite Hedge; eauto).
    rewrite Hedge. reflexivity.
Qed.

Lemma lookups_inside_bounds_witness :
  get_action (mkPyActionSpace 0) 1 sample_world
    = (Returned (mkPyAction (0, 1%nat)), sample_world) /\
  iter_actions (mkPyActionSpace 0) sample_world
    = Some [Returned (mkPyAction (0, 0%nat)); Returned (mkPyAction (0, 1%nat))] /\
  get_edge (mkPyTreeNode 0) 0 sample_world
    = (Returned (mkPyTreeNode 1, false, fzero), sample_world).
Proof.
  destruct (lookups_inside_bounds sample_world) as (Ha & Hi & He). split; [|split].
  - refine (Ha (mkPyActionSpace 0) (mkActionSpace [mkAction 0 3 4; mkAction 1 4 5]) 1%Z _ _ _).
    + reflexivity.
    + reflexivity.
    + unfold py_len. simpl. lia.
  - refine (Hi (mkPyActionSpace 0) (mkActionSpace [mkAction 0 3 4; mkAction 1 4 5]) _ _).
    + reflexivity.
    + reflexivity.
  - refine (He (mkPyTreeNode 0)
               (mkTreeNode [[3; 4]%Z] None 1 false {[ 0%Z := (1, fzero) ]}) 0%Z (1, fzero) _ _ _).
    + reflexivity.
    + reflexivity.
    + reflexivity.
Defined.

End DriverIterFacts.

(** ** Consistent links *)

Section Links.

Lemma parent_entries_lookup (n : BaseNode) p pi :
  (p, pi) ∈ parent_entries n <->
  exists k, parents n !! k = Some p /\ parent_indices n !! k = Some pi.
Proof.
  unfold parent_entries. rewrite elem_of_lookup_zip_with. split.
  - intros (k & x & y & [= -> ->] & Hx & Hy). eauto.
  - intros (k & Hx & Hy). exists k, p, pi. auto.
Qed.

Lemma parent_entries_snoc (n : BaseNode) p pi :
  length (parents n) = length (parent_indices n) ->
  parent_entries (set_parent_indices (parent_indices n ++ [pi]) (set_parents (parents n ++ [p]) n))
    = parent_entries n ++ [(p, pi)].
Proof.
  intros Hl. unfold parent_entries. simpl. rewrite zip_with_app by exact Hl. reflexivity.
Qed.

(** The heap after a connect to a free slot, node by node. *)
Lemma connect_pointwise this index ca (h h' : gmap addr BaseNode) n :
  h !! this = Some n -> children n !! index = Some None ->
  connect this index (Some ca) h = Some h' ->
  forall a,
    h' !! a =
      (fun m =>
         let m1 := if decide (a = this)
                   then set_children (<[index := Some ca]> (children m)) m else m in
         if decide (a = ca)
         then set_parent_indices (parent_indices m1 ++ [index])
                (set_parents (parents m1 ++ [this]) m1)
         else m1) <$> h !! a.
Proof.
  intros Hn Hc H a.
  destruct (connect_inv _ _ _ _ _ H) as (n' & Hn' & [(x & Hx & _)|(_ & ca' & cn & [= <-] & Hca)]);
    assert (n' = n) as -> by congruence; [congruence|].
  rewrite (connect_fresh _ _ _ _ _ _ Hn Hc Hca) in H. injection H as <-.
  destruct (decide (ca = this)) as [->|Hne].
  - destruct (decide (a = this)) as [->|Ha].
    + rewrite lookup_insert_eq, Hn. reflexivity.
    + rewrite lookup_insert_ne by congruence. destruct (h !! a); reflexivity.
  - destruct (decide (a = ca)) as [->|Hac].
    + rewrite lookup_insert_eq, Hca. simpl.
      destruct (decide (ca = this)); [congruence|]. reflexivity.
    + rewrite lookup_insert_ne by congruence.
      destruct (decide (a = this)) as [->|Ha].
      * rewrite lookup_insert_eq, Hn. reflexivity.
      * rewrite lookup_insert_ne by congruence. destruct (h !! a); reflexivity.
Qed.

(** X22: [connect] keeps the two directions of the edges in agreement:
    on a heap whose links are consistent a connect that returns leaves
    them consistent, the slot having been free or not, the child being
    another node or the node itself. *)
Theorem connect_keeps_links_consistent this index ca (h h' : gmap addr BaseNode) :
  links_consistent h ->
  connect this index (Some ca) h = Some h' ->
  links_consistent h'.
Proof.
  intros Hcons H.
  destruct (connect_inv _ _ _ _ _ H) as (n & Hn & [(x & Hx & ->)|(Hc & _)]); [exact Hcons|].
  pose proof (connect_pointwise _ _ _ _ _ _ Hn Hc H) as Hpt.
  pose proof (lookup_lt_Some _ _ _ Hc) as Hlt.
  destruct Hcons as (Hlen & Hup & Hdown & Hnd).
  (* what a node of the new heap looks like *)
  assert (Hnode : forall a m', h' !! a = Some m' ->
    exists m, h !! a = Some m /\
      length (parents m') = length (parent_indices m') /\
      parent_entries m' = parent_entries m ++ (if decide (a = ca) then [(this, index)] else []) /\
      children m' = if decide (a = this) then <[index := Some ca]> (children m) else children m).
  { intros a m' Hm'. rewrite Hpt in Hm'.
    destruct (h !! a) as [m|] eqn:Hm; simpl in Hm'; [|discriminate].
    injection Hm' as <-. exists m. split; [reflexivity|].
    pose proof (Hlen _ _ Hm) as Hl.
    destruct (decide (a = this)) as [Ha|Ha]; destruct (decide (a = ca)) as [Hac|Hac]; simpl;
      rewrite ?length_app, ?app_nil_r; simpl;
      repeat split; try lia; try reflexivity;
      unfold parent_entries; simpl; rewrite zip_with_app by exact Hl; reflexivity. }
  assert (Hdom : forall a m, h !! a = Some m -> exists m', h' !! a = Some m').
  { intros a m Hm. rewrite Hpt, Hm. simpl. eauto. }
  assert (Hfree : forall a m, h !! a = Some m -> (this, index) ∉ parent_entries m).
  { intros a m Hm Hin. destruct (Hup _ _ _ _ Hm Hin) as (pn & Hpn & Hslot). congruence. }
  split; [|split; [|split]].
  - intros a m' Hm'. destruct (Hnode _ _ Hm') as (m & _ & Hl & _). exact Hl.
  - intros a m' p pi Hm' Hin.
    destruct (Hnode _ _ Hm') as (m & Hm & _ & He & _). rewrite He in Hin.
    apply elem_of_app in Hin as [Hin|Hin].
    + destruct (Hup _ _ _ _ Hm Hin) as (pn & Hpn & Hslot).
      destruct (Hdom _ _ Hpn) as (pn' & Hpn').
      destruct (Hnode _ _ Hpn') as (pn0 & Hpn0 & _ & _ & Hch).
      assert (pn0 = pn) as -> by congruence.
      exists pn'. split; [exact Hpn'|]. rewrite Hch.
      destruct (decide (p = this)) as [->|Hp]; [|exact Hslot].
      assert (pn = n) as -> by congruence.
      rewrite list_lookup_insert_ne; [exact Hslot|]. intros ->. congruence.
    + destruct (decide (a = ca)) as [->|Hac]; [|inversion Hin].
      apply list_elem_of_singleton in Hin as [= -> ->].
      destruct (Hdom _ _ Hn) as (n' & Hn').
      destruct (Hnode _ _ Hn') as (n0 & Hn0 & _ & _ & Hch).
      assert (n0 = n) as -> by congruence.
      exists n'. split; [exact Hn'|]. rewrite Hch.
      destruct (decide (this = this)); [|congruence].
      apply list_lookup_insert_eq. exact Hlt.
  - intros p pn' pi a Hpn' Hslot.
    destruct (Hnode _ _ Hpn') as (pn & Hpn & _ & _ & Hch). rewrite Hch in Hslot.
    assert (Hcase : (p = this /\ pi = index /\ a = ca) \/ children pn !! pi = Some (Some a)).
    { destruct (decide (p = this)) as [->|Hp]; [|right; exact Hslot].
      destruct (decide (pi = index)) as [->|Hpi].
      - left. rewrite list_lookup_insert_eq in Hslot by (assert (pn = n) by congruence; subst; exact Hlt).
        injection Hslot as <-. auto.
      - right. rewrite list_lookup_insert_ne in Hslot by congruence. exact Hslot. }
    destruct Hcase as [(-> & -> & ->)|Hold].
    + destruct (h !! ca) as [cn|] eqn:Hcn.
      * destruct (Hdom _ _ Hcn) as (cn' & Hcn').
        destruct (Hnode _ _ Hcn') as (cn0 & Hcn0 & _ & He & _).
        exists cn'. split; [exact Hcn'|]. rewrite He.
        destruct (decide (ca = ca)); [|congruence].
        apply elem_of_app. right. constructor.
      * destruct (connect_inv _ _ _ _ _ H)
          as (n0 & Hn0 & [(x & Hx & _)|(_ & ca' & cn' & [= <-] & Hca')]); congruence.
    + destruct (Hdown _ _ _ _ Hpn Hold) as (m & Hm & Hin).
      destruct (Hdom _ _ Hm) as (m' & Hm').
      destruct (Hnode _ _ Hm') as (m0 & Hm0 & _ & He & _).
      assert (m0 = m) as -> by congruence.
      exists m'. split; [exact Hm'|]. rewrite He. apply elem_of_app. left. exact Hin.
  - intros a m' Hm'. destruct (Hnode _ _ Hm') as (m & Hm & _ & He & _). rewrite He.
    destruct (decide (a = ca)) as [->|Hac]; [|rewrite app_nil_r; eauto].
    apply NoDup_app. split; [eauto|]. split; [|apply NoDup_singleton].
    intros e He1 He2. apply list_elem_of_singleton in He2 as ->.
    exact (Hfree _ _ Hm He1).
Qed.

(** *** Disconnecting from the parents *)

Lemma clear_slots_step (E : list (addr * nat)) i p pi (a : addr) (l : list (option addr)) :
  E !! i = Some (p, pi) ->
  (if decide (a = p)
   then <[pi := None]> (imap (fun j c => if decide ((a, j) ∈ take i E) then None else c) l)
   else imap (fun j c => if decide ((a, j) ∈ take i E) then None else c) l)
  = imap (fun j c => if decide ((a, j) ∈ take (S i) E) then None else c) l.
Proof.
  intros HE. rewrite (take_S_r _ _ _ HE).
  apply list_eq. intros j.
  assert (Hin : forall c : option addr,
    (if decide ((a, j) ∈ take i E ++ [(p, pi)]) then None else c)
    = if decide (a = p /\ j = pi) then None
      else if decide ((a, j) ∈ take i E) then None else c).
  { intros c. destruct (decide (a = p /\ j = pi)) as [[-> ->]|Hne].
    - rewrite decide_True; [reflexivity|]. apply elem_of_app. right. constructor.
    - destruct (decide ((a, j) ∈ take i E)) as [Hi|Hi].
      + rewrite decide_True; [reflexivity|]. apply elem_of_app. left. exact Hi.
      + rewrite decide_False; [reflexivity|]. intros Hx. apply elem_of_app in Hx as [Hx|Hx].
        * contradiction.
        * apply list_elem_of_singleton in Hx as [= -> ->]. tauto. }
  assert (Hrhs :
    imap (fun j c => if decide ((a, j) ∈ take i E ++ [(p, pi)]) then None else c) l !! j
    = (fun c : option addr => if decide (a = p /\ j = pi) then None
                      else if decide ((a, j) ∈ take i E) then None else c) <$> l !! j).
  { rewrite list_lookup_imap. destruct (l !! j) as [c|]; simpl; [|reflexivity].
    rewrite Hin. reflexivity. }
  rewrite Hrhs. clear Hrhs Hin.
  destruct (decide (a = p)) as [->|Hap].
  - destruct (decide (j = pi)) as [->|Hj].
    + destruct (l !! pi) as [c|] eqn:Hc; simpl.
      * rewrite list_lookup_insert_eq by (rewrite length_imap; eapply lookup_lt_Some; eauto).
        rewrite decide_True by tauto. reflexivity.
      * apply lookup_ge_None_2. rewrite length_insert, length_imap.
        apply lookup_ge_None_1 in Hc. exact Hc.
    + rewrite list_lookup_insert_ne by congruence. rewrite list_lookup_imap.
      destruct (l !! j) as [c|]; simpl; [|reflexivity].
      rewrite (decide_False (P := p = p /\ j = pi)) by tauto. reflexivity.
  - rewrite list_lookup_imap. destruct (l !! j) as [c|]; simpl; [|reflexivity].
    rewrite (decide_False (P := a = p /\ j = pi)) by tauto. reflexivity.
Qed.

Lemma clear_slots_none (E : list (addr * nat)) (a : addr) (l : list (option addr)) :
  imap (fun j c => if decide ((a, j) ∈ take 0 E) then None else c) l = l.
Proof.
  apply list_eq. intros j. rewrite list_lookup_imap.
  destruct (l !! j); reflexivity.
Qed.

Lemma disconnect_from_parents_loop this (h : gmap addr BaseNode) n :
  links_consistent h -> h !! this = Some n ->
  exists h1,
    for_loop (length (parents n)) 0
      (disconnect_parent this) h = Some h1 /\
    forall a, h1 !! a = without_child this <$> h !! a.
Proof.
  intros (Hlen & Hup & Hdown & Hnd) Hn.
  set (E := parent_entries n).
  destruct (for_loop_inv
    (fun i (hi : gmap addr BaseNode) =>
       forall a, hi !! a =
         (fun m => set_children
            (imap (fun j c => if decide ((a, j) ∈ take i E) then None else c) (children m)) m)
         <$> h !! a)
    (disconnect_parent this)
    (length (parents n)) 0 h) as (h1 & Hrun & Hfinal).
  - intros a. destruct (h !! a) as [m|]; [|reflexivity].
    cbn [fmap option_fmap option_map]. f_equal.
    rewrite clear_slots_none. destruct m; reflexivity.
  - intros i hi Hi Hinv. simpl in Hi. unfold disconnect_parent.
    rewrite (Hinv this), Hn. simpl.
    destruct (lookup_lt_is_Some_2 (parents n) i ltac:(lia)) as [p Hp].
    destruct (lookup_lt_is_Some_2 (parent_indices n) i
                ltac:(rewrite <- (Hlen _ _ Hn); lia)) as [pi Hpi].
    rewrite Hp. simpl. rewrite Hpi. simpl.
    assert (HE : E !! i = Some (p, pi)).
    { unfold E, parent_entries. rewrite lookup_zip_with, Hp. simpl. rewrite Hpi. reflexivity. }
    destruct (Hup this n p pi Hn) as (pn & Hpn & Hslot).
    { eapply list_elem_of_lookup_2. exact HE. }
    rewrite (Hinv p), Hpn. simpl.
    pose proof (lookup_lt_Some _ _ _ Hslot) as Hlt.
    case_decide as Hd; [|exfalso; apply Hd; rewrite length_imap; exact Hlt].
    eexists. split; [reflexivity|]. intros a.
    destruct (decide (a = p)) as [->|Hap].
    + rewrite lookup_insert_eq, Hpn. simpl. f_equal.
      pose proof (clear_slots_step E i p pi p (children pn) HE) as Hstep.
      rewrite decide_True in Hstep by reflexivity. rewrite <- Hstep.
      destruct pn; reflexivity.
    + rewrite lookup_insert_ne by congruence. rewrite Hinv.
      destruct (h !! a) as [m|]; simpl; [|reflexivity]. f_equal.
      pose proof (clear_slots_step E i p pi a (children m) HE) as Hstep.
      rewrite decide_False in Hstep by exact Hap. rewrite <- Hstep. reflexivity.
  - exists h1. split; [exact Hrun|]. intros a. rewrite Hfinal. simpl.
    destruct (h !! a) as [m|] eqn:Hm; simpl; [|reflexivity]. f_equal.
    unfold without_child. f_equal.
    apply list_eq. intros j. rewrite list_lookup_imap, list_lookup_fmap.
    unfold ptr in *.
    destruct (_ !! j) as [c|] eqn:Hc; simpl; [|reflexivity]. f_equal.
    assert (Hall : take (length (parents n)) E = E).
    { apply take_ge. unfold E, parent_entries. rewrite length_zip_with. lia. }
    rewrite Hall. unfold clear_child.
    case_decide as Hin; case_decide as Hthis; try reflexivity; exfalso.
    + destruct (Hup this n a j Hn Hin) as (m0 & Hm0 & Hslot).
      assert (m0 = m) as -> by congruence.
      apply Hthis. congruence.
    + apply Hin. subst c.
      destruct (Hdown a m j this Hm Hc) as (n0 & Hn0 & Hin').
      assert (n0 = n) as -> by congruence. exact Hin'.
Qed.

Lemma disconnect_from_parents_spec this (h : gmap addr BaseNode) n :
  links_consistent h -> h !! this = Some n ->
  exists h',
    disconnect_from_parents this h = Some h' /\
    forall a, h' !! a =
      (fun m => if decide (a = this)
                then set_parent_indices [] (set_parents [] (without_child this m))
                else without_child this m) <$> h !! a.
Proof.
  intros Hcons Hn.
  destruct (disconnect_from_parents_loop this h n Hcons Hn) as (h1 & Hrun & Hpt).
  unfold disconnect_from_parents. rewrite Hn. simpl. rewrite Hrun. simpl.
  rewrite (Hpt this), Hn. simpl. rewrite lookup_insert_eq. simpl.
  eexists. split; [reflexivity|]. intros a.
  destruct (decide (a = this)) as [->|Ha].
  - rewrite lookup_insert_eq, Hn. reflexivity.
  - rewrite !lookup_insert_ne by congruence. rewrite Hpt.
    destruct (h !! a); reflexivity.
Qed.

(** *** Disconnecting from the children *)

Lemma zip_delete {A B : Type} (l : list A) : forall (k : list B) i,
  zip (delete i l) (delete i k) = delete i (zip l k).
Proof.
  induction l as [|x l IH]; intros [|y k] [|i]; simpl; try reflexivity;
    first [ f_equal; apply IH | apply zip_with_nil_r | destruct l; reflexivity ].
Qed.

Lemma filter_delete_out {A : Type} (P : A -> Prop) `{forall x, Decision (P x)} (l : list A) :
  forall i x, l !! i = Some x -> ~ P x -> filter P (delete i l) = filter P l.
Proof.
  induction l as [|y l IH]; intros [|i] x Hx HP; simpl in *; try discriminate.
  - injection Hx as ->. rewrite filter_cons_False by exact HP. reflexivity.
  - rewrite !filter_cons. rewrite (IH i x Hx HP). reflexivity.
Qed.

Lemma filter_delete_in {A : Type} (P : A -> Prop) `{forall x, Decision (P x)} (l : list A) :
  forall i x, l !! i = Some x -> P x ->
    S (length (filter P (delete i l))) = length (filter P l).
Proof.
  induction l as [|y l IH]; intros [|i] x Hx HP; simpl in *; try discriminate.
  - injection Hx as ->. rewrite filter_cons_True by exact HP. reflexivity.
  - rewrite !filter_cons. destruct (decide (P y)); simpl; rewrite <- (IH i x Hx HP); reflexivity.
Qed.

Lemma filter_other_all (this : addr) (l : list (addr * nat)) :
  length (filter (fun e => fst e = this) l) = 0 ->
  filter (fun e => fst e <> this) l = l.
Proof.
  induction l as [|e l IH]; intros H; [reflexivity|].
  rewrite filter_cons in H. rewrite filter_cons.
  destruct (decide (fst e = this)) as [He|He]; simpl in H; [discriminate|].
  destruct (decide (fst e <> this)); [|contradiction]. f_equal. apply IH. exact H.
Qed.

Lemma std_find_entry (this : addr) (ps : list addr) (pis : list nat) :
  length ps = length pis ->
  0 < length (filter (fun e => fst e = this) (zip ps pis)) ->
  exists idx pi,
    std_find this ps = Some idx /\ zip ps pis !! idx = Some (this, pi) /\
    idx < length pis.
Proof.
  intros Hl Hpos.
  destruct (filter (fun e => fst e = this) (zip ps pis)) as [|e rest] eqn:Hf;
    [simpl in Hpos; lia|].
  assert (He : e ∈ filter (fun e => fst e = this) (zip ps pis)) by (rewrite Hf; constructor).
  apply list_elem_of_filter in He as [He1 He2].
  destruct e as [p pi]. simpl in He1. subst p.
  apply elem_of_zip_l in He2.
  destruct (std_find this ps) as [idx|] eqn:Hfind.
  - apply std_find_Some in Hfind as [Hidx _].
    pose proof (lookup_lt_Some _ _ _ Hidx) as Hlt.
    destruct (lookup_lt_is_Some_2 pis idx ltac:(lia)) as [pi' Hpi'].
    exists idx, pi'. split; [reflexivity|]. split; [|lia].
    rewrite lookup_zip_with, Hidx. simpl. rewrite Hpi'. reflexivity.
  - apply std_find_None in Hfind. contradiction.
Qed.

(** In a consistent heap a node has as many parent entries naming [this]
    as [this] has child slots holding the node. *)
Lemma slot_count this (h : gmap addr BaseNode) n a m :
  links_consistent h -> h !! this = Some n -> h !! a = Some m ->
  length (filter (fun e => fst e = this) (parent_entries m))
  = length (filter (fun j => children n !! j = Some (Some a)) (seq 0 (length (children n)))).
Proof.
  intros (Hlen & Hup & Hdown & Hnd) Hn Hm.
  rewrite <- (length_fmap snd).
  apply Permutation_length. apply NoDup_Permutation.
  - apply NoDup_fmap_2_strong; [|apply NoDup_filter; eauto].
    intros [p1 i1] [p2 i2] H1 H2 Heq. simpl in Heq. subst i2.
    apply list_elem_of_filter in H1 as [H1 _]. apply list_elem_of_filter in H2 as [H2 _].
    simpl in H1, H2. congruence.
  - apply NoDup_filter, NoDup_seq.
  - intros j. rewrite list_elem_of_fmap, list_elem_of_filter, elem_of_seq. split.
    + intros ([p i] & -> & He). apply list_elem_of_filter in He as [Hp He].
      simpl in *. subst p.
      destruct (Hup _ _ _ _ Hm He) as (n0 & Hn0 & Hslot).
      assert (n0 = n) as -> by congruence.
      split; [exact Hslot|]. apply lookup_lt_Some in Hslot. split; [lia|exact Hslot].
    + intros [Hslot _]. destruct (Hdown _ _ _ _ Hn Hslot) as (m0 & Hm0 & Hin).
      assert (m0 = m) as -> by congruence.
      exists (this, j). split; [reflexivity|]. apply list_elem_of_filter. auto.
Qed.

Lemma seq_filter_step (Q : nat -> Prop) `{forall j, Decision (Q j)} i len :
  i < len ->
  length (filter Q (seq i (len - i)))
  = (if decide (Q i) then 1 else 0) + length (filter Q (seq (S i) (len - S i))).
Proof.
  intros Hi. replace (len - i) with (S (len - S i)) by lia. simpl.
  rewrite filter_cons. destruct (decide (Q i)); reflexivity.
Qed.

Lemma nulled_prefix_step (l : list (option addr)) i :
  i < length l ->
  <[i := None]> (replicate i None ++ drop i l) = replicate (S i) None ++ drop (S i) l.
Proof.
  intros Hi. destruct (lookup_lt_is_Some_2 l i Hi) as [x Hx].
  rewrite (drop_S _ _ _ Hx).
  rewrite insert_app_r_alt by (rewrite length_replicate; lia).
  rewrite length_replicate, Nat.sub_diag.
  rewrite replicate_S_end, <- app_assoc. reflexivity.
Qed.

Lemma nulled_prefix_lookup (l : list (option addr)) i :
  (replicate i None ++ drop i l) !! i = l !! i.
Proof.
  rewrite lookup_app_r by (rewrite length_replicate; lia).
  rewrite length_replicate, Nat.sub_diag, lookup_drop. f_equal. lia.
Qed.

Lemma same_but_links_refl n : same_but_links n n.
Proof. unfold same_but_links. destruct n; reflexivity. Qed.

Lemma same_but_links_parents n n' v :
  same_but_links n n' -> same_but_links n (set_parents v n').
Proof.
  unfold same_but_links. intros H. simpl. rewrite H at 1. destruct n; reflexivity.
Qed.

Lemma same_but_links_parent_indices n n' v :
  same_but_links n n' -> same_but_links n (set_parent_indices v n').
Proof.
  unfold same_but_links. intros H. simpl. rewrite H at 1. destruct n; reflexivity.
Qed.

Lemma same_but_links_children n n' v :
  same_but_links n n' -> same_but_links n (set_children v n').
Proof.
  unfold same_but_links. intros H. simpl. rewrite H at 1. destruct n; reflexivity.
Qed.

Lemma disconnect_child_none this i (hi : gmap addr BaseNode) ni :
  hi !! this = Some ni -> children ni !! i = Some None ->
  disconnect_child this i hi = Some hi.
Proof.
  intros Hn Hc. unfold disconnect_child. rewrite Hn. simpl. rewrite Hc. reflexivity.
Qed.

Lemma disconnect_child_some this i (hi : gmap addr BaseNode) ni ca cn idx :
  hi !! this = Some ni -> children ni !! i = Some (Some ca) ->
  hi !! ca = Some cn ->
  std_find this (parents cn) = Some idx -> idx < length (parent_indices cn) ->
  exists h',
    disconnect_child this i hi = Some h' /\
    forall a, h' !! a =
      (fun m =>
         let m1 := if decide (a = ca)
                   then set_parent_indices (delete idx (parent_indices m))
                          (set_parents (delete idx (parents m)) m)
                   else m in
         if decide (a = this) then set_children (<[i := None]> (children m1)) m1 else m1)
      <$> hi !! a.
Proof.
  intros Hn Hc Hca Hfind Hidx. unfold disconnect_child.
  rewrite Hn. simpl. rewrite Hc. simpl. rewrite Hca. simpl. rewrite Hfind. simpl.
  rewrite lookup_insert_eq. simpl.
  destruct (decide (idx < length (parent_indices cn))); [|contradiction].
  destruct (decide (ca = this)) as [->|Hne].
  - assert (cn = ni) as -> by congruence.
    rewrite lookup_insert_eq. simpl.
    eexists. split; [reflexivity|]. intros a.
    destruct (decide (a = this)) as [->|Ha].
    + rewrite lookup_insert_eq, Hn. reflexivity.
    + rewrite !lookup_insert_ne by congruence. destruct (hi !! a); reflexivity.
  - rewrite lookup_insert_ne by congruence. rewrite lookup_insert_ne by congruence.
    rewrite Hn. simpl.
    eexists. split; [reflexivity|]. intros a.
    destruct (decide (a = this)) as [->|Ha].
    + rewrite lookup_insert_eq, Hn. simpl.
      destruct (decide (this = ca)); [congruence|]. reflexivity.
    + rewrite lookup_insert_ne by congruence.
      destruct (decide (a = ca)) as [->|Hac].
      * rewrite lookup_insert_eq, Hca. reflexivity.
      * rewrite !lookup_insert_ne by congruence. destruct (hi !! a); reflexivity.
Qed.

Lemma disconnect_from_children_loop this (h : gmap addr BaseNode) n :
  links_consistent h -> h !! this = Some n ->
  exists h',
    for_loop (length (children n)) 0 (disconnect_child this) h = Some h' /\
    forall a, h' !! a =
      (fun m => if decide (a = this)
                then set_children (replicate (length (children m)) None) (without_parent this m)
                else without_parent this m) <$> h !! a.
Proof.
  intros Hcons Hn. pose proof Hcons as (Hlen & Hup & Hdown & Hnd).
  set (S0 := children n : list (option addr)). set (L := length S0).
  destruct (for_loop_inv
    (fun i (hi : gmap addr BaseNode) =>
       (forall a, h !! a = None -> hi !! a = None) /\
       (forall a m, h !! a = Some m ->
          exists mi, hi !! a = Some mi /\
            same_but_links m mi /\
            length (parents mi) = length (parent_indices mi) /\
            filter (fun e => fst e <> this) (parent_entries mi)
              = filter (fun e => fst e <> this) (parent_entries m) /\
            length (filter (fun e => fst e = this) (parent_entries mi))
              = length (filter (fun j => S0 !! j = Some (Some a)) (seq i (L - i))) /\
            children mi = if decide (a = this) then replicate i None ++ drop i S0
                          else children m))
    (disconnect_child this) L 0 h) as (h' & Hrun & Hnone & Hsome).
  - (* before the first pass *)
    split; [auto|]. intros a m Hm. exists m. split; [exact Hm|].
    split; [apply same_but_links_refl|]. split; [eauto|]. split; [reflexivity|]. split.
    + rewrite Nat.sub_0_r. apply (slot_count this h n a m Hcons Hn Hm).
    + destruct (decide (a = this)) as [->|Ha]; [|reflexivity].
      assert (m = n) as -> by congruence. rewrite drop_0. reflexivity.
  - (* one pass *)
    intros i hi Hi [Hinone Hisome]. simpl in Hi.
    destruct (Hisome this n Hn) as (ni & Hni & _ & _ & _ & _ & Hchi).
    rewrite decide_True in Hchi by reflexivity.
    destruct (lookup_lt_is_Some_2 S0 i ltac:(unfold L in Hi; lia)) as [c Hc].
    assert (Hslot : children ni !! i = Some c).
    { rewrite Hchi. rewrite nulled_prefix_lookup. exact Hc. }
    destruct c as [ca|].
    + (* the slot is set *)
      destruct (Hdown this n i ca Hn Hc) as (mca & Hmca & _).
      destruct (Hisome ca mca Hmca) as (cn & Hcn & _ & Hl2 & _ & Hcount & _).
      rewrite (seq_filter_step (fun j => S0 !! j = Some (Some ca)) i L) in Hcount by lia.
      rewrite decide_True in Hcount by exact Hc.
      destruct (std_find_entry this (parents cn) (parent_indices cn) Hl2) as (idx & pi & Hfind & Hentry & Hidx).
      { unfold parent_entries in Hcount. lia. }
      destruct (disconnect_child_some this i hi ni ca cn idx Hni Hslot Hcn Hfind Hidx)
        as (h1 & Hstep & Hpt).
      exists h1. split; [exact Hstep|]. split.
      * intros a Ha. rewrite Hpt, (Hinone a Ha). reflexivity.
      * intros a m Hm.
        destruct (Hisome a m Hm) as (mi & Hmi & Hsame & Hl & Hother & Hcnt & Hch).
        rewrite Hpt, Hmi. simpl. eexists. split; [reflexivity|].
        assert (Hdel : a = ca ->
          parent_entries (set_parent_indices (delete idx (parent_indices mi))
                            (set_parents (delete idx (parents mi)) mi))
          = delete idx (parent_entries mi) /\ parent_entries mi !! idx = Some (this, pi)).
        { intros ->. assert (mi = cn) as -> by congruence.
          split; [apply zip_delete|exact Hentry]. }
        rewrite (seq_filter_step (fun j => S0 !! j = Some (Some a)) i L) in Hcnt by lia.
        destruct (decide (a = ca)) as [Hac|Hac].
        -- destruct (Hdel Hac) as [Hd He]. subst a.
           assert (mi = cn) as -> by congruence.
           rewrite decide_True in Hcnt by exact Hc.
           assert (Hl' : length (delete idx (parents cn)) = length (delete idx (parent_indices cn))).
           { rewrite !length_delete; [lia| |].
             - apply lookup_lt_is_Some_2. exact Hidx.
             - apply lookup_lt_is_Some_2. lia. }
           assert (Hother' : filter (fun e => fst e <> this) (delete idx (parent_entries cn))
                             = filter (fun e => fst e <> this) (parent_entries m)).
           { rewrite (filter_delete_out _ _ _ _ He); [exact Hother|]. simpl. tauto. }
           assert (Hcnt' : length (filter (fun e => fst e = this) (delete idx (parent_entries cn)))
                           = length (filter (fun j => S0 !! j = Some (Some ca))
                                       (seq (S i) (L - S i)))).
           { pose proof (filter_delete_in (fun e => fst e = this) _ _ _ He eq_refl) as Hin.
             lia. }
           destruct (decide (ca = this)) as [Hthis|Hthis].
           ++ split; [apply same_but_links_children, same_but_links_parent_indices,
                      same_but_links_parents; exact Hsame|].
              split; [exact Hl'|].
              change (parent_entries (set_children _ ?x)) with (parent_entries x).
              rewrite Hd. split; [exact Hother'|]. split; [exact Hcnt'|].
              simpl. rewrite Hch. apply nulled_prefix_step. unfold L in Hi. lia.
           ++ split; [apply same_but_links_parent_indices, same_but_links_parents; exact Hsame|].
              split; [exact Hl'|]. rewrite Hd.
              split; [exact Hother'|]. split; [exact Hcnt'|]. exact Hch.
        -- rewrite decide_False in Hcnt by congruence.
           destruct (decide (a = this)) as [Hthis|Hthis].
           ++ split; [apply same_but_links_children; exact Hsame|].
              split; [exact Hl|].
              change (parent_entries (set_children _ ?x)) with (parent_entries x).
              split; [exact Hother|]. split; [exact Hcnt|].
              simpl. rewrite Hch. apply nulled_prefix_step. unfold L in Hi. lia.
           ++ auto.
    + (* the slot is null *)
      rewrite (disconnect_child_none this i hi ni Hni Hslot).
      exists hi. split; [reflexivity|]. split; [exact Hinone|].
      intros a m Hm.
      destruct (Hisome a m Hm) as (mi & Hmi & Hsame & Hl & Hother & Hcnt & Hch).
      exists mi. split; [exact Hmi|]. split; [exact Hsame|]. split; [exact Hl|].
      split; [exact Hother|].
      rewrite (seq_filter_step (fun j => S0 !! j = Some (Some a)) i L) in Hcnt by lia.
      rewrite decide_False in Hcnt by congruence.
      split; [exact Hcnt|].
      destruct (decide (a = this)) as [Hthis|Hthis]; [|exact Hch].
      rewrite Hch. rewrite <- nulled_prefix_step by (unfold L in Hi; lia).
      symmetry. apply list_insert_id. rewrite nulled_prefix_lookup. exact Hc.
  - (* after the last pass *)
    exists h'. split; [exact Hrun|]. intros a.
    destruct (h !! a) as [m|] eqn:Hm; [|rewrite (Hnone a Hm); reflexivity].
    destruct (Hsome a m Hm) as (mi & Hmi & Hsame & Hl & Hother & Hcnt & Hch).
    rewrite Hmi. simpl. f_equal.
    simpl in Hcnt. rewrite Nat.sub_diag in Hcnt. simpl in Hcnt.
    pose proof (filter_other_all this _ Hcnt) as Hall.
    rewrite Hall in Hother.
    assert (Hps : parents mi = (filter (fun e => fst e <> this) (parent_entries m)).*1).
    { rewrite <- Hother. unfold parent_entries. symmetry. apply fst_zip. lia. }
    assert (Hpis : parent_indices mi = (filter (fun e => fst e <> this) (parent_entries m)).*2).
    { rewrite <- Hother. unfold parent_entries. symmetry. apply snd_zip. lia. }
    unfold same_but_links in Hsame. rewrite Hsame, Hps, Hpis, Hch.
    unfold without_parent.
    destruct (decide (a = this)) as [->|Ha].
    + assert (m = n) as -> by congruence.
      unfold L. change (0 + length S0) with (length S0).
      rewrite drop_all, app_nil_r. reflexivity.
    + destruct m; reflexivity.
Qed.

(** *** What the two routines, and the destructor, leave behind *)

Lemma parent_entries_without_parent this m :
  parent_entries (without_parent this m)
  = filter (fun e => fst e <> this) (parent_entries m).
Proof. unfold without_parent, parent_entries. simpl. apply zip_fst_snd. Qed.

Lemma clear_child_Some this c a : clear_child this c = Some a <-> c = Some a /\ a <> this.
Proof.
  unfold clear_child. destruct (decide (c = Some this)) as [->|Hne].
  - split; [discriminate|]. intros [[= ->] Hne]. congruence.
  - split.
    + intros ->. split; [reflexivity|]. congruence.
    + intros [-> _]. reflexivity.
Qed.

Lemma parents_detached_consistent this (h h' : gmap addr BaseNode) :
  links_consistent h ->
  (forall a, h' !! a =
     (fun m => if decide (a = this)
               then set_parent_indices [] (set_parents [] (without_child this m))
               else without_child this m) <$> h !! a) ->
  links_consistent h' /\
  (forall n', h' !! this = Some n' -> parents n' = [] /\ parent_indices n' = []) /\
  (forall a m', h' !! a = Some m' -> Some this ∉ children m').
Proof.
  intros (Hlen & Hup & Hdown & Hnd) Hpt.
  assert (Hnode : forall a m', h' !! a = Some m' ->
    exists m, h !! a = Some m /\
      length (parents m') = length (parent_indices m') /\
      parent_entries m' = (if decide (a = this) then [] else parent_entries m) /\
      children m' = clear_child this <$> children m).
  { intros a m' Hm'. rewrite Hpt in Hm'.
    destruct (h !! a) as [m|] eqn:Hm; simpl in Hm'; [|discriminate].
    injection Hm' as <-. exists m. split; [reflexivity|].
    destruct (decide (a = this)); simpl; repeat split; eauto. }
  assert (Hdom : forall a m, h !! a = Some m -> exists m', h' !! a = Some m').
  { intros a m Hm. rewrite Hpt, Hm. simpl. eauto. }
  split; [|split].
  - split; [|split; [|split]].
    + intros a m' Hm'. destruct (Hnode _ _ Hm') as (m & _ & Hl & _). exact Hl.
    + intros a m' p pi Hm' Hin.
      destruct (Hnode _ _ Hm') as (m & Hm & _ & He & _). rewrite He in Hin.
      destruct (decide (a = this)) as [->|Ha]; [inversion Hin|].
      destruct (Hup _ _ _ _ Hm Hin) as (pn & Hpn & Hslot).
      destruct (Hdom _ _ Hpn) as (pn' & Hpn').
      destruct (Hnode _ _ Hpn') as (pn0 & Hpn0 & _ & _ & Hch).
      assert (pn0 = pn) as -> by congruence.
      exists pn'. split; [exact Hpn'|]. rewrite Hch, list_lookup_fmap.
      unfold ptr in *. rewrite Hslot. simpl. f_equal. apply clear_child_Some. auto.
    + intros p pn' pi a Hpn' Hslot.
      destruct (Hnode _ _ Hpn') as (pn & Hpn & _ & _ & Hch).
      rewrite Hch, list_lookup_fmap in Hslot.
      destruct (children pn !! pi) as [c|] eqn:Hc; simpl in Hslot; [|discriminate].
      injection Hslot as Hslot. apply clear_child_Some in Hslot as [-> Ha].
      destruct (Hdown _ _ _ _ Hpn Hc) as (m & Hm & Hin).
      destruct (Hdom _ _ Hm) as (m' & Hm').
      destruct (Hnode _ _ Hm') as (m0 & Hm0 & _ & He & _).
      assert (m0 = m) as -> by congruence.
      exists m'. split; [exact Hm'|]. rewrite He.
      destruct (decide (a = this)); [contradiction|exact Hin].
    + intros a m' Hm'. destruct (Hnode _ _ Hm') as (m & Hm & _ & He & _). rewrite He.
      destruct (decide (a = this)); [constructor|eauto].
  - intros n' Hn'. rewrite Hpt in Hn'.
    destruct (h !! this) as [n|]; simpl in Hn'; [|discriminate].
    rewrite decide_True in Hn' by reflexivity. injection Hn' as <-. split; reflexivity.
  - intros a m' Hm' Hin. destruct (Hnode _ _ Hm') as (m & _ & _ & _ & Hch).
    rewrite Hch in Hin. apply list_elem_of_fmap in Hin as (c & Hc & _).
    symmetry in Hc. apply clear_child_Some in Hc as [_ Hne]. congruence.
Qed.

Lemma children_detached_consistent this (h h' : gmap addr BaseNode) :
  links_consistent h ->
  (forall a, h' !! a =
     (fun m => if decide (a = this)
               then set_children (replicate (length (children m)) None) (without_parent this m)
               else without_parent this m) <$> h !! a) ->
  links_consistent h' /\
  (forall n' j c, h' !! this = Some n' -> children n' !! j = Some c -> c = None) /\
  (forall a m', h' !! a = Some m' -> this ∉ parents m').
Proof.
  intros (Hlen & Hup & Hdown & Hnd) Hpt.
  assert (Hnode : forall a m', h' !! a = Some m' ->
    exists m, h !! a = Some m /\
      parents m' = (filter (fun e => fst e <> this) (parent_entries m)).*1 /\
      parent_indices m' = (filter (fun e => fst e <> this) (parent_entries m)).*2 /\
      parent_entries m' = filter (fun e => fst e <> this) (parent_entries m) /\
      children m' = (if decide (a = this) then replicate (length (children m)) None
                     else children m)).
  { intros a m' Hm'. rewrite Hpt in Hm'.
    destruct (h !! a) as [m|] eqn:Hm; simpl in Hm'; [|discriminate].
    injection Hm' as <-. exists m. split; [reflexivity|].
    destruct (decide (a = this)); simpl; repeat split;
      try reflexivity; apply (parent_entries_without_parent this m). }
  assert (Hdom : forall a m, h !! a = Some m -> exists m', h' !! a = Some m').
  { intros a m Hm. rewrite Hpt, Hm. simpl. eauto. }
  split; [|split].
  - split; [|split; [|split]].
    + intros a m' Hm'. destruct (Hnode _ _ Hm') as (m & _ & Hp & Hpi & _).
      rewrite Hp, Hpi, !length_fmap. reflexivity.
    + intros a m' p pi Hm' Hin.
      destruct (Hnode _ _ Hm') as (m & Hm & _ & _ & He & _). rewrite He in Hin.
      apply list_elem_of_filter in Hin as [Hp Hin]. simpl in Hp.
      destruct (Hup _ _ _ _ Hm Hin) as (pn & Hpn & Hslot).
      destruct (Hdom _ _ Hpn) as (pn' & Hpn').
      destruct (Hnode _ _ Hpn') as (pn0 & Hpn0 & _ & _ & _ & Hch).
      assert (pn0 = pn) as -> by congruence.
      exists pn'. split; [exact Hpn'|]. rewrite Hch.
      destruct (decide (p = this)); [contradiction|exact Hslot].
    + intros p pn' pi a Hpn' Hslot.
      destruct (Hnode _ _ Hpn') as (pn & Hpn & _ & _ & _ & Hch). rewrite Hch in Hslot.
      destruct (decide (p = this)) as [->|Hp].
      { apply lookup_replicate in Hslot as [Habs _]. discriminate Habs. }
      destruct (Hdown _ _ _ _ Hpn Hslot) as (m & Hm & Hin).
      destruct (Hdom _ _ Hm) as (m' & Hm').
      destruct (Hnode _ _ Hm') as (m0 & Hm0 & _ & _ & He & _).
      assert (m0 = m) as -> by congruence.
      exists m'. split; [exact Hm'|]. rewrite He. apply list_elem_of_filter. auto.
    + intros a m' Hm'. destruct (Hnode _ _ Hm') as (m & Hm & _ & _ & He & _). rewrite He.
      apply NoDup_filter. eauto.
  - intros n' j c Hn' Hc. destruct (Hnode _ _ Hn') as (n & _ & _ & _ & _ & Hch).
    rewrite Hch, decide_True in Hc by reflexivity.
    apply lookup_replicate in Hc as [-> _]. reflexivity.
  - intros a m' Hm' Hin. destruct (Hnode _ _ Hm') as (m & _ & Hp & _).
    rewrite Hp in Hin. apply list_elem_of_fmap in Hin as ([p pi] & -> & Hin).
    apply list_elem_of_filter in Hin as [Hne _]. simpl in Hne. congruence.
Qed.

(** X23: on consistent links [disconnect_from_parents] returns; it nulls
    exactly the child slots that held the node, in whatever parent, clears
    the node's own [parents] and [parent_indices], changes nothing else,
    and leaves the links consistent. *)
Theorem disconnect_from_parents_detaches this (h : gmap addr BaseNode) n :
  links_consistent h -> h !! this = Some n ->
  exists h',
    disconnect_from_parents this h = Some h' /\
    (forall a, h' !! a =
       (fun m => if decide (a = this)
                 then set_parent_indices [] (set_parents [] (without_child this m))
                 else without_child this m) <$> h !! a) /\
    links_consistent h' /\
    (forall a m', h' !! a = Some m' -> Some this ∉ children m').
Proof.
  intros Hcons Hn.
  destruct (disconnect_from_parents_spec this h n Hcons Hn) as (h' & Hrun & Hpt).
  destruct (parents_detached_consistent this h h' Hcons Hpt) as (Hc' & _ & Hno).
  exists h'. auto.
Qed.

Lemma disconnect_from_children_spec this (h : gmap addr BaseNode) n :
  links_consistent h -> h !! this = Some n ->
  exists h',
    disconnect_from_children this h = Some h' /\
    forall a, h' !! a =
      (fun m => if decide (a = this)
                then set_children (replicate (length (children m)) None) (without_parent this m)
                else without_parent this m) <$> h !! a.
Proof.
  intros Hcons Hn.
  destruct (disconnect_from_children_loop this h n Hcons Hn) as (h' & Hrun & Hpt).
  exists h'. split; [|exact Hpt].
  unfold disconnect_from_children. rewrite Hn. exact Hrun.
Qed.

(** X24: on consistent links [disconnect_from_children] returns; it
    nulls every child slot of the node and erases from each child exactly
    the parent entries that name the node, keeping the order of the
    others; it changes nothing else and leaves the links consistent. *)
Theorem disconnect_from_children_detaches this (h : gmap addr BaseNode) n :
  links_consistent h -> h !! this = Some n ->
  exists h',
    disconnect_from_children this h = Some h' /\
    (forall a, h' !! a =
       (fun m => if decide (a = this)
                 then set_children (replicate (length (children m)) None)
                        (without_parent this m)
                 else without_parent this m) <$> h !! a) /\
    links_consistent h' /\
    (forall a m', h' !! a = Some m' -> this ∉ parents m').
Proof.
  intros Hcons Hn.
  destruct (disconnect_from_children_spec this h n Hcons Hn) as (h' & Hrun & Hpt).
  destruct (children_detached_consistent this h h' Hcons Hpt) as (Hc' & _ & Hno).
  exists h'. auto.
Qed.

(** X25: the destructor of a node, run on consistent links, returns and
    leaves the node isolated: no child slot and no parent entry of any
    node refers to it, and it has neither parents nor children.  The
    other nodes lose these references and nothing else, and the links
    stay consistent. *)
Theorem destroy_isolates this (h : gmap addr BaseNode) n :
  links_consistent h -> h !! this = Some n ->
  exists h',
    BaseNode_destroy this h = Some h' /\
    (forall a, h' !! a = after_destroy this a <$> h !! a) /\
    links_consistent h' /\
    isolated this h'.
Proof.
  intros Hcons Hn.
  destruct (disconnect_from_parents_spec this h n Hcons Hn) as (h1 & Hrun1 & Hpt1).
  destruct (parents_detached_consistent this h h1 Hcons Hpt1) as (Hcons1 & Hnop & Hnoc).
  assert (Hn1 : exists n1, h1 !! this = Some n1).
  { rewrite Hpt1, Hn. simpl. eauto. }
  destruct Hn1 as [n1 Hn1].
  destruct (disconnect_from_children_spec this h1 n1 Hcons1 Hn1) as (h2 & Hrun2 & Hpt2).
  destruct (children_detached_consistent this h1 h2 Hcons1 Hpt2) as (Hcons2 & Hnull & Hnopar).
  exists h2. split; [|split; [|split; [exact Hcons2|]]].
  - unfold BaseNode_destroy. rewrite Hrun1. exact Hrun2.
  - intros a. rewrite Hpt2, Hpt1. destruct (h !! a) as [m|]; simpl; [|reflexivity].
    f_equal. unfold after_destroy. destruct (decide (a = this)); [|reflexivity].
    unfold unlinked, without_parent, without_child, parent_entries. simpl.
    rewrite length_fmap. destruct m; reflexivity.
  - split.
    + assert (Hn2 : exists n2, h2 !! this = Some n2).
      { rewrite Hpt2, Hn1. simpl. eauto. }
      destruct Hn2 as [n2 Hn2]. exists n2. split; [exact Hn2|].
      assert (Hshape : parents n2 = [] /\ parent_indices n2 = []).
      { pose proof Hn2 as Hn2'. rewrite Hpt2, Hn1 in Hn2'. simpl in Hn2'.
        rewrite decide_True in Hn2' by reflexivity. injection Hn2' as <-.
        destruct (Hnop n1 Hn1) as [Hp Hpi].
        unfold without_parent, parent_entries. simpl. rewrite Hp, Hpi. split; reflexivity. }
      destruct Hshape as [Hp Hpi]. split; [exact Hp|]. split; [exact Hpi|].
      intros j c Hc. eapply Hnull; eassumption.
    + intros a m2 Hm2. split; [eapply Hnopar; eassumption|].
      pose proof Hm2 as Hm2'. rewrite Hpt2 in Hm2'.
      destruct (h1 !! a) as [m1|] eqn:Hm1; simpl in Hm2'; [|discriminate].
      injection Hm2' as <-. pose proof (Hnoc a m1 Hm1) as Hfree.
      destruct (decide (a = this)); simpl; [|exact Hfree].
      intros Hin. apply list_elem_of_lookup_1 in Hin as [j Hj].
      apply lookup_replicate in Hj as [Habs _]. discriminate Habs.
Qed.

End Links.

Local Ltac chain_node_cases H :=
  unfold chain_heap in H; rewrite !lookup_insert in H;
  repeat (case_decide; [subst; injection H as <-|]);
  [..|rewrite lookup_empty in H; discriminate H].

Lemma chain_heap_consistent : links_consistent chain_heap.
Proof.
  split; [|split; [|split]].
  - intros a n H. chain_node_cases H; reflexivity.
  - intros a n p pi H Hin.
    chain_node_cases H; cbv in Hin;
      first [ apply list_elem_of_singleton in Hin as [= -> ->] | inversion Hin ];
      (eexists; split; [vm_compute; reflexivity|reflexivity]).
  - intros p pn pi a H Hslot.
    chain_node_cases H; destruct pi as [|pi]; cbv in Hslot; try discriminate Hslot;
      injection Hslot as <-;
      (eexists; split; [vm_compute; reflexivity|apply list_elem_of_singleton; reflexivity]).
  - intros a n H. chain_node_cases H; cbv; repeat constructor; apply not_elem_of_nil.
Defined.

Lemma connect_keeps_links_consistent_witness :
  exists h', connect 2 0 (Some 0) chain_heap = Some h' /\ links_consistent h'.
Proof.
  destruct (connect 2 0 (Some 0) chain_heap) as [h'|] eqn:H.
  - exists h'. split; [reflexivity|].
    exact (connect_keeps_links_consistent 2 0 0 chain_heap h' chain_heap_consistent H).
  - vm_compute in H. discriminate H.
Defined.

Lemma disconnect_from_parents_detaches_witness :
  exists h',
    disconnect_from_parents 1 chain_heap = Some h' /\
    links_consistent h' /\
    forall a m', h' !! a = Some m' -> Some 1 ∉ children m'.
Proof.
  destruct (disconnect_from_parents_detaches 1 chain_heap (chain_node [0] [0] [Some 2])
              chain_heap_consistent eq_refl) as (h' & Hrun & _ & Hcons & Hno).
  exists h'. auto.
Defined.

Lemma disconnect_from_children_detaches_witness :
  exists h',
    disconnect_from_children 1 chain_heap = Some h' /\
    links_consistent h' /\
    forall a m', h' !! a = Some m' -> 1 ∉ parents m'.
Proof.
  destruct (disconnect_from_children_detaches 1 chain_heap (chain_node [0] [0] [Some 2])
              chain_heap_consistent eq_refl) as (h' & Hrun & _ & Hcons & Hno).
  exists h'. auto.
Defined.

Lemma destroy_isolates_witness :
  exists h',
    BaseNode_destroy 1 chain_heap = Some h' /\
    links_consistent h' /\ isolated 1 h'.
Proof.
  destruct (destroy_isolates 1 chain_heap (chain_node [0] [0] [Some 2])
              chain_heap_consistent eq_refl) as (h' & Hrun & _ & Hcons & Hiso).
  exists h'. auto.
Defined.

(** * The graph helpers of [node.hpp] *)

Module HppFacts.
Import Hpp.

Lemma set_visited_false_id n :
  visited n = false -> set_visited false (set_visited true n) = n.
Proof. destruct n; simpl; intros ->; reflexivity. Qed.

Lemma bfs_loop_mono fuel : forall fuel' i s r,
  bfs_loop fuel i s = Some r -> fuel <= fuel' -> bfs_loop fuel' i s = Some r.
Proof.
  induction fuel as [|fuel IH]; intros fuel' i s r H Hle; [discriminate|].
  destruct fuel' as [|fuel']; [lia|]. simpl in *.
  case_decide; [|exact H].
  destruct (snd s !! i) as [sel|]; [|discriminate]. simpl in *.
  destruct (fst s !! sel) as [n|]; [|discriminate]. simpl in *.
  destruct (visit_children _ s) as [s1|]; [|discriminate]. simpl in *.
  apply IH; [exact H | lia].
Qed.

Lemma flagged_in_nil h : flagged_in [] h h.
Proof.
  intros a. destruct (h !! a); [simpl|reflexivity].
  first [reflexivity | case_decide as Hin; [inversion Hin|reflexivity]].
Qed.

Lemma flagged_in_nil_eq h hc : flagged_in [] h hc -> hc = h.
Proof.
  intros F. apply map_eq. intros a. rewrite (F a).
  destruct (h !! a); [simpl|reflexivity].
  first [reflexivity | case_decide as Hin; [inversion Hin|reflexivity]].
Qed.

Lemma connect_free this index ca (h : gmap addr BaseNode) n cn :
  h !! this = Some n -> children n !! index = Some None ->
  <[this := set_children (<[index := Some ca]> (children n)) n]> h !! ca = Some cn ->
  connect this index (Some ca) h =
    Some (<[ca := set_parent_indices (parent_indices cn ++ [index])
                    (set_parents (parents cn ++ [this]) cn)]>
            (<[this := set_children (<[index := Some ca]> (children n)) n]> h)).
Proof.
  intros Hn Hc Hca. unfold connect. rewrite Hn. simpl. rewrite Hc. simpl.
  unfold ptr in *. rewrite Hca. simpl. rewrite lookup_insert_eq. simpl.
  rewrite insert_insert_eq. reflexivity.
Qed.

Lemma EdgeBuilder_connect_free parent index ca (h : gmap addr Node) pn cn :
  h !! parent = Some pn -> children (core pn) !! index = Some None ->
  <[parent := with_core (set_children (<[index := Some ca]> (children (core pn)))
                           (core pn)) pn]> h !! ca = Some cn ->
  EdgeBuilder_connect parent index (Some ca) h =
    Some (<[ca := mkNode (set_parent_indices (parent_indices (core cn) ++ [index])
                            (set_parents (parents (core cn) ++ [parent]) (core cn)))
                         ((in_degree cn + 1) mod 2 ^ 64) (visited cn) (played cn)]>
            (<[parent := with_core (set_children (<[index := Some ca]> (children (core pn)))
                                      (core pn)) pn]> h)).
Proof.
  intros Hn Hc Hca. unfold EdgeBuilder_connect. rewrite Hn. simpl. rewrite Hc. simpl.
  unfold ptr in *. rewrite Hca. simpl. rewrite lookup_insert_eq. simpl.
  rewrite lookup_insert_eq. simpl.
  rewrite !insert_insert_eq. reflexivity.
Qed.

Lemma EdgeBuilder_connect_inv parent index child (h h' : gmap addr Node) :
  EdgeBuilder_connect parent index child h = Some h' ->
  exists pn ca cn,
    h !! parent = Some pn /\ children (core pn) !! index = Some None /\ child = Some ca
    /\ <[parent := with_core (set_children (<[index := Some ca]> (children (core pn)))
                              (core pn)) pn]> h !! ca = Some cn.
Proof.
  unfold EdgeBuilder_connect. intros H.
  destruct (h !! parent) as [pn|] eqn:Hn; simpl in H; [|discriminate].
  destruct (children (core pn) !! index) as [[x|]|] eqn:Hc; simpl in H;
    [discriminate| |discriminate].
  destruct child as [ca|]; simpl in H; [|discriminate].
  match type of H with
  | context [?m !! ca] => destruct (m !! ca) as [cn|] eqn:Hca; simpl in H; [|discriminate]
  end.
  exists pn, ca, cn. split; [reflexivity|]. split; [exact Hc|]. split; [reflexivity|exact Hca].
Qed.

(** X26 ([EdgeBuilder::connect]): the call returns exactly when the slot
    of an allocated parent is free and the child is an allocated node
    (an occupied slot trips the assertion); when it returns, the link
    members change as [BaseNode::connect] changes them, the child's
    [in_degree] goes up by one (as a [size_t]), and no other
    [in_degree], [visited] or [played] member changes. *)
Theorem EdgeBuilder_connect_counts parent index child (h : gmap addr Node) :
  (is_Some (EdgeBuilder_connect parent index child h) <->
     exists pn ca, h !! parent = Some pn /\ children (core pn) !! index = Some None
                   /\ child = Some ca /\ is_Some (h !! ca))
  /\ (forall h', EdgeBuilder_connect parent index child h = Some h' ->
        connect parent index child (core <$> h) = Some (core <$> h')
        /\ forall a n', h' !! a = Some n' ->
             exists n, h !! a = Some n /\ visited n' = visited n /\ played n' = played n
               /\ in_degree n' = if decide (child = Some a)
                                 then ((in_degree n + 1) mod 2 ^ 64)%Z else in_degree n).
Proof.
  split; [split|].
  - intros [h' H]. destruct (EdgeBuilder_connect_inv _ _ _ _ _ H)
      as (pn & ca & cn & Hn & Hc & -> & Hca).
    exists pn, ca. repeat split; try assumption.
    destruct (decide (ca = parent)) as [->|Hne]; [rewrite Hn; eauto|].
    rewrite lookup_insert_ne in Hca by congruence. rewrite Hca. eauto.
  - intros (pn & ca & Hn & Hc & -> & [cn Hca]).
    destruct (decide (ca = parent)) as [->|Hne].
    + erewrite EdgeBuilder_connect_free; [eauto|exact Hn|exact Hc|].
      rewrite lookup_insert_eq. reflexivity.
    + erewrite EdgeBuilder_connect_free; [eauto|exact Hn|exact Hc|].
      rewrite lookup_insert_ne by congruence. exact Hca.
  - intros h' H. destruct (EdgeBuilder_connect_inv _ _ _ _ _ H)
      as (pn & ca & cn & Hn & Hc & -> & Hca).
    rewrite (EdgeBuilder_connect_free _ _ _ _ _ _ Hn Hc Hca) in H. injection H as <-.
    split.
    + rewrite (connect_free parent index ca (core <$> h) (core pn) (core cn)).
      * rewrite !fmap_insert. reflexivity.
      * rewrite lookup_fmap, Hn. reflexivity.
      * exact Hc.
      * change (set_children (<[index:=Some ca]> (children (core pn))) (core pn))
          with (core (with_core (set_children (<[index:=Some ca]> (children (core pn)))
                                   (core pn)) pn)).
        rewrite <- fmap_insert, lookup_fmap, Hca. reflexivity.
    + intros a n' Ha.
      destruct (decide (a = ca)) as [->|Hne].
      * rewrite lookup_insert_eq in Ha. injection Ha as <-.
        destruct (decide (ca = parent)) as [->|Hp].
        -- rewrite lookup_insert_eq in Hca. injection Hca as <-.
           exists pn. split; [exact Hn|]. split; [reflexivity|]. split; [reflexivity|].
           rewrite decide_True by reflexivity. reflexivity.
        -- rewrite lookup_insert_ne in Hca by congruence.
           exists cn. split; [exact Hca|]. split; [reflexivity|]. split; [reflexivity|].
           rewrite decide_True by reflexivity. reflexivity.
      * rewrite lookup_insert_ne in Ha by congruence.
        destruct (decide (a = parent)) as [->|Hp].
        -- rewrite lookup_insert_eq in Ha. injection Ha as <-.
           exists pn. split; [exact Hn|]. split; [reflexivity|]. split; [reflexivity|].
           rewrite decide_False by congruence. reflexivity.
        -- rewrite lookup_insert_ne in Ha by congruence.
           exists n'. split; [exact Ha|]. split; [reflexivity|]. split; [reflexivity|].
           rewrite decide_False by congruence. reflexivity.
Qed.

Section Bfs.
Variable h : gmap addr Node.
Hypothesis Hclosed : children_closed h.
Hypothesis Hclean : unvisited h.

Lemma visit_spec node n hc q :
  flagged_in q h hc -> h !! node = Some n ->
  exists hc',
    visit node (hc, q) = Some (hc', if decide (node ∈ q) then q else q ++ [node])
    /\ flagged_in (if decide (node ∈ q) then q else q ++ [node]) h hc'.
Proof.
  intros F Hn. unfold visit. simpl. rewrite (F node), Hn. simpl.
  destruct (decide (node ∈ q)) as [Hin|Hin].
  - simpl. exists hc. split; [reflexivity|exact F].
  - rewrite (Hclean node n Hn). eexists. split; [reflexivity|].
    intros a. destruct (decide (a = node)) as [->|Hne].
    + rewrite lookup_insert_eq, Hn. simpl.
      rewrite decide_True by (apply elem_of_app; right; apply list_elem_of_singleton; reflexivity).
      reflexivity.
    + rewrite lookup_insert_ne by congruence. rewrite (F a).
      destruct (h !! a) as [m|]; [|reflexivity]. simpl.
      destruct (decide (a ∈ q)) as [Ha|Ha].
      * rewrite decide_True by (apply elem_of_app; left; exact Ha). reflexivity.
      * rewrite decide_False; [reflexivity|].
        intros [Hq|Hs]%elem_of_app; [contradiction|].
        apply list_elem_of_singleton in Hs. contradiction.
Qed.

Lemma visit_children_spec cs : forall hc q,
  flagged_in q h hc -> NoDup q ->
  (forall c, Some c ∈ cs -> is_Some (h !! c)) ->
  exists hc' extra,
    visit_children cs (hc, q) = Some (hc', q ++ extra)
    /\ flagged_in (q ++ extra) h hc'
    /\ NoDup (q ++ extra)
    /\ (forall c, Some c ∈ cs -> c ∈ q ++ extra)
    /\ (forall c, c ∈ extra -> Some c ∈ cs).
Proof.
  induction cs as [|c cs IH]; intros hc q F ND Hall.
  - exists hc, []. rewrite app_nil_r. simpl.
    split; [reflexivity|]. split; [exact F|]. split; [exact ND|].
    split; intros c Hc; inversion Hc.
  - assert (Hrest : forall c0, Some c0 ∈ cs -> is_Some (h !! c0)).
    { intros c0 Hc0. apply Hall. right. exact Hc0. }
    destruct c as [ca|].
    + destruct (Hall ca) as [n Hn]; [left|].
      destruct (visit_spec ca n hc q F Hn) as (hc1 & Hv & F1).
      simpl. rewrite Hv. simpl.
      destruct (decide (ca ∈ q)) as [Hin|Hin].
      * destruct (IH hc1 q F1 ND Hrest) as (hc' & extra & Hrun & F' & ND' & Hcov & Hsrc).
        exists hc', extra. split; [exact Hrun|]. split; [exact F'|].
        split; [exact ND'|]. split.
        -- intros c0 Hc0. apply elem_of_cons in Hc0 as [[= ->]|Hc0].
           ++ apply elem_of_app. left. exact Hin.
           ++ apply Hcov. exact Hc0.
        -- intros c0 Hc0. right. apply Hsrc. exact Hc0.
      * assert (ND1 : NoDup (q ++ [ca])).
        { apply NoDup_app. split; [exact ND|]. split.
          - intros x Hx Hs. apply list_elem_of_singleton in Hs. subst. contradiction.
          - apply NoDup_singleton. }
        destruct (IH hc1 (q ++ [ca]) F1 ND1 Hrest)
          as (hc' & extra & Hrun & F' & ND' & Hcov & Hsrc).
        exists hc', (ca :: extra).
        replace (q ++ ca :: extra) with ((q ++ [ca]) ++ extra)
          by (rewrite <- app_assoc; reflexivity).
        split; [exact Hrun|]. split; [exact F'|]. split; [exact ND'|]. split.
        -- intros c0 Hc0. apply elem_of_cons in Hc0 as [[= ->]|Hc0].
           ++ apply elem_of_app. left. apply elem_of_app. right.
              apply list_elem_of_singleton. reflexivity.
           ++ apply Hcov. exact Hc0.
        -- intros c0 Hc0. apply elem_of_cons in Hc0 as [->|Hc0].
           ++ left.
           ++ right. apply Hsrc. exact Hc0.
    + destruct (IH hc q F ND Hrest) as (hc' & extra & Hrun & F' & ND' & Hcov & Hsrc).
      exists hc', extra. simpl. split; [exact Hrun|]. split; [exact F'|].
      split; [exact ND'|]. split.
      * intros c0 Hc0. apply elem_of_cons in Hc0 as [Hc0|Hc0]; [discriminate|].
        apply Hcov. exact Hc0.
      * intros c0 Hc0. right. apply Hsrc. exact Hc0.
Qed.

Lemma reach_alloc start x :
  is_Some (h !! start) -> rtc (child_of h) start x -> is_Some (h !! x).
Proof.
  intros Hs Hr. apply rtc_inv_r in Hr as [->|(y & _ & Hy)]; [exact Hs|].
  exact (Hclosed y x Hy).
Qed.

Lemma queue_bound (q : list addr) :
  NoDup q -> (forall x, x ∈ q -> is_Some (h !! x)) -> length q <= size h.
Proof.
  intros ND Hall. rewrite <- length_map_to_list.
  rewrite <- (length_fmap fst (map_to_list h)).
  apply submseteq_length, NoDup_submseteq; [exact ND|].
  intros x Hx. destruct (Hall x Hx) as [n Hn].
  apply list_elem_of_fmap. exists (x, n). split; [reflexivity|].
  apply elem_of_map_to_list. exact Hn.
Qed.

Lemma reset_visited_spec l : forall hc,
  NoDup l -> flagged_in l h hc -> (forall x, x ∈ l -> is_Some (h !! x)) ->
  reset_visited l hc = Some h.
Proof.
  induction l as [|a l IH]; intros hc ND F Hall.
  - simpl. f_equal. apply flagged_in_nil_eq. exact F.
  - destruct (Hall a) as [n Hn]; [left|].
    apply NoDup_cons in ND as [Ha ND].
    simpl. rewrite (F a), Hn. simpl.
    rewrite decide_True by left. rewrite set_visited_false_id by exact (Hclean a n Hn).
    apply IH; [exact ND| |intros x Hx; apply Hall; right; exact Hx].
    intros b. destruct (decide (b = a)) as [->|Hne].
    + rewrite lookup_insert_eq, Hn. simpl. rewrite decide_False by exact Ha. reflexivity.
    + rewrite lookup_insert_ne by congruence. rewrite (F b).
      destruct (h !! b) as [m|]; [|reflexivity]. simpl.
      destruct (decide (b ∈ l)) as [Hb|Hb].
      * rewrite decide_True by (right; exact Hb). reflexivity.
      * rewrite decide_False; [reflexivity|].
        intros [->|Hb']%elem_of_cons; contradiction.
Qed.

Lemma bfs_loop_spec start fuel : forall i s,
  is_Some (h !! start) ->
  bfs_inv h start i s -> size h < fuel + i ->
  exists s', bfs_loop fuel i s = Some s' /\ bfs_inv h start (length (snd s')) s'.
Proof.
  induction fuel as [|fuel IH]; intros i [hc q] Hstart Inv Hfuel;
    pose proof Inv as (F & ND & H0 & Hreach & Hcl & Hi); simpl in F, ND, H0, Hreach, Hcl, Hi.
  - assert (length q <= size h).
    { apply queue_bound; [exact ND|]. intros x Hx. eapply reach_alloc; eauto. }
    lia.
  - simpl. case_decide as Hlt.
    + destruct (lookup_lt_is_Some_2 q i Hlt) as [x Hx]. rewrite Hx. simpl.
      assert (Hxq : x ∈ q) by (eapply list_elem_of_lookup_2; exact Hx).
      destruct (reach_alloc start x Hstart (Hreach x Hxq)) as [n Hn].
      assert (Hcore : exists n', hc !! x = Some n' /\ core n' = core n).
      { rewrite (F x), Hn. simpl. case_decide; eexists; split; reflexivity. }
      destruct Hcore as (n' & Hn' & Hcore). rewrite Hn'. simpl. rewrite Hcore.
      destruct (visit_children_spec (children (core n)) hc q F ND)
        as (hc' & extra & Hrun & F' & ND' & Hcov & Hsrc).
      { intros c Hc. apply (Hclosed x c). exists n. split; assumption. }
      rewrite Hrun. simpl.
      apply IH; [exact Hstart| |lia].
      split; [exact F'|]. split; [exact ND'|]. simpl. split; [|split; [|split]].
      * apply lookup_app_l_Some. exact H0.
      * intros y [Hy|Hy]%elem_of_app; [apply Hreach; exact Hy|].
        eapply rtc_r; [apply (Hreach x Hxq)|].
        exists n. split; [exact Hn|apply Hsrc; exact Hy].
      * intros j y c Hj Hy Hc.
        destruct (decide (j = i)) as [->|Hne].
        -- rewrite lookup_app_l in Hy by exact Hlt.
           assert (y = x) by congruence. subst y.
           destruct Hc as (m & Hm & Hc). assert (m = n) by congruence. subst m.
           apply Hcov. exact Hc.
        -- rewrite lookup_app_l in Hy by lia.
           apply elem_of_app. left. apply (Hcl j y c); [lia|exact Hy|exact Hc].
      * rewrite length_app. lia.
    + exists (hc, q). split; [reflexivity|]. simpl.
      assert (i = length q) by lia. subst i. exact Inv.
Qed.

(** X27 ([Traverser::bfs]): on a heap whose child pointers all lead to
    allocated nodes and where no node is flagged as visited, [bfs] from
    an allocated node returns (given fuel above the number of nodes); the
    queue starts with the start node, has no duplicates and holds exactly
    the nodes reachable from the start along child pointers; the heap is
    left as it was, every flag reset. *)
Theorem bfs_collects_reachable start :
  is_Some (h !! start) ->
  exists queue,
    (forall fuel, size h < fuel -> bfs fuel start h = Some (queue, h))
    /\ NoDup queue
    /\ queue !! 0%nat = Some start
    /\ (forall x, x ∈ queue <-> rtc (child_of h) start x).
Proof.
  intros Hstart. pose proof Hstart as [n Hn].
  destruct (visit_spec start n h [] (flagged_in_nil h) Hn) as (hc0 & Hv & F0).
  rewrite decide_False in Hv, F0 by apply not_elem_of_nil. simpl in Hv, F0.
  assert (Inv0 : bfs_inv h start 0 (hc0, [start])).
  { split; [exact F0|]. simpl. split; [apply NoDup_singleton|]. split; [reflexivity|].
    split; [|split; [|lia]].
    - intros x Hx. apply list_elem_of_singleton in Hx. subst. apply rtc_refl.
    - intros j x c Hj. lia. }
  destruct (bfs_loop_spec start (S (size h)) 0 (hc0, [start]) Hstart Inv0)
    as ([hc q] & Hrun & Inv); [lia|].
  pose proof Inv as (F & ND & H0 & Hreach & Hcl & _). simpl in F, ND, H0, Hreach, Hcl.
  exists q. split; [|split; [exact ND|split; [exact H0|]]].
  - intros fuel Hfuel. unfold bfs. rewrite Hv. simpl.
    rewrite (bfs_loop_mono _ fuel _ _ _ Hrun) by lia. simpl.
    rewrite (reset_visited_spec q hc ND F); [reflexivity|].
    intros x Hx. eapply reach_alloc; eauto.
  - intros x. split; [apply Hreach|].
    revert x. apply (rtc_ind_r (fun x => x ∈ q)).
    + eapply list_elem_of_lookup_2. exact H0.
    + intros y z Hy Hyz IH. apply list_elem_of_lookup_1 in IH as [j Hj].
      apply (Hcl j y z); [eapply lookup_lt_Some; exact Hj|exact Hj|exact Hyz].
Qed.

End Bfs.

End HppFacts.

Lemma chain_heap_closed : Hpp.children_closed (Hpp.fresh_members <$> chain_heap).
Proof.
  intros a c (n & Hn & Hc). rewrite lookup_fmap in Hn.
  destruct (chain_heap !! a) as [b|] eqn:H; [|discriminate Hn].
  injection Hn as <-.
  chain_node_cases H; cbv in Hc; apply list_elem_of_singleton in Hc;
    first [ discriminate Hc | injection Hc as -> ];
    eexists; vm_compute; reflexivity.
Defined.

Lemma chain_heap_unvisited : Hpp.unvisited (Hpp.fresh_members <$> chain_heap).
Proof.
  intros a n Hn. rewrite lookup_fmap in Hn.
  destruct (chain_heap !! a); [injection Hn as <-; reflexivity|discriminate Hn].
Defined.

Lemma bfs_collects_reachable_witness :
  exists queue,
    Hpp.bfs 4 1 (Hpp.fresh_members <$> chain_heap)
      = Some (queue, Hpp.fresh_members <$> chain_heap)
    /\ NoDup queue /\ queue !! 0%nat = Some 1.
Proof.
  destruct (HppFacts.bfs_collects_reachable (Hpp.fresh_members <$> chain_heap)
              chain_heap_closed chain_heap_unvisited 1)
    as (queue & Hrun & ND & H0 & _).
  - eexists. vm_compute. reflexivity.
  - exists queue. split; [|split; assumption].
    apply Hrun. apply Nat.ltb_lt. vm_compute. reflexivity.
Defined.

Lemma EdgeBuilder_connect_counts_witness :
  exists h',
    Hpp.EdgeBuilder_connect 2 0 (Some 0) (Hpp.fresh_members <$> chain_heap) = Some h'
    /\ connect 2 0 (Some 0) (Hpp.core <$> (Hpp.fresh_members <$> chain_heap))
        = Some (Hpp.core <$> h').
Proof.
  destruct (Hpp.EdgeBuilder_connect 2 0 (Some 0) (Hpp.fresh_members <$> chain_heap))
    as [h'|] eqn:H.
  - exists h'. split; [reflexivity|].
    exact (proj1 (proj2 (HppFacts.EdgeBuilder_connect_counts 2 0 (Some 0)
                           (Hpp.fresh_members <$> chain_heap)) h' H)).
  - vm_compute in H. discriminate H.
Defined.
